(** * Athena (C version): conversion routines, corner EMFs and the CT update

    A shallow embedding of the parts of [convert_var.c] and
    [integrate_3d_vl.c] that the properties below talk about.  The C type
    [Real] is read as the field of real numbers (exact arithmetic), C [int]
    indices as [Z], and the [Real ***] / [Cons1D ***] arrays as total
    functions of the three indices [k j i]. *)

From Stdlib Require Import Reals Lra ZArith Lia List Bool.
Import ListNotations.

Open Scope R_scope.

(** ** Macros of [defs.h] *)

(** Modelled from the spec: the macro [SQR] lives in [defs.h], which is not
    part of the sources at hand; it is the plain square. *)
Definition SQR (x : R) : R := x * x.

(** Modelled from the spec: the macro [MAX] lives in [defs.h];
    [MAX(a,b) = ((a) > (b) ? (a) : (b))]. *)
Definition MAX (a b : R) : R := if Rgt_dec a b then a else b.

(** ** The 1-D state vectors of [athena.h] *)

Module Cons1D.
(** conserved variables = (d,Mx,My,Mz,[E],[By,Bz],[s(n)]) *)
Record t : Type := mk
  { d : R; Mx : R; My : R; Mz : R; E : R; By : R; Bz : R; s : list R }.
End Cons1D.

Module Prim1D.
(** primitive variables = (d,Vx,Vy,Vz,[P],[By,Bz],[r(n)]) *)
Record t : Type := mk
  { d : R; Vx : R; Vy : R; Vz : R; P : R; By : R; Bz : R; r : list R }.
End Prim1D.

Abbreviation Cons1D := Cons1D.t.
Abbreviation Prim1D := Prim1D.t.

(** ** Fixed-size [Real] arrays inside a struct *)

(** [a[n]] for an array held as a list. *)
Definition get_nth (n : nat) (a : list R) : R := nth n a 0.

(** [a[n] = v]; a list shorter than [n+1] is left alone. *)
Fixpoint set_nth (n : nat) (v : R) (a : list R) : list R :=
  match a, n with
  | [], _ => []
  | _ :: t, O => v :: t
  | h :: t, S n' => h :: set_nth n' v t
  end.

(** [for (n=0; n<N; n++) dst[n] = f(n);] *)
Definition scalar_loop (N : nat) (f : nat -> R) (dst : list R) : list R :=
  fold_left (fun a n => set_nth n (f n) a) (seq 0 N) dst.

(** ** [convert_var.c] *)

Section ConvertVar.

(** Compile-time switches ([#ifdef MHD], [#ifdef ISOTHERMAL], [NSCALARS]),
    the run-time globals of [globals.h] and the floor of [defs.h]. *)
Variable MHD : bool.
Variable ISOTHERMAL : bool.
Variable NSCALARS : nat.
Variable Gamma : R.
Variable Iso_csound2 : R.
Variable TINY_NUMBER : R.

(** Modelled from the spec: [Gamma_1] is a global that [main.c] (absent
    here) initialises; [globals.h] documents it as "(Gamma)-1". *)
Definition Gamma_1 : R := Gamma - 1.

(** [void Cons1D_to_Prim1D(const Cons1D *pU, Prim1D *pW, const Real *pBx)].
    The second argument is the content of [*pW] on entry, the result its
    content on return; a field behind a disabled [#ifdef] is not assigned. *)
Definition Cons1D_to_Prim1D (pU : Cons1D) (pW : Prim1D) (pBx : R) : Prim1D :=
  let di := 1 / Cons1D.d pU in
  let P0 := Cons1D.E pU
            - 0.5 * (SQR (Cons1D.Mx pU) + SQR (Cons1D.My pU) + SQR (Cons1D.Mz pU)) * di in
  let P1 := if MHD
            then P0 - 0.5 * (SQR pBx + SQR (Cons1D.By pU) + SQR (Cons1D.Bz pU))
            else P0 in
  let P2 := P1 * Gamma_1 in
  let P3 := MAX P2 TINY_NUMBER in
  Prim1D.mk
    (Cons1D.d pU)
    (Cons1D.Mx pU * di)
    (Cons1D.My pU * di)
    (Cons1D.Mz pU * di)
    (if ISOTHERMAL then Prim1D.P pW else P3)
    (if MHD then Cons1D.By pU else Prim1D.By pW)
    (if MHD then Cons1D.Bz pU else Prim1D.Bz pW)
    (scalar_loop NSCALARS (fun n => get_nth n (Cons1D.s pU) * di) (Prim1D.r pW)).

(** [void Prim1D_to_Cons1D(Cons1D *pU, const Prim1D *pW, const Real *pBx)],
    with [*pU] on entry as first argument and [*pU] on return as result. *)
Definition Prim1D_to_Cons1D (pU : Cons1D) (pW : Prim1D) (pBx : R) : Cons1D :=
  let E0 := Prim1D.P pW / Gamma_1
            + 0.5 * Prim1D.d pW
              * (SQR (Prim1D.Vx pW) + SQR (Prim1D.Vy pW) + SQR (Prim1D.Vz pW)) in
  let E1 := if MHD
            then E0 + 0.5 * (SQR pBx + SQR (Prim1D.By pW) + SQR (Prim1D.Bz pW))
            else E0 in
  Cons1D.mk
    (Prim1D.d pW)
    (Prim1D.d pW * Prim1D.Vx pW)
    (Prim1D.d pW * Prim1D.Vy pW)
    (Prim1D.d pW * Prim1D.Vz pW)
    (if ISOTHERMAL then Cons1D.E pU else E1)
    (if MHD then Prim1D.By pW else Cons1D.By pU)
    (if MHD then Prim1D.Bz pW else Cons1D.Bz pU)
    (scalar_loop NSCALARS (fun n => get_nth n (Prim1D.r pW) * Prim1D.d pW) (Cons1D.s pU)).

(** [Real cfast(const Cons1D *U, const Real *Bx)] *)
Definition cfast (U : Cons1D) (Bx : R) : R :=
  let pb := if MHD
            then 0.5 * (SQR Bx + SQR (Cons1D.By U) + SQR (Cons1D.Bz U))
            else 0 in
  let p := Gamma_1 * (Cons1D.E U - pb
                      - 0.5 * (SQR (Cons1D.Mx U) + SQR (Cons1D.My U) + SQR (Cons1D.Mz U))
                        / Cons1D.d U) in
  let asq := if ISOTHERMAL then Iso_csound2 else Gamma * p / Cons1D.d U in
  if MHD then
    let ctsq := (SQR (Cons1D.By U) + SQR (Cons1D.Bz U)) / Cons1D.d U in
    let casq := SQR Bx / Cons1D.d U in
    let tmp := casq + ctsq - asq in
    let cfsq := 0.5 * ((asq + ctsq + casq) + sqrt (tmp * tmp + 4 * asq * ctsq)) in
    sqrt cfsq
  else sqrt asq.

(** *** Reference formulae and comparison of states *)

(** The gas pressure of a conserved state,
    [(Gamma-1) * (E - 1/2 rho v^2 - 1/2 |B|^2)], the magnetic term under
    MHD only; no floor is applied. *)
Definition pressure (U : Cons1D) (Bx : R) : R :=
  (Gamma - 1)
  * (Cons1D.E U
     - (SQR (Cons1D.Mx U) + SQR (Cons1D.My U) + SQR (Cons1D.Mz U)) / (2 * Cons1D.d U)
     - (if MHD then (SQR Bx + SQR (Cons1D.By U) + SQR (Cons1D.Bz U)) / 2 else 0)).

(** [a^2]: [gamma P / rho], or the constant [c_s^2] when isothermal. *)
Definition a_sq (U : Cons1D) (Bx : R) : R :=
  if ISOTHERMAL then Iso_csound2 else Gamma * pressure U Bx / Cons1D.d U.

(** [b^2 = Bx^2 / rho] *)
Definition b_sq (U : Cons1D) (Bx : R) : R := SQR Bx / Cons1D.d U.

(** [b_perp^2 = (By^2 + Bz^2) / rho] *)
Definition b_perp_sq (U : Cons1D) : R :=
  (SQR (Cons1D.By U) + SQR (Cons1D.Bz U)) / Cons1D.d U.

(** The fast speed as the specification words it: the inner root is taken
    of [(a^2+b^2+b_perp^2)^2 - 4 a^2 b_perp^2]. *)
Definition cfast_spec (U : Cons1D) (Bx : R) : R :=
  let a2 := a_sq U Bx in
  let b2 := b_sq U Bx in
  let bp2 := b_perp_sq U in
  if MHD
  then sqrt (1 / 2 * ((a2 + b2 + bp2) + sqrt (SQR (a2 + b2 + bp2) - 4 * a2 * bp2)))
  else sqrt a2.

(** The same with [4 a^2 b^2] under the inner root, [b^2] being the
    contribution of the normal field [Bx]. *)
Definition cfast_normal (U : Cons1D) (Bx : R) : R :=
  let a2 := a_sq U Bx in
  let b2 := b_sq U Bx in
  let bp2 := b_perp_sq U in
  if MHD
  then sqrt (1 / 2 * ((a2 + b2 + bp2) + sqrt (SQR (a2 + b2 + bp2) - 4 * a2 * b2)))
  else sqrt a2.

(** A struct holds [NSCALARS] passive scalars. *)
Definition wf_Prim1D (W : Prim1D) : Prop := length (Prim1D.r W) = NSCALARS.
Definition wf_Cons1D (U : Cons1D) : Prop := length (Cons1D.s U) = NSCALARS.

(** Equality of two [Prim1D] on the members the configuration compiles
    in: [P] exists unless [ISOTHERMAL], [By] and [Bz] exist under [MHD]. *)
Definition Prim1D_eq (W W' : Prim1D) : Prop :=
  Prim1D.d W = Prim1D.d W'
  /\ Prim1D.Vx W = Prim1D.Vx W'
  /\ Prim1D.Vy W = Prim1D.Vy W'
  /\ Prim1D.Vz W = Prim1D.Vz W'
  /\ (ISOTHERMAL = false -> Prim1D.P W = Prim1D.P W')
  /\ (MHD = true -> Prim1D.By W = Prim1D.By W' /\ Prim1D.Bz W = Prim1D.Bz W')
  /\ Prim1D.r W = Prim1D.r W'.

(** Equality of two [Cons1D] on the members the configuration compiles
    in. *)
Definition Cons1D_eq (U U' : Cons1D) : Prop :=
  Cons1D.d U = Cons1D.d U'
  /\ Cons1D.Mx U = Cons1D.Mx U'
  /\ Cons1D.My U = Cons1D.My U'
  /\ Cons1D.Mz U = Cons1D.Mz U'
  /\ (ISOTHERMAL = false -> Cons1D.E U = Cons1D.E U')
  /\ (MHD = true -> Cons1D.By U = Cons1D.By U' /\ Cons1D.Bz U = Cons1D.Bz U')
  /\ Cons1D.s U = Cons1D.s U'.

End ConvertVar.

(** ** Arrays and counted loops of [integrate_3d_vl.c] *)

(** A [T ***a] array, read as [a k j i] for [a[k][j][i]]. *)
Definition arr3 (T : Type) : Type := Z -> Z -> Z -> T.

Definition same_index (k j i k' j' i' : Z) : bool :=
  ((k =? k') && (j =? j') && (i =? i'))%Z.

(** [a[k][j][i] = v] *)
Definition arr3_set {T : Type} (a : arr3 T) (k j i : Z) (v : T) : arr3 T :=
  fun k' j' i' => if same_index k j i k' j' i' then v else a k' j' i'.

(** [a[k][j][i] += v] *)
Definition arr3_add (a : arr3 R) (k j i : Z) (v : R) : arr3 R :=
  arr3_set a k j i (a k j i + v).

Fixpoint for_iter {S : Type} (n : nat) (i : Z) (body : Z -> S -> S) (s : S) : S :=
  match n with
  | O => s
  | Datatypes.S n' => for_iter n' (i + 1)%Z body (body i s)
  end.

(** [for (i=lo; i<=hi; i++) body] *)
Definition for_loop {S : Type} (lo hi : Z) (body : Z -> S -> S) (s : S) : S :=
  for_iter (Z.to_nat (hi + 1 - lo)) lo body s.

(** The members of [Grid] (declared in [athena.h]) that the code below uses;
    [is_] stands for the member [is]. *)
Record Grid : Type := mkGrid
  { is_ : Z; ie : Z; js : Z; je : Z; ks : Z; ke : Z;
    dt : R; dx1 : R; dx2 : R; dx3 : R;
    B1i : arr3 R; B2i : arr3 R; B3i : arr3 R }.

Definition with_B1i (g : Grid) (a : arr3 R) : Grid :=
  mkGrid (is_ g) (ie g) (js g) (je g) (ks g) (ke g)
         (dt g) (dx1 g) (dx2 g) (dx3 g) a (B2i g) (B3i g).

Definition with_B2i (g : Grid) (a : arr3 R) : Grid :=
  mkGrid (is_ g) (ie g) (js g) (je g) (ks g) (ke g)
         (dt g) (dx1 g) (dx2 g) (dx3 g) (B1i g) a (B3i g).

Definition with_B3i (g : Grid) (a : arr3 R) : Grid :=
  mkGrid (is_ g) (ie g) (js g) (je g) (ks g) (ke g)
         (dt g) (dx1 g) (dx2 g) (dx3 g) (B1i g) (B2i g) a.

(** [pGrid->B1i[k][j][i] += v] and its two siblings. *)
Definition add_B1i (g : Grid) (k j i : Z) (v : R) : Grid :=
  with_B1i g (arr3_add (B1i g) k j i v).

Definition add_B2i (g : Grid) (k j i : Z) (v : R) : Grid :=
  with_B2i g (arr3_add (B2i g) k j i v).

Definition add_B3i (g : Grid) (k j i : Z) (v : R) : Grid :=
  with_B3i g (arr3_add (B3i g) k j i v).

(** The reconstruction order chosen at configure time. *)
Inductive Order : Type := FIRST_ORDER | SECOND_ORDER | THIRD_ORDER.

(** The discrete divergence of the face-centred field over cell [(k,j,i)]. *)
Definition divB (g : Grid) (k j i : Z) : R :=
  (B1i g k j (i + 1)%Z - B1i g k j i) / dx1 g
  + (B2i g k (j + 1)%Z i - B2i g k j i) / dx2 g
  + (B3i g (k + 1)%Z j i - B3i g k j i) / dx3 g.

(** What the statement about the corner EMFs asks of a correction term: the
    upwind difference for a positive mass flux, the downwind one for a
    negative mass flux, their arithmetic mean for a vanishing one. *)
Definition upwind_select (Fd up down : R) : R :=
  if Rgt_dec Fd 0 then up
  else if Rlt_dec Fd 0 then down
  else (up + down) / 2.

Section Integrate3dVl.

Open Scope Z_scope.

(** [nghost] is a macro of [defs.h]. *)
Variable nghost : Z.
Variable order : Order.

(** Offset between [il] and [ib] ("Set widest loop limits possible"). *)
Definition stencil : Z :=
  match order with
  | FIRST_ORDER => 1
  | SECOND_ORDER => 2
  | THIRD_ORDER => 3
  end.

Variable pGrid : Grid.

Definition il : Z := is_ pGrid - nghost.
Definition iu : Z := ie pGrid + nghost.
Definition jl : Z := js pGrid - nghost.
Definition ju : Z := je pGrid + nghost.
Definition kl : Z := ks pGrid - nghost.
Definition ku : Z := ke pGrid + nghost.

Definition ib : Z := il + stencil.
Definition it : Z := iu - stencil.
Definition jb : Z := jl + stencil.
Definition jt : Z := ju - stencil.
Definition kb : Z := kl + stencil.
Definition kt : Z := ku - stencil.

Definition dtodx1 : R := (dt pGrid / dx1 pGrid)%R.
Definition dtodx2 : R := (dt pGrid / dx2 pGrid)%R.
Definition dtodx3 : R := (dt pGrid / dx3 pGrid)%R.

Section Step11.

(** The corner EMFs left behind by the three [integrate_emf*_corner]. *)
Variables emf1 emf2 emf3 : arr3 R.

(** Right-hand sides of the three [+=] of Step 11. *)
Definition ct_B1i (k j i : Z) : R :=
  (dtodx3 * (emf2 (k + 1)%Z j i - emf2 k j i)
   - dtodx2 * (emf3 k (j + 1)%Z i - emf3 k j i))%R.

Definition ct_B2i (k j i : Z) : R :=
  (dtodx1 * (emf3 k j (i + 1)%Z - emf3 k j i)
   - dtodx3 * (emf1 (k + 1)%Z j i - emf1 k j i))%R.

Definition ct_B3i (k j i : Z) : R :=
  (dtodx2 * (emf1 k (j + 1)%Z i - emf1 k j i)
   - dtodx1 * (emf2 k j (i + 1)%Z - emf2 k j i))%R.

(** Step 11 of [integrate_3d_vl], the loop nest after the three calls:
    "update the interface magnetic fields using CT for a full time
    step". *)
Definition integrate_3d_vl_step11 : Grid :=
  let g1 :=
    for_loop (kb + 1) (kt - 1) (fun k g =>
      let g :=
        for_loop (jb + 1) (jt - 1) (fun j g =>
          let g :=
            for_loop (ib + 1) (it - 1) (fun i g =>
              let g := add_B1i g k j i (ct_B1i k j i) in
              let g := add_B2i g k j i (ct_B2i k j i) in
              add_B3i g k j i (ct_B3i k j i)) g in
          add_B1i g k j it (ct_B1i k j it)) g in
      for_loop (ib + 1) (it - 1) (fun i g =>
        add_B2i g k jt i (ct_B2i k jt i)) g) pGrid in
  for_loop (jb + 1) (jt - 1) (fun j g =>
    for_loop (ib + 1) (it - 1) (fun i g =>
      add_B3i g kt j i (ct_B3i kt j i)) g) g1.

End Step11.

Section CornerEmf.

(** The face fluxes and the cell-centred reference EMFs (file-scope
    scratch arrays of [integrate_3d_vl.c]). *)
Variables x1Flux x2Flux x3Flux : arr3 Cons1D.
Variables emf1_cc emf2_cc emf3_cc : arr3 R.

Local Open Scope R_scope.

(** *** [integrate_emf1_corner] *)

Definition de1_l3 (k j i : Z) : R :=
  if Rgt_dec (Cons1D.d (x2Flux (k - 1)%Z j i)) 0 then
    Cons1D.Bz (x3Flux k (j - 1)%Z i) - emf1_cc (k - 1)%Z (j - 1)%Z i
  else if Rlt_dec (Cons1D.d (x2Flux (k - 1)%Z j i)) 0 then
    Cons1D.Bz (x3Flux k j i) - emf1_cc (k - 1)%Z j i
  else
    0.5 * (Cons1D.Bz (x3Flux k (j - 1)%Z i) - emf1_cc (k - 1)%Z (j - 1)%Z i
           + Cons1D.Bz (x3Flux k j i) - emf1_cc (k - 1)%Z j i).

Definition de1_r3 (k j i : Z) : R :=
  if Rgt_dec (Cons1D.d (x2Flux k j i)) 0 then
    Cons1D.Bz (x3Flux k (j - 1)%Z i) - emf1_cc k (j - 1)%Z i
  else if Rlt_dec (Cons1D.d (x2Flux k j i)) 0 then
    Cons1D.Bz (x3Flux k j i) - emf1_cc k j i
  else
    0.5 * (Cons1D.Bz (x3Flux k (j - 1)%Z i) - emf1_cc k (j - 1)%Z i
           + Cons1D.Bz (x3Flux k j i) - emf1_cc k j i).

Definition de1_l2 (k j i : Z) : R :=
  if Rgt_dec (Cons1D.d (x3Flux k (j - 1)%Z i)) 0 then
    - Cons1D.By (x2Flux (k - 1)%Z j i) - emf1_cc (k - 1)%Z (j - 1)%Z i
  else if Rlt_dec (Cons1D.d (x3Flux k (j - 1)%Z i)) 0 then
    - Cons1D.By (x2Flux k j i) - emf1_cc k (j - 1)%Z i
  else
    0.5 * (- Cons1D.By (x2Flux (k - 1)%Z j i) - emf1_cc (k - 1)%Z (j - 1)%Z i
           - Cons1D.By (x2Flux k j i) - emf1_cc k (j - 1)%Z i).

Definition de1_r2 (k j i : Z) : R :=
  if Rgt_dec (Cons1D.d (x3Flux k j i)) 0 then
    - Cons1D.By (x2Flux (k - 1)%Z j i) - emf1_cc (k - 1)%Z j i
  else if Rlt_dec (Cons1D.d (x3Flux k j i)) 0 then
    - Cons1D.By (x2Flux k j i) - emf1_cc k j i
  else
    0.5 * (- Cons1D.By (x2Flux (k - 1)%Z j i) - emf1_cc (k - 1)%Z j i
           - Cons1D.By (x2Flux k j i) - emf1_cc k j i).

(** The value stored into [emf1[k][j][i]]. *)
Definition emf1_corner (k j i : Z) : R :=
  0.25 * (Cons1D.Bz (x3Flux k j i) + Cons1D.Bz (x3Flux k (j - 1)%Z i)
          - Cons1D.By (x2Flux k j i) - Cons1D.By (x2Flux (k - 1)%Z j i)
          + de1_l2 k j i + de1_r2 k j i + de1_l3 k j i + de1_r3 k j i).

Definition integrate_emf1_corner (emf1 : arr3 R) : arr3 R :=
  for_loop (kl + 1)%Z ku (fun k emf1 =>
    for_loop (jl + 1)%Z ju (fun j emf1 =>
      for_loop (il + 1)%Z (iu - 1)%Z (fun i emf1 =>
        arr3_set emf1 k j i (emf1_corner k j i)) emf1) emf1) emf1.

(** *** [integrate_emf2_corner] *)

Definition de2_l3 (k j i : Z) : R :=
  if Rgt_dec (Cons1D.d (x1Flux (k - 1)%Z j i)) 0 then
    - Cons1D.By (x3Flux k j (i - 1)%Z) - emf2_cc (k - 1)%Z j (i - 1)%Z
  else if Rlt_dec (Cons1D.d (x1Flux (k - 1)%Z j i)) 0 then
    - Cons1D.By (x3Flux k j i) - emf2_cc (k - 1)%Z j i
  else
    0.5 * (- Cons1D.By (x3Flux k j (i - 1)%Z) - emf2_cc (k - 1)%Z j (i - 1)%Z
           - Cons1D.By (x3Flux k j i) - emf2_cc (k - 1)%Z j i).

Definition de2_r3 (k j i : Z) : R :=
  if Rgt_dec (Cons1D.d (x1Flux k j i)) 0 then
    - Cons1D.By (x3Flux k j (i - 1)%Z) - emf2_cc k j (i - 1)%Z
  else if Rlt_dec (Cons1D.d (x1Flux k j i)) 0 then
    - Cons1D.By (x3Flux k j i) - emf2_cc k j i
  else
    0.5 * (- Cons1D.By (x3Flux k j (i - 1)%Z) - emf2_cc k j (i - 1)%Z
           - Cons1D.By (x3Flux k j i) - emf2_cc k j i).

Definition de2_l1 (k j i : Z) : R :=
  if Rgt_dec (Cons1D.d (x3Flux k j (i - 1)%Z)) 0 then
    Cons1D.Bz (x1Flux (k - 1)%Z j i) - emf2_cc (k - 1)%Z j (i - 1)%Z
  else if Rlt_dec (Cons1D.d (x3Flux k j (i - 1)%Z)) 0 then
    Cons1D.Bz (x1Flux k j i) - emf2_cc k j (i - 1)%Z
  else
    0.5 * (Cons1D.Bz (x1Flux (k - 1)%Z j i) - emf2_cc (k - 1)%Z j (i - 1)%Z
           + Cons1D.Bz (x1Flux k j i) - emf2_cc k j (i - 1)%Z).

Definition de2_r1 (k j i : Z) : R :=
  if Rgt_dec (Cons1D.d (x3Flux k j i)) 0 then
    Cons1D.Bz (x1Flux (k - 1)%Z j i) - emf2_cc (k - 1)%Z j i
  else if Rlt_dec (Cons1D.d (x3Flux k j i)) 0 then
    Cons1D.Bz (x1Flux k j i) - emf2_cc k j i
  else
    0.5 * (Cons1D.Bz (x1Flux (k - 1)%Z j i) - emf2_cc (k - 1)%Z j i
           + Cons1D.Bz (x1Flux k j i) - emf2_cc (k - 1)%Z j i).

(** The value stored into [emf2[k][j][i]]. *)
Definition emf2_corner (k j i : Z) : R :=
  0.25 * (Cons1D.Bz (x1Flux k j i) + Cons1D.Bz (x1Flux (k - 1)%Z j i)
          - Cons1D.By (x3Flux k j i) - Cons1D.By (x3Flux k j (i - 1)%Z)
          + de2_l1 k j i + de2_r1 k j i + de2_l3 k j i + de2_r3 k j i).

Definition integrate_emf2_corner (emf2 : arr3 R) : arr3 R :=
  for_loop (kl + 1)%Z ku (fun k emf2 =>
    for_loop (jl + 1)%Z (ju - 1)%Z (fun j emf2 =>
      for_loop (il + 1)%Z iu (fun i emf2 =>
        arr3_set emf2 k j i (emf2_corner k j i)) emf2) emf2) emf2.

(** *** [integrate_emf3_corner] *)

Definition de3_l2 (k j i : Z) : R :=
  if Rgt_dec (Cons1D.d (x1Flux k (j - 1)%Z i)) 0 then
    Cons1D.Bz (x2Flux k j (i - 1)%Z) - emf3_cc k (j - 1)%Z (i - 1)%Z
  else if Rlt_dec (Cons1D.d (x1Flux k (j - 1)%Z i)) 0 then
    Cons1D.Bz (x2Flux k j i) - emf3_cc k (j - 1)%Z i
  else
    0.5 * (Cons1D.Bz (x2Flux k j (i - 1)%Z) - emf3_cc k (j - 1)%Z (i - 1)%Z
           + Cons1D.Bz (x2Flux k j i) - emf3_cc k (j - 1)%Z i).

Definition de3_r2 (k j i : Z) : R :=
  if Rgt_dec (Cons1D.d (x1Flux k j i)) 0 then
    Cons1D.Bz (x2Flux k j (i - 1)%Z) - emf3_cc k j (i - 1)%Z
  else if Rlt_dec (Cons1D.d (x1Flux k j i)) 0 then
    Cons1D.Bz (x2Flux k j i) - emf3_cc k j i
  else
    0.5 * (Cons1D.Bz (x2Flux k j (i - 1)%Z) - emf3_cc k j (i - 1)%Z
           + Cons1D.Bz (x2Flux k j i) - emf3_cc k j i).

Definition de3_l1 (k j i : Z) : R :=
  if Rgt_dec (Cons1D.d (x2Flux k j (i - 1)%Z)) 0 then
    - Cons1D.By (x1Flux k (j - 1)%Z i) - emf3_cc k (j - 1)%Z (i - 1)%Z
  else if Rlt_dec (Cons1D.d (x2Flux k j (i - 1)%Z)) 0 then
    - Cons1D.By (x1Flux k j i) - emf3_cc k j (i - 1)%Z
  else
    0.5 * (- Cons1D.By (x1Flux k (j - 1)%Z i) - emf3_cc k (j - 1)%Z (i - 1)%Z
           - Cons1D.By (x1Flux k j i) - emf3_cc k j (i - 1)%Z).

Definition de3_r1 (k j i : Z) : R :=
  if Rgt_dec (Cons1D.d (x2Flux k j i)) 0 then
    - Cons1D.By (x1Flux k (j - 1)%Z i) - emf3_cc k (j - 1)%Z i
  else if Rlt_dec (Cons1D.d (x2Flux k j i)) 0 then
    - Cons1D.By (x1Flux k j i) - emf3_cc k j i
  else
    0.5 * (- Cons1D.By (x1Flux k (j - 1)%Z i) - emf3_cc k (j - 1)%Z i
           - Cons1D.By (x1Flux k j i) - emf3_cc k j i).

(** The value stored into [emf3[k][j][i]]. *)
Definition emf3_corner (k j i : Z) : R :=
  0.25 * (Cons1D.Bz (x2Flux k j (i - 1)%Z) + Cons1D.Bz (x2Flux k j i)
          - Cons1D.By (x1Flux k (j - 1)%Z i) - Cons1D.By (x1Flux k j i)
          + de3_l1 k j i + de3_r1 k j i + de3_l2 k j i + de3_r2 k j i).

Definition integrate_emf3_corner (emf3 : arr3 R) : arr3 R :=
  for_loop (kl + 1)%Z (ku - 1)%Z (fun k emf3 =>
    for_loop (jl + 1)%Z ju (fun j emf3 =>
      for_loop (il + 1)%Z iu (fun i emf3 =>
        arr3_set emf3 k j i (emf3_corner k j i)) emf3) emf3) emf3.

End CornerEmf.

Definition in_range (lo hi x : Z) : bool := (lo <=? x) && (x <=? hi).

(** The faces that the loop nest of Step 11 writes, read off its bounds. *)
Definition advanced_B1i (k j i : Z) : bool :=
  in_range (kb + 1) (kt - 1) k && in_range (jb + 1) (jt - 1) j
  && (in_range (ib + 1) (it - 1) i || (i =? it)).

Definition advanced_B2i (k j i : Z) : bool :=
  in_range (kb + 1) (kt - 1) k && in_range (ib + 1) (it - 1) i
  && (in_range (jb + 1) (jt - 1) j || (j =? jt)).

Definition advanced_B3i (k j i : Z) : bool :=
  in_range (jb + 1) (jt - 1) j && in_range (ib + 1) (it - 1) i
  && (in_range (kb + 1) (kt - 1) k || (k =? kt)).

(** All six faces that bound cell [(k,j,i)] are written by Step 11. *)
Definition cell_advanced (k j i : Z) : bool :=
  advanced_B1i k j i && advanced_B1i k j (i + 1)
  && advanced_B2i k j i && advanced_B2i k (j + 1) i
  && advanced_B3i k j i && advanced_B3i (k + 1) j i.

End Integrate3dVl.

(** ** The 3-D state vectors of [athena.h] and [Cons_to_Prim] *)

Module Gas.
(** conserved variables = (d,M1,M2,M3,[E],[B1c,B2c,B3c],[s(n)]) *)
Record t : Type := mk
  { d : R; M1 : R; M2 : R; M3 : R; E : R;
    B1c : R; B2c : R; B3c : R; s : list R }.
End Gas.

Module Prim.
(** primitive variables = (d,V1,V2,V3,[P],[B1c,B2c,B3c],[r(n)]) *)
Record t : Type := mk
  { d : R; V1 : R; V2 : R; V3 : R; P : R;
    B1c : R; B2c : R; B3c : R; r : list R }.
End Prim.

Abbreviation Gas := Gas.t.
Abbreviation Prim := Prim.t.

Section ConvertVarGas.

Variable MHD : bool.
Variable ISOTHERMAL : bool.
Variable NSCALARS : nat.
Variable Gamma : R.
Variable TINY_NUMBER : R.

(** [Prim Cons_to_Prim(const Gas *pGas)].  The second argument stands for
    the local [pPrim] before any member is assigned, the result is the value
    returned. *)
Definition Cons_to_Prim (pGas : Gas) (pPrim : Prim) : Prim :=
  let di := 1 / Gas.d pGas in
  let P0 := Gas.E pGas
            - 0.5 * (SQR (Gas.M1 pGas) + SQR (Gas.M2 pGas) + SQR (Gas.M3 pGas)) * di in
  let P1 := if MHD
            then P0 - 0.5 * (SQR (Gas.B1c pGas) + SQR (Gas.B2c pGas) + SQR (Gas.B3c pGas))
            else P0 in
  let P2 := P1 * Gamma_1 Gamma in
  let P3 := MAX P2 TINY_NUMBER in
  Prim.mk
    (Gas.d pGas)
    (Gas.M1 pGas * di)
    (Gas.M2 pGas * di)
    (Gas.M3 pGas * di)
    (if ISOTHERMAL then Prim.P pPrim else P3)
    (if MHD then Gas.B1c pGas else Prim.B1c pPrim)
    (if MHD then Gas.B2c pGas else Prim.B2c pPrim)
    (if MHD then Gas.B3c pGas else Prim.B3c pPrim)
    (scalar_loop NSCALARS (fun n => get_nth n (Gas.s pGas) * di) (Prim.r pPrim)).

(** *** The 1-D strips of Step 7 of [integrate_3d_vl] *)

(** Step 7a, the assignments to [U1d[i]] from the cell [Uhalf[k][j][i]]:
    "U1d = (d, M1, M2, M3, E, B2c, B3c)".  The second argument is [U1d[i]]
    before the assignments. *)
Definition step7a_U1d (U : Gas) (U1d : Cons1D) : Cons1D :=
  Cons1D.mk
    (Gas.d U) (Gas.M1 U) (Gas.M2 U) (Gas.M3 U)
    (if ISOTHERMAL then Cons1D.E U1d else Gas.E U)
    (if MHD then Gas.B2c U else Cons1D.By U1d)
    (if MHD then Gas.B3c U else Cons1D.Bz U1d)
    (scalar_loop NSCALARS (fun n => get_nth n (Gas.s U)) (Cons1D.s U1d)).

(** Step 7a, [Bxc[i] = Uhalf[k][j][i].B1c]. *)
Definition step7a_Bxc (U : Gas) : R := Gas.B1c U.

(** Step 7b: "U1d = (d, M2, M3, M1, E, B3c, B1c)". *)
Definition step7b_U1d (U : Gas) (U1d : Cons1D) : Cons1D :=
  Cons1D.mk
    (Gas.d U) (Gas.M2 U) (Gas.M3 U) (Gas.M1 U)
    (if ISOTHERMAL then Cons1D.E U1d else Gas.E U)
    (if MHD then Gas.B3c U else Cons1D.By U1d)
    (if MHD then Gas.B1c U else Cons1D.Bz U1d)
    (scalar_loop NSCALARS (fun n => get_nth n (Gas.s U)) (Cons1D.s U1d)).

(** Step 7b, [Bxc[j] = Uhalf[k][j][i].B2c]. *)
Definition step7b_Bxc (U : Gas) : R := Gas.B2c U.

(** Step 7c: "U1d = (d, M3, M1, M2, E, B1c, B2c)". *)
Definition step7c_U1d (U : Gas) (U1d : Cons1D) : Cons1D :=
  Cons1D.mk
    (Gas.d U) (Gas.M3 U) (Gas.M1 U) (Gas.M2 U)
    (if ISOTHERMAL then Cons1D.E U1d else Gas.E U)
    (if MHD then Gas.B1c U else Cons1D.By U1d)
    (if MHD then Gas.B2c U else Cons1D.Bz U1d)
    (scalar_loop NSCALARS (fun n => get_nth n (Gas.s U)) (Cons1D.s U1d)).

(** Step 7c, [Bxc[k] = Uhalf[k][j][i].B3c]. *)
Definition step7c_Bxc (U : Gas) : R := Gas.B3c U.

(** A [Gas] or [Prim] holds [NSCALARS] passive scalars. *)
Definition wf_Gas (U : Gas) : Prop := length (Gas.s U) = NSCALARS.
Definition wf_Prim (W : Prim) : Prop := length (Prim.r W) = NSCALARS.

End ConvertVarGas.

(** ** More of [integrate_3d_vl]: reference EMFs, predictor CT, hydro updates *)

Module EmfCC.
(** The cell-centred reference EMFs [emf1_cc], [emf2_cc], [emf3_cc]. *)
Record t : Type := mk
  { emf1_cc : arr3 R; emf2_cc : arr3 R; emf3_cc : arr3 R }.
End EmfCC.

Module Faces.
(** The predictor face fields [B1_x1Face], [B2_x2Face], [B3_x3Face]. *)
Record t : Type := mk
  { B1_x1Face : arr3 R; B2_x2Face : arr3 R; B3_x3Face : arr3 R }.
End Faces.

(** The three assignments to [emf1_cc[k][j][i]], [emf2_cc[k][j][i]] and
    [emf3_cc[k][j][i]] of Step 4 and Step 10, from the cell [U]. *)
Definition emf_cc_cell (U : Gas) (cc : EmfCC.t) (k j i : Z) : EmfCC.t :=
  let d := Gas.d U in
  let M1 := Gas.M1 U in
  let M2 := Gas.M2 U in
  let M3 := Gas.M3 U in
  let B1c := Gas.B1c U in
  let B2c := Gas.B2c U in
  let B3c := Gas.B3c U in
  EmfCC.mk
    (arr3_set (EmfCC.emf1_cc cc) k j i ((B2c * M3 - B3c * M2) / d))
    (arr3_set (EmfCC.emf2_cc cc) k j i ((B3c * M1 - B1c * M3) / d))
    (arr3_set (EmfCC.emf3_cc cc) k j i ((B1c * M2 - B2c * M1) / d)).

(** [B1_x1Face[k][j][i] += v] and its two siblings. *)
Definition add_B1_x1Face (f : Faces.t) (k j i : Z) (v : R) : Faces.t :=
  Faces.mk (arr3_add (Faces.B1_x1Face f) k j i v)
           (Faces.B2_x2Face f) (Faces.B3_x3Face f).

Definition add_B2_x2Face (f : Faces.t) (k j i : Z) (v : R) : Faces.t :=
  Faces.mk (Faces.B1_x1Face f)
           (arr3_add (Faces.B2_x2Face f) k j i v) (Faces.B3_x3Face f).

Definition add_B3_x3Face (f : Faces.t) (k j i : Z) (v : R) : Faces.t :=
  Faces.mk (Faces.B1_x1Face f) (Faces.B2_x2Face f)
           (arr3_add (Faces.B3_x3Face f) k j i v).

(** The discrete divergence of the predictor face field over a cell. *)
Definition divB_Faces (pGrid : Grid) (f : Faces.t) (k j i : Z) : R :=
  (Faces.B1_x1Face f k j (i + 1)%Z - Faces.B1_x1Face f k j i) / dx1 pGrid
  + (Faces.B2_x2Face f k (j + 1)%Z i - Faces.B2_x2Face f k j i) / dx2 pGrid
  + (Faces.B3_x3Face f (k + 1)%Z j i - Faces.B3_x3Face f k j i) / dx3 pGrid.

(** The three assignments [U.B1c = 0.5*(B1[k][j][i] + B1[k][j][i+1])], ...
    of Step 5 and Step 15 on one cell. *)
Definition cell_centered_B (U : Gas) (B1 B2 B3 : arr3 R) (k j i : Z) : Gas :=
  Gas.mk (Gas.d U) (Gas.M1 U) (Gas.M2 U) (Gas.M3 U) (Gas.E U)
         (0.5 * (B1 k j i + B1 k j (i + 1)%Z))
         (0.5 * (B2 k j i + B2 k (j + 1)%Z i))
         (0.5 * (B3 k j i + B3 (k + 1)%Z j i))
         (Gas.s U).

Section HydroCells.

Variable ISOTHERMAL : bool.
Variable NSCALARS : nat.

(** The [-=] of Step 6a and Step 13a on one cell: [q] is the coefficient
    ([0.5*dtodx1] or [dtodx1]), [Fl] and [Fr] are [x1Flux[k][j][i]] and
    [x1Flux[k][j][i+1]]. *)
Definition hydro_x1_cell (q : R) (U : Gas) (Fl Fr : Cons1D) : Gas :=
  Gas.mk
    (Gas.d U - q * (Cons1D.d Fr - Cons1D.d Fl))
    (Gas.M1 U - q * (Cons1D.Mx Fr - Cons1D.Mx Fl))
    (Gas.M2 U - q * (Cons1D.My Fr - Cons1D.My Fl))
    (Gas.M3 U - q * (Cons1D.Mz Fr - Cons1D.Mz Fl))
    (if ISOTHERMAL then Gas.E U else Gas.E U - q * (Cons1D.E Fr - Cons1D.E Fl))
    (Gas.B1c U) (Gas.B2c U) (Gas.B3c U)
    (scalar_loop NSCALARS
       (fun n => get_nth n (Gas.s U)
                 - q * (get_nth n (Cons1D.s Fr) - get_nth n (Cons1D.s Fl)))
       (Gas.s U)).

(** Step 6b and Step 13b: [Fl], [Fr] are [x2Flux[k][j][i]] and
    [x2Flux[k][j+1][i]]; [M1] takes [Mz], [M2] takes [Mx], [M3] takes
    [My]. *)
Definition hydro_x2_cell (q : R) (U : Gas) (Fl Fr : Cons1D) : Gas :=
  Gas.mk
    (Gas.d U - q * (Cons1D.d Fr - Cons1D.d Fl))
    (Gas.M1 U - q * (Cons1D.Mz Fr - Cons1D.Mz Fl))
    (Gas.M2 U - q * (Cons1D.Mx Fr - Cons1D.Mx Fl))
    (Gas.M3 U - q * (Cons1D.My Fr - Cons1D.My Fl))
    (if ISOTHERMAL then Gas.E U else Gas.E U - q * (Cons1D.E Fr - Cons1D.E Fl))
    (Gas.B1c U) (Gas.B2c U) (Gas.B3c U)
    (scalar_loop NSCALARS
       (fun n => get_nth n (Gas.s U)
                 - q * (get_nth n (Cons1D.s Fr) - get_nth n (Cons1D.s Fl)))
       (Gas.s U)).

(** Step 6c and Step 13c: [Fl], [Fr] are [x3Flux[k][j][i]] and
    [x3Flux[k+1][j][i]]; [M1] takes [My], [M2] takes [Mz], [M3] takes
    [Mx]. *)
Definition hydro_x3_cell (q : R) (U : Gas) (Fl Fr : Cons1D) : Gas :=
  Gas.mk
    (Gas.d U - q * (Cons1D.d Fr - Cons1D.d Fl))
    (Gas.M1 U - q * (Cons1D.My Fr - Cons1D.My Fl))
    (Gas.M2 U - q * (Cons1D.Mz Fr - Cons1D.Mz Fl))
    (Gas.M3 U - q * (Cons1D.Mx Fr - Cons1D.Mx Fl))
    (if ISOTHERMAL then Gas.E U else Gas.E U - q * (Cons1D.E Fr - Cons1D.E Fl))
    (Gas.B1c U) (Gas.B2c U) (Gas.B3c U)
    (scalar_loop NSCALARS
       (fun n => get_nth n (Gas.s U)
                 - q * (get_nth n (Cons1D.s Fr) - get_nth n (Cons1D.s Fl)))
       (Gas.s U)).

End HydroCells.

(** [sum_{i=lo}^{hi} f i], the total of a quantity over a range of cells. *)
Definition sum_range (lo hi : Z) (f : Z -> R) : R :=
  for_loop lo hi (fun i acc => acc + f i) 0.

Section Integrate3dVlSteps.

Local Open Scope Z_scope.

Variable nghost : Z.
Variable order : Order.
Variable ISOTHERMAL : bool.
Variable NSCALARS : nat.
Variable pGrid : Grid.

Local Abbreviation il := (il nghost pGrid).
Local Abbreviation iu := (iu nghost pGrid).
Local Abbreviation jl := (jl nghost pGrid).
Local Abbreviation ju := (ju nghost pGrid).
Local Abbreviation kl := (kl nghost pGrid).
Local Abbreviation ku := (ku nghost pGrid).
Local Abbreviation ib := (ib nghost order pGrid).
Local Abbreviation it := (it nghost order pGrid).
Local Abbreviation jb := (jb nghost order pGrid).
Local Abbreviation jt := (jt nghost order pGrid).
Local Abbreviation kb := (kb nghost order pGrid).
Local Abbreviation kt := (kt nghost order pGrid).
Local Abbreviation dtodx1 := (dtodx1 pGrid).
Local Abbreviation dtodx2 := (dtodx2 pGrid).
Local Abbreviation dtodx3 := (dtodx3 pGrid).

(** Step 4, the loop nest that fills the reference EMFs from [pGrid->U]
    "at t^{n}". *)
Definition integrate_3d_vl_step4_cc (U : arr3 Gas) (cc : EmfCC.t) : EmfCC.t :=
  for_loop kl ku (fun k cc =>
    for_loop jl ju (fun j cc =>
      for_loop il iu (fun i cc =>
        emf_cc_cell (U k j i) cc k j i) cc) cc) cc.


Section Step5.

Variables emf1 emf2 emf3 : arr3 R.

Definition q1 : R := (0.5 * dtodx1)%R.
Definition q2 : R := (0.5 * dtodx2)%R.
Definition q3 : R := (0.5 * dtodx3)%R.

(** Right-hand sides of the three [+=] of Step 5. *)
Definition ct_B1_x1Face (k j i : Z) : R :=
  (q3 * (emf2 (k + 1)%Z j i - emf2 k j i)
   - q2 * (emf3 k (j + 1)%Z i - emf3 k j i))%R.

Definition ct_B2_x2Face (k j i : Z) : R :=
  (q1 * (emf3 k j (i + 1)%Z - emf3 k j i)
   - q3 * (emf1 (k + 1)%Z j i - emf1 k j i))%R.

Definition ct_B3_x3Face (k j i : Z) : R :=
  (q2 * (emf1 k (j + 1)%Z i - emf1 k j i)
   - q1 * (emf2 k j (i + 1)%Z - emf2 k j i))%R.

(** Step 5, first loop nest: "Update the interface magnetic fields using CT
    for a half time step". *)
Definition integrate_3d_vl_step5_ct (f : Faces.t) : Faces.t :=
  let f1 :=
    for_loop (kl + 1) (ku - 1) (fun k f =>
      let f :=
        for_loop (jl + 1) (ju - 1) (fun j f =>
          let f :=
            for_loop (il + 1) (iu - 1) (fun i f =>
              let f := add_B1_x1Face f k j i (ct_B1_x1Face k j i) in
              let f := add_B2_x2Face f k j i (ct_B2_x2Face k j i) in
              add_B3_x3Face f k j i (ct_B3_x3Face k j i)) f in
          add_B1_x1Face f k j iu (ct_B1_x1Face k j iu)) f in
      for_loop (il + 1) (iu - 1) (fun i f =>
        add_B2_x2Face f k ju i (ct_B2_x2Face k ju i)) f) f in
  for_loop (jl + 1) (ju - 1) (fun j f =>
    for_loop (il + 1) (iu - 1) (fun i f =>
      add_B3_x3Face f ku j i (ct_B3_x3Face ku j i)) f) f1.

End Step5.

(** Step 5, second loop nest: "Compute cell-centered B at half timestep
    from face-centered fields". *)
Definition integrate_3d_vl_step5_cc (f : Faces.t) (Uhalf : arr3 Gas) : arr3 Gas :=
  for_loop (kl + 1) (ku - 1) (fun k Uhalf =>
    for_loop (jl + 1) (ju - 1) (fun j Uhalf =>
      for_loop (il + 1) (iu - 1) (fun i Uhalf =>
        arr3_set Uhalf k j i
          (cell_centered_B (Uhalf k j i) (Faces.B1_x1Face f)
             (Faces.B2_x2Face f) (Faces.B3_x3Face f) k j i)) Uhalf) Uhalf) Uhalf.

(** The faces that Step 5 writes, and the cells all of whose faces it
    writes. *)
Definition advanced_B1_x1Face (k j i : Z) : bool :=
  in_range (kl + 1) (ku - 1) k && in_range (jl + 1) (ju - 1) j
  && (in_range (il + 1) (iu - 1) i || (i =? iu)).

Definition advanced_B2_x2Face (k j i : Z) : bool :=
  in_range (kl + 1) (ku - 1) k && in_range (il + 1) (iu - 1) i
  && (in_range (jl + 1) (ju - 1) j || (j =? ju)).

Definition advanced_B3_x3Face (k j i : Z) : bool :=
  in_range (jl + 1) (ju - 1) j && in_range (il + 1) (iu - 1) i
  && (in_range (kl + 1) (ku - 1) k || (k =? ku)).

Definition cell_advanced_half (k j i : Z) : bool :=
  advanced_B1_x1Face k j i && advanced_B1_x1Face k j (i + 1)
  && advanced_B2_x2Face k j i && advanced_B2_x2Face k (j + 1) i
  && advanced_B3_x3Face k j i && advanced_B3_x3Face (k + 1) j i.

Section Hydro.

Variables x1Flux x2Flux x3Flux : arr3 Cons1D.

(** Step 6a, 6b, 6c: "Update HYDRO cell-centered variables to
    half-timestep" using the x1-, x2- and x3-fluxes. *)
Definition integrate_3d_vl_step6a (Uhalf : arr3 Gas) : arr3 Gas :=
  let q1 := (0.5 * dtodx1)%R in
  for_loop (kl + 1) (ku - 1) (fun k Uhalf =>
    for_loop (jl + 1) (ju - 1) (fun j Uhalf =>
      for_loop (il + 1) (iu - 1) (fun i Uhalf =>
        arr3_set Uhalf k j i
          (hydro_x1_cell ISOTHERMAL NSCALARS q1 (Uhalf k j i)
             (x1Flux k j i) (x1Flux k j (i + 1)%Z))) Uhalf) Uhalf) Uhalf.

Definition integrate_3d_vl_step6b (Uhalf : arr3 Gas) : arr3 Gas :=
  let q2 := (0.5 * dtodx2)%R in
  for_loop (kl + 1) (ku - 1) (fun k Uhalf =>
    for_loop (jl + 1) (ju - 1) (fun j Uhalf =>
      for_loop (il + 1) (iu - 1) (fun i Uhalf =>
        arr3_set Uhalf k j i
          (hydro_x2_cell ISOTHERMAL NSCALARS q2 (Uhalf k j i)
             (x2Flux k j i) (x2Flux k (j + 1)%Z i))) Uhalf) Uhalf) Uhalf.

Definition integrate_3d_vl_step6c (Uhalf : arr3 Gas) : arr3 Gas :=
  let q3 := (0.5 * dtodx3)%R in
  for_loop (kl + 1) (ku - 1) (fun k Uhalf =>
    for_loop (jl + 1) (ju - 1) (fun j Uhalf =>
      for_loop (il + 1) (iu - 1) (fun i Uhalf =>
        arr3_set Uhalf k j i
          (hydro_x3_cell ISOTHERMAL NSCALARS q3 (Uhalf k j i)
             (x3Flux k j i) (x3Flux (k + 1)%Z j i))) Uhalf) Uhalf) Uhalf.

(** Step 13a, 13b, 13c: "Update HYDRO cell-centered variables in pGrid"
    using the x1-, x2- and x3-fluxes; [U] is [pGrid->U]. *)
Definition integrate_3d_vl_step13a (U : arr3 Gas) : arr3 Gas :=
  for_loop (kb + 1) (kt - 1) (fun k U =>
    for_loop (jb + 1) (jt - 1) (fun j U =>
      for_loop (ib + 1) (it - 1) (fun i U =>
        arr3_set U k j i
          (hydro_x1_cell ISOTHERMAL NSCALARS dtodx1 (U k j i)
             (x1Flux k j i) (x1Flux k j (i + 1)%Z))) U) U) U.

Definition integrate_3d_vl_step13b (U : arr3 Gas) : arr3 Gas :=
  for_loop (kb + 1) (kt - 1) (fun k U =>
    for_loop (jb + 1) (jt - 1) (fun j U =>
      for_loop (ib + 1) (it - 1) (fun i U =>
        arr3_set U k j i
          (hydro_x2_cell ISOTHERMAL NSCALARS dtodx2 (U k j i)
             (x2Flux k j i) (x2Flux k (j + 1)%Z i))) U) U) U.

Definition integrate_3d_vl_step13c (U : arr3 Gas) : arr3 Gas :=
  for_loop (kb + 1) (kt - 1) (fun k U =>
    for_loop (jb + 1) (jt - 1) (fun j U =>
      for_loop (ib + 1) (it - 1) (fun i U =>
        arr3_set U k j i
          (hydro_x3_cell ISOTHERMAL NSCALARS dtodx3 (U k j i)
             (x3Flux k j i) (x3Flux (k + 1)%Z j i))) U) U) U.

(** Steps 13a to 13c in sequence. *)
Definition integrate_3d_vl_step13 (U : arr3 Gas) : arr3 Gas :=
  integrate_3d_vl_step13c (integrate_3d_vl_step13b (integrate_3d_vl_step13a U)).

(** Steps 6a to 6c in sequence. *)
Definition integrate_3d_vl_step6 (Uhalf : arr3 Gas) : arr3 Gas :=
  integrate_3d_vl_step6c (integrate_3d_vl_step6b (integrate_3d_vl_step6a Uhalf)).

End Hydro.

(** Step 15, "Set cell centered magnetic fields to average of updated face
    centered fields"; [U] is [pGrid->U]. *)
Definition integrate_3d_vl_step15 (U : arr3 Gas) : arr3 Gas :=
  for_loop (kb + 1) (kt - 1) (fun k U =>
    for_loop (jb + 1) (jt - 1) (fun j U =>
      for_loop (ib + 1) (it - 1) (fun i U =>
        arr3_set U k j i
          (cell_centered_B (U k j i) (B1i pGrid) (B2i pGrid) (B3i pGrid)
             k j i)) U) U) U.

(** Step 11 as a whole: the three calls that integrate the EMFs to the
    corners, then the CT update.  [emf1], [emf2], [emf3] are the corner
    arrays as the previous use left them. *)
Definition integrate_3d_vl_step11_mhd
    (x1Flux x2Flux x3Flux : arr3 Cons1D) (cc : EmfCC.t)
    (emf1 emf2 emf3 : arr3 R) : Grid :=
  let emf1 := integrate_emf1_corner nghost pGrid x2Flux x3Flux
                (EmfCC.emf1_cc cc) emf1 in
  let emf2 := integrate_emf2_corner nghost pGrid x1Flux x3Flux
                (EmfCC.emf2_cc cc) emf2 in
  let emf3 := integrate_emf3_corner nghost pGrid x1Flux x2Flux
                (EmfCC.emf3_cc cc) emf3 in
  integrate_3d_vl_step11 nghost order pGrid emf1 emf2 emf3.

End Integrate3dVlSteps.

(** ** [integrate_init_3d]: the ghost-zone check *)

(** What [integrate_init_3d] does before it allocates: [Init_ok], or the
    call of [ath_error] with the number of ghost zones it asks for. *)
Inductive InitResult : Type :=
| Init_ok
| Init_error (minghost : Z).

(** [int minghost]: 2, 3 or 4 by the order of reconstruction, then
    [minghost++] for [FIRST_ORDER_FLUX_CORRECTION], which the file defines;
    the increment for [H_CORRECTION] is excluded by the [#error] at the top
    of the file. *)
Definition integrate_init_3d_minghost (order : Order) : Z :=
  (match order with
   | FIRST_ORDER => 2
   | SECOND_ORDER => 3
   | THIRD_ORDER => 4
   end + 1)%Z.

(** [integrate_init_3d], the check [if (nghost < minghost) ath_error(...)];
    the allocations that follow have no counterpart here. *)
Definition integrate_init_3d (nghost : Z) (order : Order) : InitResult :=
  let minghost := integrate_init_3d_minghost order in
  if (nghost <? minghost)%Z then Init_error minghost else Init_ok.

(** ** Totals over a box of cells *)

(** The total of [u] over the cells [klo..khi] x [jlo..jhi] x [ilo..ihi]. *)
Definition box_total (klo khi jlo jhi ilo ihi : Z) (u : Z -> Z -> Z -> R) : R :=
  sum_range klo khi (fun k =>
    sum_range jlo jhi (fun j =>
      sum_range ilo ihi (fun i => u k j i))).

(** The flux [F] through the two x1 sides of the box, out minus in: the
    faces [ihi+1] and [ilo]; likewise for the x2 and x3 sides. *)
Definition box_side_x1 (klo khi jlo jhi ilo ihi : Z) (F : Z -> Z -> Z -> R) : R :=
  sum_range klo khi (fun k =>
    sum_range jlo jhi (fun j => F k j (ihi + 1)%Z - F k j ilo)).

Definition box_side_x2 (klo khi jlo jhi ilo ihi : Z) (F : Z -> Z -> Z -> R) : R :=
  sum_range klo khi (fun k =>
    sum_range ilo ihi (fun i => F k (jhi + 1)%Z i - F k jlo i)).

Definition box_side_x3 (klo khi jlo jhi ilo ihi : Z) (F : Z -> Z -> Z -> R) : R :=
  sum_range jlo jhi (fun j =>
    sum_range ilo ihi (fun i => F (khi + 1)%Z j i - F klo j i)).

(** ** [lr_states_prim1.c]: first-order reconstruction *)

(** [a[i] = v] for a 1-D array read as a function of its index. *)
Definition arr1_set {T : Type} (a : Z -> T) (i : Z) (v : T) : Z -> T :=
  fun i' => if (i =? i')%Z then v else a i'.

Module LrStatesPrim1.

(** [void lr_states(const Cons1D U1d[], const Real Bxc[], const Real Bxi[],
    const Real dt, const Real dtodx, const int is, const int ie,
    Cons1D Ul[], Cons1D Ur[])]; the result is the pair of [Ul] and [Ur] on
    return. *)
Definition lr_states (U1d : Z -> Cons1D) (Bxc Bxi : Z -> R) (dt dtodx : R)
    (is_ ie : Z) (Ul Ur : Z -> Cons1D) : (Z -> Cons1D) * (Z -> Cons1D) :=
  for_loop is_ (ie + 1)%Z (fun i UlUr =>
    let Ul := arr1_set (fst UlUr) i (U1d (i - 1)%Z) in
    let Ur := arr1_set (snd UlUr) i (U1d i) in
    (Ul, Ur)) (Ul, Ur).

End LrStatesPrim1.

(** ** [lr_states_plm.c]: piecewise-linear reconstruction *)

(** Modelled from the spec: the macro [MIN] lives in [defs.h];
    [MIN(a,b) = ((a) < (b) ? (a) : (b))]. *)
Definition MIN (a b : R) : R := if Rlt_dec a b then a else b.

(** Modelled from the spec: the macro [SIGN] lives in [defs.h];
    [SIGN(a) = ((a) < 0. ? -1. : 1.)]. *)
Definition SIGN (a : R) : R := if Rlt_dec a 0 then -1 else 1.

Module Esys.
(** What an eigensystem routine leaves in [ev], [rem] and [lem]. *)
Record t : Type := mk
  { ev : nat -> R; rem : nat -> nat -> R; lem : nat -> nat -> R }.
End Esys.

(** [v[m] += x] for a [Real] vector read as a function of its index. *)
Definition vec_add (v : nat -> R) (m : nat) (x : R) : nat -> R :=
  fun m' => if Nat.eqb m m' then v m' + x else v m'.

Module LrStatesPlm.

Section LrStates.

(** [NWAVE] and [NSCALARS] of [defs.h]; whether [THREED_VL] is defined;
    whether one of [HLLE_FLUX], [HLLC_FLUX], [HLLD_FLUX] is. *)
Variable NWAVE : nat.
Variable NSCALARS : nat.
Variable THREED_VL : bool.
Variable HLL_FLUX : bool.

(** The eigensystem routine selected by the configuration
    ([esys_prim_iso_hyd], [esys_prim_adb_hyd], [esys_prim_iso_mhd] or
    [esys_prim_adb_mhd], none of which is in the files at hand), as a
    function of the cell [W[i]] and of [Bxc[i]]; the entries of [rem] and
    [lem] it does not assign are the zeros stored at the top of
    [lr_states]. *)
Variable esys_prim : (nat -> R) -> R -> Esys.t.

(** [s = a0; for (m=1; m<NWAVE; m++) s += term(m);] *)
Definition accum_from1 (a0 : R) (term : nat -> R) : R :=
  fold_left (fun s m => s + term m) (seq 1 (NWAVE - 1)) a0.

(** [qa = 0.0; for (m=0; m<NWAVE; m++) qa += term(m);] *)
Definition accum_from0 (term : nat -> R) : R :=
  fold_left (fun s m => s + term m) (seq 0 NWAVE) 0.

Section Cell.

(** [pW[i][n]], the [n]-th [Real] of the struct [W[i]]
    (d, Vx, Vy, Vz, [P], [By, Bz], [r(n)]). *)
Variable pW : Z -> nat -> R.
Variable Bxc : Z -> R.
Variable dtodx : R.
Variable i : Z.

(** Step 1: the eigensystem of cell [i]. *)
Definition es : Esys.t := esys_prim (pW i) (Bxc i).

(** Step 2: centred, left, right and van Leer differences. *)
Definition dWc (n : nat) : R := pW (i + 1)%Z n - pW (i - 1)%Z n.
Definition dWl (n : nat) : R := pW i n - pW (i - 1)%Z n.
Definition dWr (n : nat) : R := pW (i + 1)%Z n - pW i n.
Definition dWg (n : nat) : R :=
  if Rgt_dec (dWl n * dWr n) 0
  then 2 * dWl n * dWr n / (dWl n + dWr n)
  else 0.

(** Step 3: projection on the left eigenvectors for [n < NWAVE], the
    identity for the advected variables. *)
Definition project (dW : nat -> R) (n : nat) : R :=
  if Nat.ltb n NWAVE
  then accum_from1 (Esys.lem es n 0 * dW 0%nat)
         (fun m => Esys.lem es n m * dW m)
  else dW n.

Definition dac : nat -> R := project dWc.
Definition dal : nat -> R := project dWl.
Definition dar : nat -> R := project dWr.
Definition dag : nat -> R := project dWg.

(** Step 4: the monotonicity constraint. *)
Definition da (n : nat) : R :=
  if Rgt_dec (dal n * dar n) 0 then
    let lim_slope1 := MIN (Rabs (dal n)) (Rabs (dar n)) in
    let lim_slope2 := MIN (0.5 * Rabs (dac n)) (Rabs (dag n)) in
    SIGN (dac n) * MIN (2 * lim_slope1) lim_slope2
  else 0.

(** Step 5: projection back on the right eigenvectors. *)
Definition dWm (n : nat) : R :=
  if Nat.ltb n NWAVE
  then accum_from1 (da 0%nat * Esys.rem es n 0)
         (fun m => da m * Esys.rem es n m)
  else da n.

(** Step 7: L/R values, kept between the neighbouring cell-centred
    values. *)
Definition Wlv (n : nat) : R :=
  let Wlv0 := pW i n - 0.5 * dWm n in
  let Wlv1 := MAX (MIN (pW i n) (pW (i - 1)%Z n)) Wlv0 in
  MIN (MAX (pW i n) (pW (i - 1)%Z n)) Wlv1.

Definition Wrv (n : nat) : R :=
  let Wrv0 := pW i n + 0.5 * dWm n in
  let Wrv1 := MAX (MIN (pW i n) (pW (i + 1)%Z n)) Wrv0 in
  MIN (MAX (pW i n) (pW (i + 1)%Z n)) Wrv1.

Definition dW (n : nat) : R := Wrv n - Wlv n.

(** Step 8: integration over the domain of dependence. *)
Definition pWl_step8 (n : nat) : R :=
  let qx := 0.5 * MAX (Esys.ev es (NWAVE - 1)) 0 * dtodx in
  Wrv n - qx * dW n.

Definition pWr_step8 (n : nat) : R :=
  let qx := - 0.5 * MIN (Esys.ev es 0%nat) 0 * dtodx in
  Wlv n + qx * dW n.

(** Step 9, compiled unless [THREED_VL] is defined. *)

(** [for (m=0; m<NWAVE; m++) v[m] += qa*rem[m][n];] *)
Definition add_wave (v : nat -> R) (qa : R) (n : nat) : nat -> R :=
  fold_left (fun v m => vec_add v m (qa * Esys.rem es m n)) (seq 0 NWAVE) v.

(** [for (m=0; m<NWAVE; m++) v[m] -= qa*rem[m][n];] *)
Definition sub_wave (v : nat -> R) (qa : R) (n : nat) : nat -> R :=
  fold_left (fun v m => vec_add v m (- (qa * Esys.rem es m n))) (seq 0 NWAVE) v.

(** The body of the first loop over [n]: waves with [ev[n] > 0.]. *)
Definition step9_right_going (lr : (nat -> R) * (nat -> R)) (n : nat) :
    (nat -> R) * (nat -> R) :=
  if Rgt_dec (Esys.ev es n) 0 then
    let qa := accum_from0 (fun m =>
                Esys.lem es n m * 0.5 * dtodx
                * (Esys.ev es (NWAVE - 1) - Esys.ev es n) * dW m) in
    let pWl := add_wave (fst lr) qa n in
    if HLL_FLUX then
      let qa := accum_from0 (fun m =>
                  Esys.lem es n m * 0.5 * dtodx
                  * (Esys.ev es n - Esys.ev es 0%nat) * dW m) in
      (pWl, sub_wave (snd lr) qa n)
    else (pWl, snd lr)
  else lr.

(** The body of the second loop over [n]: waves with [ev[n] < 0.]. *)
Definition step9_left_going (lr : (nat -> R) * (nat -> R)) (n : nat) :
    (nat -> R) * (nat -> R) :=
  if Rlt_dec (Esys.ev es n) 0 then
    let qa := accum_from0 (fun m =>
                Esys.lem es n m * 0.5 * dtodx
                * (Esys.ev es 0%nat - Esys.ev es n) * dW m) in
    let pWr := add_wave (snd lr) qa n in
    if HLL_FLUX then
      let qa := accum_from0 (fun m =>
                  Esys.lem es n m * 0.5 * dtodx
                  * (Esys.ev es n - Esys.ev es (NWAVE - 1)) * dW m) in
      (sub_wave (fst lr) qa n, pWr)
    else (fst lr, pWr)
  else lr.

(** The body of the loop over the advected quantities; [W[i].Vx] is
    [pW[i][1]]. *)
Definition step9_advected (lr : (nat -> R) * (nat -> R)) (n : nat) :
    (nat -> R) * (nat -> R) :=
  if Rgt_dec (pW i 1%nat) 0 then
    (vec_add (fst lr) n
       (0.5 * dtodx * (Esys.ev es (NWAVE - 1) - pW i 1%nat) * dW n), snd lr)
  else if Rlt_dec (pW i 1%nat) 0 then
    (fst lr, vec_add (snd lr) n
               (0.5 * dtodx * (Esys.ev es 0%nat - pW i 1%nat) * dW n))
  else lr.

Definition step9 (lr : (nat -> R) * (nat -> R)) : (nat -> R) * (nat -> R) :=
  let lr := fold_left step9_right_going (seq 0 NWAVE) lr in
  let lr := fold_left step9_left_going (seq 0 NWAVE) lr in
  fold_left step9_advected (seq NWAVE NSCALARS) lr.

(** [pWl] and [pWr] at the end of the iteration [i]. *)
Definition pWl_pWr : (nat -> R) * (nat -> R) :=
  if THREED_VL then (pWl_step8, pWr_step8)
  else step9 (pWl_step8, pWr_step8).

End Cell.

(** The stores through [pWl], which points to [Wl[i+1]], or [pWr], which
    points to [Wr[i]]: the first [NWAVE+NSCALARS] reals of the struct at
    index [x] take the values [v]. *)
Definition row_set (A : Z -> nat -> R) (x : Z) (v : nat -> R) : Z -> nat -> R :=
  fun x' n =>
    if (x =? x')%Z && Nat.ltb n (NWAVE + NSCALARS) then v n else A x' n.

(** [void lr_states(const Prim1D W[], const Real Bxc[], const Real dt,
    const Real dtodx, const int il, const int iu, Prim1D Wl[], Prim1D Wr[])];
    [pW] is [W] seen through the pointers set up before the big loop, the
    result the pair of [Wl] and [Wr] on return. *)
Definition lr_states (pW : Z -> nat -> R) (Bxc : Z -> R) (dt dtodx : R)
    (il iu : Z) (Wl Wr : Z -> nat -> R) : (Z -> nat -> R) * (Z -> nat -> R) :=
  for_loop (il - 1)%Z (iu + 1)%Z (fun i WlWr =>
    let lr := pWl_pWr pW Bxc dtodx i in
    (row_set (fst WlWr) (i + 1)%Z (fst lr), row_set (snd WlWr) i (snd lr)))
    (Wl, Wr).

End LrStates.

End LrStatesPlm.

(** ** [first_order_correction] (Step 13d) *)

(** The flags of the anonymous [enum] that goes with [Ineg]. *)
Definition correct_hydro_x1 : Z := 1.
Definition correct_hydro_x2 : Z := 2.
Definition correct_hydro_x3 : Z := 4.
Definition correct_mhd_x1 : Z := 8.
Definition correct_mhd_x2 : Z := 16.
Definition correct_mhd_x3 : Z := 32.
Definition correct_hydro_all : Z := 7.
Definition correct_mhd_all : Z := 56.

(** [a[k][j][i] |= f]; the flags stay below 64, so the [char] cells of
    [Ineg] hold them exactly. *)
Definition arr3_or (a : arr3 Z) (k j i f : Z) : arr3 Z :=
  arr3_set a k j i (Z.lor (a k j i) f).

(** A run of statements [a[k][j][i] |= f], given as the list of their
    [(k, j, i, f)] in the order of the text. *)
Definition arr3_or_list (a : arr3 Z) (l : list (Z * Z * Z * Z)) : arr3 Z :=
  fold_left (fun a '(k, j, i, f) => arr3_or a k j i f) l a.

(** The C condition [a[k][j][i] & f]. *)
Definition flag_set (a : arr3 Z) (k j i f : Z) : bool :=
  negb (Z.land (a k j i) f =? 0)%Z.

(** [a[k][j][i] -= v] *)
Definition arr3_sub (a : arr3 R) (k j i : Z) (v : R) : arr3 R :=
  arr3_set a k j i (a k j i - v).

(** [pGrid->B1i[k][j][i] -= v] and its two siblings. *)
Definition sub_B1i (g : Grid) (k j i : Z) (v : R) : Grid :=
  with_B1i g (arr3_sub (B1i g) k j i v).

Definition sub_B2i (g : Grid) (k j i : Z) (v : R) : Grid :=
  with_B2i g (arr3_sub (B2i g) k j i v).

Definition sub_B3i (g : Grid) (k j i : Z) (v : R) : Grid :=
  with_B3i g (arr3_sub (B3i g) k j i v).

Module FaceWork.
(** The first-order L/R states and the fluxes that the correction
    rewrites. *)
Record t : Type := mk
  { Ul_x1Face : arr3 Cons1D; Ur_x1Face : arr3 Cons1D; x1Flux : arr3 Cons1D;
    Ul_x2Face : arr3 Cons1D; Ur_x2Face : arr3 Cons1D; x2Flux : arr3 Cons1D;
    Ul_x3Face : arr3 Cons1D; Ur_x3Face : arr3 Cons1D; x3Flux : arr3 Cons1D }.
End FaceWork.

Module Work.
(** What [first_order_correction] reads and writes: [pGrid] (the face
    fields in [grid], the cells in [U]) and the arrays that are static in
    the file. *)
Record t : Type := mk
  { grid : Grid; U : arr3 Gas; Ineg : arr3 Z;
    faces : FaceWork.t;
    emf1 : arr3 R; emf2 : arr3 R; emf3 : arr3 R }.
End Work.

(** How [first_order_correction] ends: it returns, or it calls
    [ath_error("Negative densities persist.\n")]. *)
Inductive FocResult : Type :=
| Foc_return (w : Work.t)
| Foc_ath_error (w : Work.t).

Section FirstOrderCorrection.

Local Open Scope Z_scope.

Variable nghost : Z.
Variable order : Order.
Variable MHD : bool.
Variable ISOTHERMAL : bool.

(** The Riemann solver behind the macro [GET_FLUXES] (its definition and
    the solvers are not in the files at hand), called as
    [GET_FLUXES(Bxi,Ul,Ur,&flux)]: a function of the three inputs and of
    what [flux] held before. *)
Variable GET_FLUXES : R -> Cons1D -> Cons1D -> Cons1D -> Cons1D.

Variable pGrid : Grid.

Local Abbreviation ib := (ib nghost order pGrid).
Local Abbreviation it := (it nghost order pGrid).
Local Abbreviation jb := (jb nghost order pGrid).
Local Abbreviation jt := (jt nghost order pGrid).
Local Abbreviation kb := (kb nghost order pGrid).
Local Abbreviation kt := (kt nghost order pGrid).
Local Abbreviation dtodx1 := (dtodx1 pGrid).
Local Abbreviation dtodx2 := (dtodx2 pGrid).
Local Abbreviation dtodx3 := (dtodx3 pGrid).

(** *** Flags *)

(** The [|=] statements for a cell [(k,j,i)] of non-positive density:
    "Left interfaces", then "Right interfaces". *)
Definition flag_negative_stores (k j i : Z) : list (Z * Z * Z * Z) :=
  [ (k, j, i, Z.lor correct_hydro_all correct_mhd_all);
    (k, j, i + 1, Z.lor correct_hydro_x1 correct_mhd_x1);
    (k, j + 1, i, Z.lor correct_hydro_x2 correct_mhd_x2);
    (k + 1, j, i, Z.lor correct_hydro_x3 correct_mhd_x3) ].

(** The body of "Find negative cell-centered densities on the grid";
    the state is [Ineg] and [negcount]. *)
Definition flag_negative_cell (U : arr3 Gas) (k j i : Z) (s : arr3 Z * Z) :
    arr3 Z * Z :=
  if Rle_dec (Gas.d (U k j i)) 0
  then (arr3_or_list (fst s) (flag_negative_stores k j i), snd s + 1)
  else s.

(** [memset(Ineg[0][0], 0, ...)], [negcount = 0] and the loop nest over
    [kb+1..kt-1], [jb+1..jt-1], [ib+1..it-1]. *)
Definition flag_negative (U : arr3 Gas) : arr3 Z * Z :=
  for_loop (kb + 1) (kt - 1) (fun k s =>
    for_loop (jb + 1) (jt - 1) (fun j s =>
      for_loop (ib + 1) (it - 1) (fun i s =>
        flag_negative_cell U k j i s) s) s)
    (fun _ _ _ => 0, 0).

(** The [|=] statements under [if (Ineg[k][j][i] & correct_hydro_x1)],
    in the order of the text: "via emf2[k][j][i]", "additional via
    emf2[k+1][j][i]", "additional via emf3[k][j][i]", "additional via
    emf3[k][j+1][i]". *)
Definition flag_mhd_from_x1 (k j i : Z) : list (Z * Z * Z * Z) :=
  [ (k - 1, j, i, correct_mhd_x1);
    (k, j, i - 1, correct_mhd_x3);
    (k + 1, j, i, Z.lor correct_mhd_x1 correct_mhd_x3);
    (k + 1, j, i - 1, correct_mhd_x3);
    (k, j - 1, i, correct_mhd_x1);
    (k, j, i - 1, correct_mhd_x2);
    (k, j + 1, i, Z.lor correct_mhd_x1 correct_mhd_x2);
    (k, j + 1, i - 1, correct_mhd_x2) ].

(** Under [if (Ineg[k][j][i] & correct_hydro_x2)]: "via emf1[k][j][i]",
    "additional via emf1[k+1][j][i]", "additional via emf3[k][j][i]",
    "additional via emf3[k][j][i+1]". *)
Definition flag_mhd_from_x2 (k j i : Z) : list (Z * Z * Z * Z) :=
  [ (k - 1, j, i, correct_mhd_x2);
    (k, j - 1, i, correct_mhd_x3);
    (k + 1, j, i, Z.lor correct_mhd_x2 correct_mhd_x3);
    (k + 1, j - 1, i, correct_mhd_x3);
    (k, j - 1, i, correct_mhd_x1);
    (k, j, i - 1, correct_mhd_x2);
    (k, j, i + 1, Z.lor correct_mhd_x1 correct_mhd_x2);
    (k, j - 1, i + 1, correct_mhd_x1) ].

(** Under [if (Ineg[k][j][i] & correct_hydro_x3)]: "via emf1[k][j][i]",
    "additional via emf1[k][j+1][i]", "additional via emf2[k][j][i]",
    "additional via emf2[k][j][i+1]". *)
Definition flag_mhd_from_x3 (k j i : Z) : list (Z * Z * Z * Z) :=
  [ (k - 1, j, i, correct_mhd_x2);
    (k, j - 1, i, correct_mhd_x3);
    (k, j + 1, i, Z.lor correct_mhd_x2 correct_mhd_x3);
    (k - 1, j + 1, i, correct_mhd_x2);
    (k - 1, j, i, correct_mhd_x1);
    (k, j, i - 1, correct_mhd_x3);
    (k, j, i + 1, Z.lor correct_mhd_x1 correct_mhd_x3);
    (k - 1, j, i + 1, correct_mhd_x1) ].

(** The body of "Set flags for the additional interface magnetic fields
    that will require modification". *)
Definition flag_mhd_cell (k j i : Z) (Ineg : arr3 Z) : arr3 Z :=
  let Ineg := if flag_set Ineg k j i correct_hydro_x1
              then arr3_or_list Ineg (flag_mhd_from_x1 k j i) else Ineg in
  let Ineg := if flag_set Ineg k j i correct_hydro_x2
              then arr3_or_list Ineg (flag_mhd_from_x2 k j i) else Ineg in
  if flag_set Ineg k j i correct_hydro_x3
  then arr3_or_list Ineg (flag_mhd_from_x3 k j i) else Ineg.

(** The loop nest over the interfaces [kb+1..kt], [jb+1..jt],
    [ib+1..it]. *)
Definition flag_mhd (Ineg : arr3 Z) : arr3 Z :=
  for_loop (kb + 1) kt (fun k Ineg =>
    for_loop (jb + 1) jt (fun j Ineg =>
      for_loop (ib + 1) it (fun i Ineg =>
        flag_mhd_cell k j i Ineg) Ineg) Ineg) Ineg.

(** *** Hydro: undo and redo *)

Local Open Scope R_scope.

(** [U.d += q*F.d; U.M1 += q*F.Mx; U.M2 += q*F.My; U.M3 += q*F.Mz;
    U.E += q*F.E] with an x1-flux [F], and the same with [-=]. *)
Definition add_x1Flux (q : R) (U : Gas) (F : Cons1D) : Gas :=
  Gas.mk (Gas.d U + q * Cons1D.d F)
         (Gas.M1 U + q * Cons1D.Mx F)
         (Gas.M2 U + q * Cons1D.My F)
         (Gas.M3 U + q * Cons1D.Mz F)
         (if ISOTHERMAL then Gas.E U else Gas.E U + q * Cons1D.E F)
         (Gas.B1c U) (Gas.B2c U) (Gas.B3c U) (Gas.s U).

Definition sub_x1Flux (q : R) (U : Gas) (F : Cons1D) : Gas :=
  Gas.mk (Gas.d U - q * Cons1D.d F)
         (Gas.M1 U - q * Cons1D.Mx F)
         (Gas.M2 U - q * Cons1D.My F)
         (Gas.M3 U - q * Cons1D.Mz F)
         (if ISOTHERMAL then Gas.E U else Gas.E U - q * Cons1D.E F)
         (Gas.B1c U) (Gas.B2c U) (Gas.B3c U) (Gas.s U).

(** With an x2-flux: [M1] takes [Mz], [M2] takes [Mx], [M3] takes [My]. *)
Definition add_x2Flux (q : R) (U : Gas) (F : Cons1D) : Gas :=
  Gas.mk (Gas.d U + q * Cons1D.d F)
         (Gas.M1 U + q * Cons1D.Mz F)
         (Gas.M2 U + q * Cons1D.Mx F)
         (Gas.M3 U + q * Cons1D.My F)
         (if ISOTHERMAL then Gas.E U else Gas.E U + q * Cons1D.E F)
         (Gas.B1c U) (Gas.B2c U) (Gas.B3c U) (Gas.s U).

Definition sub_x2Flux (q : R) (U : Gas) (F : Cons1D) : Gas :=
  Gas.mk (Gas.d U - q * Cons1D.d F)
         (Gas.M1 U - q * Cons1D.Mz F)
         (Gas.M2 U - q * Cons1D.Mx F)
         (Gas.M3 U - q * Cons1D.My F)
         (if ISOTHERMAL then Gas.E U else Gas.E U - q * Cons1D.E F)
         (Gas.B1c U) (Gas.B2c U) (Gas.B3c U) (Gas.s U).

(** With an x3-flux: [M1] takes [My], [M2] takes [Mz], [M3] takes [Mx]. *)
Definition add_x3Flux (q : R) (U : Gas) (F : Cons1D) : Gas :=
  Gas.mk (Gas.d U + q * Cons1D.d F)
         (Gas.M1 U + q * Cons1D.My F)
         (Gas.M2 U + q * Cons1D.Mz F)
         (Gas.M3 U + q * Cons1D.Mx F)
         (if ISOTHERMAL then Gas.E U else Gas.E U + q * Cons1D.E F)
         (Gas.B1c U) (Gas.B2c U) (Gas.B3c U) (Gas.s U).

Definition sub_x3Flux (q : R) (U : Gas) (F : Cons1D) : Gas :=
  Gas.mk (Gas.d U - q * Cons1D.d F)
         (Gas.M1 U - q * Cons1D.My F)
         (Gas.M2 U - q * Cons1D.Mz F)
         (Gas.M3 U - q * Cons1D.Mx F)
         (if ISOTHERMAL then Gas.E U else Gas.E U - q * Cons1D.E F)
         (Gas.B1c U) (Gas.B2c U) (Gas.B3c U) (Gas.s U).

Section HydroCorrection.

Variable Ineg : arr3 Z.
Variables x1Flux x2Flux x3Flux : arr3 Cons1D.

(** The body of "Undo correction of cell-centered values due to
    higher-order fluxes": the six [if] on the cell [pGrid->U[k][j][i]]. *)
Definition undo_hydro_cell (k j i : Z) (c : Gas) : Gas :=
  let c := if flag_set Ineg k j i correct_hydro_x1
           then sub_x1Flux dtodx1 c (x1Flux k j i) else c in
  let c := if flag_set Ineg k j (i + 1)%Z correct_hydro_x1
           then add_x1Flux dtodx1 c (x1Flux k j (i + 1)%Z) else c in
  let c := if flag_set Ineg k j i correct_hydro_x2
           then sub_x2Flux dtodx2 c (x2Flux k j i) else c in
  let c := if flag_set Ineg k (j + 1)%Z i correct_hydro_x2
           then add_x2Flux dtodx2 c (x2Flux k (j + 1)%Z i) else c in
  let c := if flag_set Ineg k j i correct_hydro_x3
           then sub_x3Flux dtodx3 c (x3Flux k j i) else c in
  if flag_set Ineg (k + 1)%Z j i correct_hydro_x3
  then add_x3Flux dtodx3 c (x3Flux (k + 1)%Z j i) else c.

Definition undo_hydro (U : arr3 Gas) : arr3 Gas :=
  for_loop (kb + 2)%Z (kt - 2)%Z (fun k U =>
    for_loop (jb + 2)%Z (jt - 2)%Z (fun j U =>
      for_loop (ib + 2)%Z (it - 2)%Z (fun i U =>
        arr3_set U k j i (undo_hydro_cell k j i (U k j i))) U) U) U.

(** The body of "Now correct cell-centered values using 1st order fluxes
    for hydro interfaces flagged above". *)
Definition redo_hydro_cell (k j i : Z) (c : Gas) : Gas :=
  let c := if flag_set Ineg k j i correct_hydro_x1
           then add_x1Flux dtodx1 c (x1Flux k j i) else c in
  let c := if flag_set Ineg k j (i + 1)%Z correct_hydro_x1
           then sub_x1Flux dtodx1 c (x1Flux k j (i + 1)%Z) else c in
  let c := if flag_set Ineg k j i correct_hydro_x2
           then add_x2Flux dtodx2 c (x2Flux k j i) else c in
  let c := if flag_set Ineg k (j + 1)%Z i correct_hydro_x2
           then sub_x2Flux dtodx2 c (x2Flux k (j + 1)%Z i) else c in
  let c := if flag_set Ineg k j i correct_hydro_x3
           then add_x3Flux dtodx3 c (x3Flux k j i) else c in
  if flag_set Ineg (k + 1)%Z j i correct_hydro_x3
  then sub_x3Flux dtodx3 c (x3Flux (k + 1)%Z j i) else c.

Definition redo_hydro (U : arr3 Gas) : arr3 Gas :=
  for_loop (kb + 2)%Z (kt - 2)%Z (fun k U =>
    for_loop (jb + 2)%Z (jt - 2)%Z (fun j U =>
      for_loop (ib + 2)%Z (it - 2)%Z (fun i U =>
        arr3_set U k j i (redo_hydro_cell k j i (U k j i))) U) U) U.

End HydroCorrection.

(** *** Interface fields: undo and redo *)

Section MhdCorrection.

Variable Ineg : arr3 Z.
Variables emf1 emf2 emf3 : arr3 R.

(** The body of "Undo correction of interface magnetic fields (step 11)
    for interface fields flagged above". *)
Definition undo_mhd_cell (k j i : Z) (g : Grid) : Grid :=
  let g := if flag_set Ineg k j i correct_mhd_x1
           then sub_B1i g k j i (ct_B1i pGrid emf2 emf3 k j i) else g in
  let g := if flag_set Ineg k j i correct_mhd_x2
           then sub_B2i g k j i (ct_B2i pGrid emf1 emf3 k j i) else g in
  if flag_set Ineg k j i correct_mhd_x3
  then sub_B3i g k j i (ct_B3i pGrid emf1 emf2 k j i) else g.

Definition undo_mhd (g : Grid) : Grid :=
  for_loop (kb + 2)%Z (kt - 1)%Z (fun k g =>
    for_loop (jb + 2)%Z (jt - 1)%Z (fun j g =>
      for_loop (ib + 2)%Z (it - 1)%Z (fun i g =>
        undo_mhd_cell k j i g) g) g) g.

(** The body of the last MHD loop nest, with the recomputed corner
    EMFs. *)
Definition redo_mhd_cell (k j i : Z) (g : Grid) : Grid :=
  let g := if flag_set Ineg k j i correct_mhd_x1
           then add_B1i g k j i (ct_B1i pGrid emf2 emf3 k j i) else g in
  let g := if flag_set Ineg k j i correct_mhd_x2
           then add_B2i g k j i (ct_B2i pGrid emf1 emf3 k j i) else g in
  if flag_set Ineg k j i correct_mhd_x3
  then add_B3i g k j i (ct_B3i pGrid emf1 emf2 k j i) else g.

Definition redo_mhd (g : Grid) : Grid :=
  for_loop (kb + 2)%Z (kt - 1)%Z (fun k g =>
    for_loop (jb + 2)%Z (jt - 1)%Z (fun j g =>
      for_loop (ib + 2)%Z (it - 1)%Z (fun i g =>
        redo_mhd_cell k j i g) g) g) g.

End MhdCorrection.

(** *** First-order states and fluxes *)

Section FirstOrderFluxes.

Variable Ineg : arr3 Z.
Variable Uhalf : arr3 Gas.
Variable Bface : Faces.t.

(** The assignments to [.d], [.Mx], [.My], [.Mz] and, unless
    [ISOTHERMAL], [.E] of a face state; its other members keep what they
    held. *)
Definition first_order_state (S : Cons1D) (d Mx My Mz E : R) : Cons1D :=
  Cons1D.mk d Mx My Mz (if ISOTHERMAL then Cons1D.E S else E)
            (Cons1D.By S) (Cons1D.Bz S) (Cons1D.s S).

Definition first_order_fluxes_cell (k j i : Z) (w : FaceWork.t) : FaceWork.t :=
  let w :=
    if flag_set Ineg k j i correct_hydro_x1 then
      let L := Uhalf k j (i - 1)%Z in
      let Ul := first_order_state (FaceWork.Ul_x1Face w k j i)
                  (Gas.d L) (Gas.M1 L) (Gas.M2 L) (Gas.M3 L) (Gas.E L) in
      let C := Uhalf k j i in
      let Ur := first_order_state (FaceWork.Ur_x1Face w k j i)
                  (Gas.d C) (Gas.M1 C) (Gas.M2 C) (Gas.M3 C) (Gas.E C) in
      FaceWork.mk
        (arr3_set (FaceWork.Ul_x1Face w) k j i Ul)
        (arr3_set (FaceWork.Ur_x1Face w) k j i Ur)
        (arr3_set (FaceWork.x1Flux w) k j i
           (GET_FLUXES (Faces.B1_x1Face Bface k j i) Ul Ur
              (FaceWork.x1Flux w k j i)))
        (FaceWork.Ul_x2Face w) (FaceWork.Ur_x2Face w) (FaceWork.x2Flux w)
        (FaceWork.Ul_x3Face w) (FaceWork.Ur_x3Face w) (FaceWork.x3Flux w)
    else w in
  let w :=
    if flag_set Ineg k j i correct_hydro_x2 then
      let L := Uhalf k (j - 1)%Z i in
      let Ul := first_order_state (FaceWork.Ul_x2Face w k j i)
                  (Gas.d L) (Gas.M2 L) (Gas.M3 L) (Gas.M1 L) (Gas.E L) in
      let C := Uhalf k j i in
      let Ur := first_order_state (FaceWork.Ur_x2Face w k j i)
                  (Gas.d C) (Gas.M2 C) (Gas.M3 C) (Gas.M1 C) (Gas.E C) in
      FaceWork.mk
        (FaceWork.Ul_x1Face w) (FaceWork.Ur_x1Face w) (FaceWork.x1Flux w)
        (arr3_set (FaceWork.Ul_x2Face w) k j i Ul)
        (arr3_set (FaceWork.Ur_x2Face w) k j i Ur)
        (arr3_set (FaceWork.x2Flux w) k j i
           (GET_FLUXES (Faces.B2_x2Face Bface k j i) Ul Ur
              (FaceWork.x2Flux w k j i)))
        (FaceWork.Ul_x3Face w) (FaceWork.Ur_x3Face w) (FaceWork.x3Flux w)
    else w in
  if flag_set Ineg k j i correct_hydro_x3 then
    let L := Uhalf (k - 1)%Z j i in
    let Ul := first_order_state (FaceWork.Ul_x3Face w k j i)
                (Gas.d L) (Gas.M3 L) (Gas.M1 L) (Gas.M2 L) (Gas.E L) in
    let C := Uhalf k j i in
    let Ur := first_order_state (FaceWork.Ur_x3Face w k j i)
                (Gas.d C) (Gas.M3 C) (Gas.M1 C) (Gas.M2 C) (Gas.E C) in
    FaceWork.mk
      (FaceWork.Ul_x1Face w) (FaceWork.Ur_x1Face w) (FaceWork.x1Flux w)
      (FaceWork.Ul_x2Face w) (FaceWork.Ur_x2Face w) (FaceWork.x2Flux w)
      (arr3_set (FaceWork.Ul_x3Face w) k j i Ul)
      (arr3_set (FaceWork.Ur_x3Face w) k j i Ur)
      (arr3_set (FaceWork.x3Flux w) k j i
         (GET_FLUXES (Faces.B3_x3Face Bface k j i) Ul Ur
            (FaceWork.x3Flux w k j i)))
  else w.

(** "Calculate 1st order L/R states from Uhalf and then fluxes from those
    L/R states": the loop nest over the interfaces [kb+2..kt-1],
    [jb+2..jt-1], [ib+2..it-1]. *)
Definition first_order_fluxes (w : FaceWork.t) : FaceWork.t :=
  for_loop (kb + 2)%Z (kt - 1)%Z (fun k w =>
    for_loop (jb + 2)%Z (jt - 1)%Z (fun j w =>
      for_loop (ib + 2)%Z (it - 1)%Z (fun i w =>
        first_order_fluxes_cell k j i w) w) w) w.

End FirstOrderFluxes.

(** *** Corner EMFs again *)

Section CornerEmfAgain.

Variable Ineg : arr3 Z.
Variables x1Flux x2Flux x3Flux : arr3 Cons1D.
Variable cc : EmfCC.t.

(** The three loop nests that "re-calculate corner emfs"; under each
    [if] the text of the matching [integrate_emf*_corner] is repeated. *)
Definition recalc_emf1 (emf1 : arr3 R) : arr3 R :=
  for_loop (kb + 2)%Z kt (fun k emf1 =>
    for_loop (jb + 2)%Z jt (fun j emf1 =>
      for_loop (ib + 2)%Z (it - 1)%Z (fun i emf1 =>
        if flag_set Ineg k j i correct_mhd_x2
           || flag_set Ineg (k - 1)%Z j i correct_mhd_x2
           || flag_set Ineg k j i correct_mhd_x3
           || flag_set Ineg k (j - 1)%Z i correct_mhd_x3
        then arr3_set emf1 k j i
               (emf1_corner x2Flux x3Flux (EmfCC.emf1_cc cc) k j i)
        else emf1) emf1) emf1) emf1.

Definition recalc_emf2 (emf2 : arr3 R) : arr3 R :=
  for_loop (kb + 2)%Z kt (fun k emf2 =>
    for_loop (jb + 2)%Z (jt - 1)%Z (fun j emf2 =>
      for_loop (ib + 2)%Z it (fun i emf2 =>
        if flag_set Ineg k j i correct_mhd_x1
           || flag_set Ineg (k - 1)%Z j i correct_mhd_x1
           || flag_set Ineg k j i correct_mhd_x3
           || flag_set Ineg k j (i - 1)%Z correct_mhd_x3
        then arr3_set emf2 k j i
               (emf2_corner x1Flux x3Flux (EmfCC.emf2_cc cc) k j i)
        else emf2) emf2) emf2) emf2.

Definition recalc_emf3 (emf3 : arr3 R) : arr3 R :=
  for_loop (kb + 2)%Z (kt - 1)%Z (fun k emf3 =>
    for_loop (jb + 2)%Z jt (fun j emf3 =>
      for_loop (ib + 2)%Z it (fun i emf3 =>
        if flag_set Ineg k j i correct_mhd_x1
           || flag_set Ineg k (j - 1)%Z i correct_mhd_x1
           || flag_set Ineg k j i correct_mhd_x2
           || flag_set Ineg k j (i - 1)%Z correct_mhd_x2
        then arr3_set emf3 k j i
               (emf3_corner x1Flux x2Flux (EmfCC.emf3_cc cc) k j i)
        else emf3) emf3) emf3) emf3.

End CornerEmfAgain.

(** *** The final check *)

(** "Now check for negative cell-centered densities again": [negcount]
    after the loop nest over the active zone. *)
Definition count_negative (U : arr3 Gas) : Z :=
  for_loop (ks pGrid) (ke pGrid) (fun k n =>
    for_loop (js pGrid) (je pGrid) (fun j n =>
      for_loop (is_ pGrid) (ie pGrid) (fun i n =>
        if Rle_dec (Gas.d (U k j i)) 0 then (n + 1)%Z else n) n) n) 0%Z.

End FirstOrderCorrection.

(** *** The function *)

(** [first_order_correction(pGrid)].  [w] holds [pGrid] (its face fields
    in [Work.grid w], its cells in [Work.U w]) and the static arrays as
    they are on entry; [Uhalf], [Bface] and [cc] are the half-step state,
    the predictor face fields and the cell-centred reference EMFs, which
    are only read.  [GET_FLUXES] stands for the Riemann solver behind the
    macro of that name.  The messages of [ath_perr] have no counterpart. *)
Definition first_order_correction (nghost : Z) (order : Order)
    (MHD ISOTHERMAL : bool)
    (GET_FLUXES : R -> Cons1D -> Cons1D -> Cons1D -> Cons1D)
    (Uhalf : arr3 Gas) (Bface : Faces.t) (cc : EmfCC.t) (w : Work.t) :
    FocResult :=
  let pGrid := Work.grid w in
  let (Ineg, negcount) := flag_negative nghost order pGrid (Work.U w) in
  if (negcount >? 0)%Z then
    let Ineg := if MHD then flag_mhd nghost order pGrid Ineg else Ineg in
    let f := Work.faces w in
    let U := undo_hydro nghost order ISOTHERMAL pGrid Ineg
               (FaceWork.x1Flux f) (FaceWork.x2Flux f) (FaceWork.x3Flux f)
               (Work.U w) in
    let g := if MHD
             then undo_mhd nghost order pGrid Ineg
                    (Work.emf1 w) (Work.emf2 w) (Work.emf3 w) pGrid
             else pGrid in
    let f := first_order_fluxes nghost order ISOTHERMAL GET_FLUXES pGrid
               Ineg Uhalf Bface f in
    let emf1 := if MHD
                then recalc_emf1 nghost order pGrid Ineg
                       (FaceWork.x2Flux f) (FaceWork.x3Flux f) cc (Work.emf1 w)
                else Work.emf1 w in
    let emf2 := if MHD
                then recalc_emf2 nghost order pGrid Ineg
                       (FaceWork.x1Flux f) (FaceWork.x3Flux f) cc (Work.emf2 w)
                else Work.emf2 w in
    let emf3 := if MHD
                then recalc_emf3 nghost order pGrid Ineg
                       (FaceWork.x1Flux f) (FaceWork.x2Flux f) cc (Work.emf3 w)
                else Work.emf3 w in
    let g := if MHD
             then redo_mhd nghost order pGrid Ineg emf1 emf2 emf3 g
             else g in
    let U := redo_hydro nghost order ISOTHERMAL pGrid Ineg
               (FaceWork.x1Flux f) (FaceWork.x2Flux f) (FaceWork.x3Flux f) U in
    let w' := Work.mk g U Ineg f emf1 emf2 emf3 in
    if (count_negative pGrid U >? 0)%Z then Foc_ath_error w' else Foc_return w'
  else
    Foc_return (Work.mk pGrid (Work.U w) Ineg (Work.faces w)
                  (Work.emf1 w) (Work.emf2 w) (Work.emf3 w)).

(** ** Notions used to state the properties of [first_order_correction] *)

(** A run of [|=] addresses cell [(k',j',i')] with a flag that has bit
    [n]. *)
Definition or_hits (l : list (Z * Z * Z * Z)) (k' j' i' n : Z) : Prop :=
  exists f, In (k', j', i', f) l /\ Z.testbit f n = true.

(** A cell that the first loop nest of [first_order_correction] visits and
    finds with [d <= 0.0]. *)
Definition negative_cell (nghost : Z) (order : Order) (pGrid : Grid)
    (U : arr3 Gas) (k j i : Z) : Prop :=
  (kb nghost order pGrid + 1 <= k <= kt nghost order pGrid - 1)%Z
  /\ (jb nghost order pGrid + 1 <= j <= jt nghost order pGrid - 1)%Z
  /\ (ib nghost order pGrid + 1 <= i <= it nghost order pGrid - 1)%Z
  /\ Gas.d (U k j i) <= 0.

(** The state that [first_order_correction] leaves, whichever way it
    ends. *)
Definition foc_state (r : FocResult) : Work.t :=
  match r with Foc_return w => w | Foc_ath_error w => w end.

(** The stores of the iteration [(k,j,i)] of the MHD flag loop, by the
    hydro flags of that interface. *)
Definition flag_mhd_hits (a : arr3 Z) (k j i k' j' i' n : Z) : Prop :=
  (Z.testbit (a k j i) 0 = true /\ or_hits (flag_mhd_from_x1 k j i) k' j' i' n)
  \/ (Z.testbit (a k j i) 1 = true
      /\ or_hits (flag_mhd_from_x2 k j i) k' j' i' n)
  \/ (Z.testbit (a k j i) 2 = true
      /\ or_hits (flag_mhd_from_x3 k j i) k' j' i' n).

(** [Ineg] as the two flag loops leave it when [MHD] is defined. *)
Definition mhd_flags (nghost : Z) (order : Order) (pGrid : Grid)
    (U : arr3 Gas) : arr3 Z :=
  flag_mhd nghost order pGrid (fst (flag_negative nghost order pGrid U)).

(** By how much the difference of the member [q] of the fluxes across a
    cell, from its face [(k,j,i)] to its face [(k',j',i')], differs
    between the fluxes [F] and [F']. *)
Definition flux_change (F F' : arr3 Cons1D) (q : Cons1D -> R)
    (k j i k' j' i' : Z) : R :=
  (q (F' k' j' i') - q (F k' j' i')) - (q (F' k j i) - q (F k j i)).

(** * Properties *)

(** ** The decimal constants of the source *)

Lemma half_eq : 0.5 = / 2.
Proof. lra. Qed.

Lemma quarter_eq : 0.25 = / 4.
Proof. lra. Qed.

(** [field] after the decimal literals have been turned into inverses. *)
Ltac dfield := rewrite ?half_eq, ?quarter_eq; field.

(** ** Arrays of passive scalars *)

Lemma set_nth_length (n : nat) (v : R) (a : list R) :
  length (set_nth n v a) = length a.
Proof.
  revert n; induction a as [|h t IH]; intros [|n]; simpl; auto.
Qed.

Lemma nth_set_nth (n m : nat) (v : R) (a : list R) :
  (n < length a)%nat ->
  nth m (set_nth n v a) 0 = if Nat.eqb m n then v else nth m a 0.
Proof.
  revert n m; induction a as [|h t IH]; intros n m Hn; simpl in Hn.
  - lia.
  - destruct n as [|n], m as [|m]; simpl; auto.
    apply IH; lia.
Qed.

Lemma scalar_loop_length (N : nat) (f : nat -> R) (dst : list R) :
  length (scalar_loop N f dst) = length dst.
Proof.
  unfold scalar_loop.
  induction N as [|N IH].
  - reflexivity.
  - rewrite seq_S, fold_left_app; simpl.
    now rewrite set_nth_length.
Qed.

Lemma scalar_loop_nth (N : nat) (f : nat -> R) (dst : list R) (m : nat) :
  (N <= length dst)%nat ->
  nth m (scalar_loop N f dst) 0 = if Nat.ltb m N then f m else nth m dst 0.
Proof.
  induction N as [|N IH]; intros HN.
  - reflexivity.
  - unfold scalar_loop in *.
    rewrite seq_S, fold_left_app; simpl.
    rewrite nth_set_nth.
    + rewrite IH by lia.
      destruct (Nat.eqb_spec m N) as [->|Hne].
      * rewrite (proj2 (Nat.ltb_lt N (S N))) by lia; reflexivity.
      * destruct (Nat.ltb_spec m N), (Nat.ltb_spec m (S N)); auto; lia.
    + fold (scalar_loop N f dst).
      rewrite scalar_loop_length; lia.
Qed.

(** The loop over the scalars is a [map] when source and destination both
    hold [N] entries. *)
Lemma scalar_loop_map (N : nat) (c : R) (src dst : list R) :
  length src = N -> length dst = N ->
  scalar_loop N (fun n => get_nth n src * c) dst = map (fun x => x * c) src.
Proof.
  intros Hs Hd.
  apply (nth_ext _ _ 0 0).
  - now rewrite scalar_loop_length, length_map, Hs, Hd.
  - intros m Hm.
    rewrite scalar_loop_length in Hm.
    rewrite scalar_loop_nth by lia.
    rewrite (proj2 (Nat.ltb_lt m N)) by lia.
    unfold get_nth.
    rewrite (nth_indep (map (fun x => x * c) src) 0 ((fun x => x * c) 0))
      by (rewrite length_map; lia).
    exact (eq_sym (map_nth (fun x => x * c) src 0 m)).
Qed.

Lemma map_scale_cancel (c c' : R) (l : list R) :
  c * c' = 1 ->
  map (fun x => x * c') (map (fun x => x * c) l) = l.
Proof.
  intros Hc.
  rewrite map_map.
  rewrite <- (map_id l) at 2.
  apply map_ext; intros x.
  rewrite Rmult_assoc, Hc; ring.
Qed.

Lemma MAX_floor (x tiny : R) : tiny <= x -> MAX x tiny = x.
Proof.
  intros H; unfold MAX.
  destruct (Rgt_dec x tiny); lra.
Qed.

Lemma MAX_below (x tiny : R) : x < tiny -> MAX x tiny = tiny.
Proof.
  intros H; unfold MAX.
  destruct (Rgt_dec x tiny); lra.
Qed.

(** ** Round trips between conserved and primitive variables *)

Section RoundTrip.

Variables MHD ISOTHERMAL : bool.
Variable NSCALARS : nat.
Variables Gamma TINY_NUMBER : R.

Hypothesis Gamma_not_1 : ISOTHERMAL = false -> Gamma <> 1.

Local Abbreviation C2P := (Cons1D_to_Prim1D MHD ISOTHERMAL NSCALARS Gamma TINY_NUMBER).
Local Abbreviation P2C := (Prim1D_to_Cons1D MHD ISOTHERMAL NSCALARS Gamma).

Lemma Gamma_1_neq_0 : ISOTHERMAL = false -> Gamma_1 Gamma <> 0.
Proof. intros H; apply Gamma_not_1 in H; unfold Gamma_1; lra. Qed.

(** The floor is inactive exactly on the pressures at or above it: the
    pressure member written by [Cons1D_to_Prim1D] is the floored gas
    pressure of the argument. *)
Lemma Cons1D_to_Prim1D_P (U : Cons1D) (W0 : Prim1D) (Bx : R) :
  Cons1D.d U <> 0 -> ISOTHERMAL = false ->
  Prim1D.P (C2P U W0 Bx) = MAX (pressure MHD Gamma U Bx) TINY_NUMBER.
Proof.
  intros Hd Hiso.
  unfold Cons1D_to_Prim1D, pressure, Gamma_1, SQR; simpl.
  rewrite Hiso.
  f_equal.
  destruct MHD; dfield; assumption.
Qed.

Lemma prim_cons_prim (W W0 : Prim1D) (U0 : Cons1D) (Bx : R) :
  wf_Prim1D NSCALARS W -> wf_Prim1D NSCALARS W0 -> wf_Cons1D NSCALARS U0 ->
  0 < Prim1D.d W -> (ISOTHERMAL = false -> TINY_NUMBER <= Prim1D.P W) ->
  Prim1D_eq MHD ISOTHERMAL (C2P (P2C U0 W Bx) W0 Bx) W.
Proof.
  intros HW HW0 HU0 Hd HP.
  assert (Hd0 : Prim1D.d W <> 0) by lra.
  unfold Prim1D_eq, Cons1D_to_Prim1D, Prim1D_to_Cons1D; simpl.
  repeat split.
  - dfield; assumption.
  - dfield; assumption.
  - dfield; assumption.
  - intros Hiso.
    pose proof (Gamma_1_neq_0 Hiso) as HG.
    specialize (HP Hiso).
    rewrite Hiso.
    match goal with
    | |- MAX ?x _ = ?p => replace x with p; [apply MAX_floor; assumption|]
    end.
    unfold SQR; destruct MHD; dfield; split; assumption.
  - destruct MHD; [reflexivity | intros; discriminate].
  - destruct MHD; [reflexivity | intros; discriminate].
  - rewrite (scalar_loop_map NSCALARS (Prim1D.d W) (Prim1D.r W) (Cons1D.s U0))
      by assumption.
    rewrite scalar_loop_map by (rewrite ?length_map; assumption).
    apply map_scale_cancel; dfield; assumption.
Qed.

Lemma cons_prim_cons (U U0 : Cons1D) (W0 : Prim1D) (Bx : R) :
  wf_Cons1D NSCALARS U -> wf_Cons1D NSCALARS U0 -> wf_Prim1D NSCALARS W0 ->
  0 < Cons1D.d U ->
  (ISOTHERMAL = false -> TINY_NUMBER <= pressure MHD Gamma U Bx) ->
  Cons1D_eq MHD ISOTHERMAL (P2C U0 (C2P U W0 Bx) Bx) U.
Proof.
  intros HU HU0 HW0 Hd HP.
  assert (Hd0 : Cons1D.d U <> 0) by lra.
  unfold Cons1D_eq.
  repeat split.
  - unfold Prim1D_to_Cons1D, Cons1D_to_Prim1D; simpl.
    dfield; assumption.
  - unfold Prim1D_to_Cons1D, Cons1D_to_Prim1D; simpl.
    dfield; assumption.
  - unfold Prim1D_to_Cons1D, Cons1D_to_Prim1D; simpl.
    dfield; assumption.
  - intros Hiso.
    pose proof (Gamma_1_neq_0 Hiso) as HG.
    specialize (HP Hiso).
    pose proof (Cons1D_to_Prim1D_P U W0 Bx Hd0 Hiso) as HPW.
    rewrite MAX_floor in HPW by assumption.
    unfold Prim1D_to_Cons1D; cbn [Cons1D.E].
    rewrite HPW, Hiso.
    unfold Cons1D_to_Prim1D, pressure, Gamma_1, SQR in *; simpl.
    destruct MHD; dfield; split; lra.
  - unfold Prim1D_to_Cons1D, Cons1D_to_Prim1D; simpl.
    destruct MHD; [reflexivity | intros; discriminate].
  - unfold Prim1D_to_Cons1D, Cons1D_to_Prim1D; simpl.
    destruct MHD; [reflexivity | intros; discriminate].
  - unfold Prim1D_to_Cons1D, Cons1D_to_Prim1D; simpl.
    rewrite (scalar_loop_map NSCALARS (1 / Cons1D.d U) (Cons1D.s U) (Prim1D.r W0))
      by assumption.
    rewrite scalar_loop_map by (rewrite ?length_map; assumption).
    apply map_scale_cancel; dfield; assumption.
Qed.

End RoundTrip.

(** With every member compiled in (adiabatic MHD) the two comparisons are
    plain equality of structs. *)
Lemma Prim1D_eq_full (W W' : Prim1D) :
  Prim1D_eq true false W W' <-> W = W'.
Proof.
  split.
  - destruct W, W'; unfold Prim1D_eq; simpl.
    intros (-> & -> & -> & -> & HP & HB & ->).
    destruct (HB eq_refl) as [-> ->].
    now rewrite (HP eq_refl).
  - intros ->; unfold Prim1D_eq; auto 10.
Qed.

Lemma Cons1D_eq_full (U U' : Cons1D) :
  Cons1D_eq true false U U' <-> U = U'.
Proof.
  split.
  - destruct U, U'; unfold Cons1D_eq; simpl.
    intros (-> & -> & -> & -> & HE & HB & ->).
    destruct (HB eq_refl) as [-> ->].
    now rewrite (HE eq_refl).
  - intros ->; unfold Cons1D_eq; auto 10.
Qed.

(** C4, as amended.  With an adiabatic index different from 1, for every
    primitive 1-D state [W] with [d > 0] and [P >= TINY_NUMBER] (the pressure
    floor), [Cons1D_to_Prim1D] applied to the result of [Prim1D_to_Cons1D]
    returns [W]; and for every conserved 1-D state [U] with [d > 0] whose
    derived pressure is at least [TINY_NUMBER], [Prim1D_to_Cons1D] applied to
    the result of [Cons1D_to_Prim1D] returns [U].  The identities cover
    density, velocities/momenta, pressure/energy, transverse B and the
    passive scalars; in the isothermal configuration, which has neither
    pressure nor energy, no condition on them is needed. *)
Theorem roundtrip_above_floor
    (MHD ISOTHERMAL : bool) (NSCALARS : nat) (Gamma TINY_NUMBER : R)
    (W W0 : Prim1D) (U U0 : Cons1D) (Bx : R) :
  (ISOTHERMAL = false -> Gamma <> 1) ->
  wf_Prim1D NSCALARS W -> wf_Prim1D NSCALARS W0 ->
  wf_Cons1D NSCALARS U -> wf_Cons1D NSCALARS U0 ->
  (0 < Prim1D.d W ->
   (ISOTHERMAL = false -> TINY_NUMBER <= Prim1D.P W) ->
   Prim1D_eq MHD ISOTHERMAL
     (Cons1D_to_Prim1D MHD ISOTHERMAL NSCALARS Gamma TINY_NUMBER
        (Prim1D_to_Cons1D MHD ISOTHERMAL NSCALARS Gamma U0 W Bx) W0 Bx)
     W)
  /\
  (0 < Cons1D.d U ->
   (ISOTHERMAL = false -> TINY_NUMBER <= pressure MHD Gamma U Bx) ->
   Cons1D_eq MHD ISOTHERMAL
     (Prim1D_to_Cons1D MHD ISOTHERMAL NSCALARS Gamma U0
        (Cons1D_to_Prim1D MHD ISOTHERMAL NSCALARS Gamma TINY_NUMBER U W0 Bx) Bx)
     U).
Proof.
  intros HG HW HW0 HU HU0; split; intros Hd HP.
  - now apply prim_cons_prim.
  - now apply cons_prim_cons.
Qed.

(** A run of both round trips: adiabatic MHD with one passive scalar,
    [Gamma = 5/3] and the floor [1e-20]. *)
Lemma roundtrip_above_floor_witness :
  let W := Prim1D.mk 2 1 0 0 1 1 0 [1] in
  let W0 := Prim1D.mk 0 0 0 0 0 0 0 [0] in
  let U := Cons1D.mk 2 2 0 0 10 1 0 [2] in
  let U0 := Cons1D.mk 0 0 0 0 0 0 0 [0] in
  Prim1D_eq true false
    (Cons1D_to_Prim1D true false 1 (5 / 3) 1e-20
       (Prim1D_to_Cons1D true false 1 (5 / 3) U0 W 1) W0 1) W
  /\ Cons1D_eq true false
       (Prim1D_to_Cons1D true false 1 (5 / 3) U0
          (Cons1D_to_Prim1D true false 1 (5 / 3) 1e-20 U W0 1) 1) U.
Proof.
  intros W W0 U U0.
  destruct (roundtrip_above_floor true false 1 (5 / 3) 1e-20 W W0 U U0 1)
    as [HW HU]; try reflexivity.
  - intros _; lra.
  - split.
    + apply HW; simpl; [lra | intros _; lra].
    + apply HU; simpl; [lra | intros _].
      unfold pressure, SQR; simpl; lra.
Defined.

(** C4, as stated, fails below the floor: a primitive state with [d = 1] and
    the positive pressure [1e-21] comes back with [P = 1e-20]. *)
Lemma roundtrip_below_floor_counterexample :
  let W := Prim1D.mk 1 0 0 0 1e-21 0 0 [] in
  let U0 := Cons1D.mk 0 0 0 0 0 0 0 [] in
  let W' := Cons1D_to_Prim1D true false 0 (5 / 3) 1e-20
              (Prim1D_to_Cons1D true false 0 (5 / 3) U0 W 0) W 0 in
  0 < Prim1D.d W /\ 0 < Prim1D.P W
  /\ Prim1D.P W' = 1e-20
  /\ W' <> W
  /\ ~ Prim1D_eq true false W' W.
Proof.
  intros W U0 W'.
  assert (HP : Prim1D.P W' = 1e-20).
  { unfold W', Cons1D_to_Prim1D, Prim1D_to_Cons1D, Gamma_1, SQR; simpl.
    apply MAX_below; lra. }
  repeat split.
  - simpl; lra.
  - simpl; lra.
  - exact HP.
  - intros Heq; rewrite Heq in HP; simpl in HP; lra.
  - intros (_ & _ & _ & _ & H & _).
    specialize (H eq_refl); rewrite HP in H; simpl in H; lra.
Qed.

(** ** The fast magnetosonic speed *)

Section FastSpeed.

Variables MHD ISOTHERMAL : bool.
Variables Gamma Iso_csound2 : R.

(** The local [asq] of [cfast] is [a^2]. *)
Lemma cfast_asq (U : Cons1D) (Bx : R) :
  Cons1D.d U <> 0 ->
  (if ISOTHERMAL then Iso_csound2
   else Gamma
        * (Gamma_1 Gamma
           * (Cons1D.E U
              - (if MHD
                 then 0.5 * (SQR Bx + SQR (Cons1D.By U) + SQR (Cons1D.Bz U))
                 else 0)
              - 0.5 * (SQR (Cons1D.Mx U) + SQR (Cons1D.My U) + SQR (Cons1D.Mz U))
                / Cons1D.d U))
        / Cons1D.d U)
  = a_sq MHD ISOTHERMAL Gamma Iso_csound2 U Bx.
Proof.
  intros Hd.
  unfold a_sq, pressure, Gamma_1, SQR.
  destruct ISOTHERMAL; [reflexivity|].
  destruct MHD; dfield; assumption.
Qed.

(** What [cfast] returns, in terms of [a^2], [b^2] and [b_perp^2]. *)
Lemma cfast_value (U : Cons1D) (Bx : R) :
  Cons1D.d U <> 0 ->
  cfast MHD ISOTHERMAL Gamma Iso_csound2 U Bx =
  let a2 := a_sq MHD ISOTHERMAL Gamma Iso_csound2 U Bx in
  let b2 := b_sq U Bx in
  let bp2 := b_perp_sq U in
  if MHD
  then sqrt (0.5 * ((a2 + bp2 + b2)
                    + sqrt ((b2 + bp2 - a2) * (b2 + bp2 - a2) + 4 * a2 * bp2)))
  else sqrt a2.
Proof.
  intros Hd.
  unfold cfast.
  rewrite (cfast_asq U Bx Hd).
  reflexivity.
Qed.

End FastSpeed.

(** C2, as amended.  For every conserved 1-D state [U] with [d > 0] and
    interface field [Bx], [cfast] returns, under MHD,
    [sqrt (1/2 * ((a^2+b^2+b_perp^2)
                  + sqrt ((a^2+b^2+b_perp^2)^2 - 4*a^2*b^2)))]
    where [a^2 = gamma*P/rho], [b^2 = Bx^2/rho] and
    [b_perp^2 = (By^2+Bz^2)/rho]; without MHD it returns [sqrt (a^2)]; in the
    isothermal case [a^2] is the constant isothermal sound speed squared. *)
Theorem cfast_normal_field
    (MHD ISOTHERMAL : bool) (Gamma Iso_csound2 : R) (U : Cons1D) (Bx : R) :
  0 < Cons1D.d U ->
  cfast MHD ISOTHERMAL Gamma Iso_csound2 U Bx
  = cfast_normal MHD ISOTHERMAL Gamma Iso_csound2 U Bx
  /\ (MHD = false ->
      cfast MHD ISOTHERMAL Gamma Iso_csound2 U Bx
      = sqrt (a_sq MHD ISOTHERMAL Gamma Iso_csound2 U Bx))
  /\ (ISOTHERMAL = true ->
      a_sq MHD ISOTHERMAL Gamma Iso_csound2 U Bx = Iso_csound2).
Proof.
  intros Hd.
  assert (Hd0 : Cons1D.d U <> 0) by lra.
  rewrite (cfast_value MHD ISOTHERMAL Gamma Iso_csound2 U Bx Hd0).
  split; [|split].
  - unfold cfast_normal; cbv zeta.
    destruct MHD; [|reflexivity].
    f_equal.
    rewrite half_eq.
    replace (SQR (a_sq true ISOTHERMAL Gamma Iso_csound2 U Bx + b_sq U Bx + b_perp_sq U)
             - 4 * a_sq true ISOTHERMAL Gamma Iso_csound2 U Bx * b_sq U Bx)
      with ((b_sq U Bx + b_perp_sq U - a_sq true ISOTHERMAL Gamma Iso_csound2 U Bx)
            * (b_sq U Bx + b_perp_sq U - a_sq true ISOTHERMAL Gamma Iso_csound2 U Bx)
            + 4 * a_sq true ISOTHERMAL Gamma Iso_csound2 U Bx * b_perp_sq U)
      by (unfold SQR; ring).
    lra.
  - intros ->; reflexivity.
  - intros ->; reflexivity.
Qed.

(** A run of [cfast]: adiabatic MHD, [Gamma = 5/3], a state at rest with
    [Bx = 2] and [By = 3]. *)
Lemma cfast_normal_field_witness :
  let U := Cons1D.mk 1 0 0 0 (161 / 10) 3 0 [] in
  cfast true false (5 / 3) 0 U 2 = cfast_normal true false (5 / 3) 0 U 2.
Proof.
  intros U.
  apply (cfast_normal_field true false (5 / 3) 0 U 2).
  simpl; lra.
Defined.

(** C2, as stated, fails: for [d = 1], [Bx = 4], [By = Bz = 0] and
    [a^2 = 9] the code returns 4 whereas the formula with [4 a^2 b_perp^2]
    under the inner root gives 5. *)
Lemma cfast_spec_counterexample :
  let U := Cons1D.mk 1 0 0 0 (161 / 10) 0 0 [] in
  0 < Cons1D.d U
  /\ cfast true false (5 / 3) 0 U 4 = 4
  /\ cfast_spec true false (5 / 3) 0 U 4 = 5
  /\ cfast true false (5 / 3) 0 U 4 <> cfast_spec true false (5 / 3) 0 U 4.
Proof.
  intros U.
  assert (Hd : Cons1D.d U <> 0) by (simpl; lra).
  assert (Ha : a_sq true false (5 / 3) 0 U 4 = 9).
  { unfold a_sq, pressure, SQR; simpl; lra. }
  assert (Hb : b_sq U 4 = 16) by (unfold b_sq, SQR; simpl; lra).
  assert (Hp : b_perp_sq U = 0) by (unfold b_perp_sq, SQR; simpl; lra).
  assert (Hcode : cfast true false (5 / 3) 0 U 4 = 4).
  { rewrite (cfast_value true false (5 / 3) 0 U 4 Hd); cbv zeta.
    rewrite Ha, Hb, Hp.
    replace ((16 + 0 - 9) * (16 + 0 - 9) + 4 * 9 * 0) with (7 * 7) by lra.
    rewrite sqrt_square by lra.
    replace (0.5 * (9 + 0 + 16 + 7)) with (4 * 4) by lra.
    apply sqrt_square; lra. }
  assert (Hspec : cfast_spec true false (5 / 3) 0 U 4 = 5).
  { unfold cfast_spec; cbv zeta.
    rewrite Ha, Hb, Hp.
    replace (SQR (9 + 16 + 0) - 4 * 9 * 0) with (25 * 25) by (unfold SQR; lra).
    rewrite sqrt_square by lra.
    replace (1 / 2 * (9 + 16 + 0 + 25)) with (5 * 5) by lra.
    apply sqrt_square; lra. }
  repeat split.
  - simpl; lra.
  - exact Hcode.
  - exact Hspec.
  - rewrite Hcode, Hspec; lra.
Qed.

(** ** Counted loops *)

Section Loops.

Context {S T : Type}.
Variable body : Z -> S -> S.

(** An observation that no iteration changes survives the loop. *)
Lemma for_iter_preserve (obs : S -> T) (n : nat) :
  forall lo s,
    (forall i s, (lo <= i < lo + Z.of_nat n)%Z -> obs (body i s) = obs s) ->
    obs (for_iter n lo body s) = obs s.
Proof.
  induction n as [|n IH]; intros lo s Hbody; simpl.
  - reflexivity.
  - rewrite IH.
    + apply Hbody; lia.
    + intros i s' Hi; apply Hbody; lia.
Qed.

Lemma for_loop_preserve (obs : S -> T) (lo hi : Z) (s : S) :
  (forall i s, obs (body i s) = obs s) ->
  obs (for_loop lo hi body s) = obs s.
Proof.
  intros Hbody; unfold for_loop; apply for_iter_preserve; auto.
Qed.

(** A loop whose iteration [x] alone adds [delta] to a real-valued
    observation adds [delta] once if [x] is met and nothing otherwise. *)
Lemma for_iter_hit (obs : S -> R) (delta : R) (hit : Z -> bool)
      (x : Z) (c : bool) (n : nat) :
  (forall i s, obs (body i s) = obs s + (if hit i then delta else 0)) ->
  (forall i, hit i = (i =? x)%Z && c) ->
  forall lo s,
    obs (for_iter n lo body s)
    = obs s + (if (lo <=? x)%Z && (x <? lo + Z.of_nat n)%Z && c
               then delta else 0).
Proof.
  intros Hbody Hhit; induction n as [|n IH]; intros lo s.
  - simpl for_iter.
    destruct c; rewrite ?andb_true_r, ?andb_false_r; [|lra].
    destruct (Z.leb_spec lo x), (Z.ltb_spec x (lo + Z.of_nat 0)); simpl;
      try lra; lia.
  - simpl for_iter.
    rewrite IH, Hbody, Hhit.
    destruct c; rewrite ?andb_true_r, ?andb_false_r; [|lra].
    destruct (Z.eqb_spec lo x), (Z.leb_spec (lo + 1) x),
      (Z.ltb_spec x (lo + 1 + Z.of_nat n)), (Z.leb_spec lo x),
      (Z.ltb_spec x (lo + Z.of_nat (Datatypes.S n))); simpl; try lra; lia.
Qed.

Lemma for_loop_hit (obs : S -> R) (delta : R) (hit : Z -> bool)
      (x : Z) (c : bool) (lo hi : Z) (s : S) :
  (forall i s, obs (body i s) = obs s + (if hit i then delta else 0)) ->
  (forall i, hit i = (i =? x)%Z && c) ->
  obs (for_loop lo hi body s)
  = obs s + (if in_range lo hi x && c then delta else 0).
Proof.
  intros Hbody Hhit; unfold for_loop.
  rewrite (for_iter_hit obs delta hit x c _ Hbody Hhit).
  f_equal.
  replace ((lo <=? x)%Z && (x <? lo + Z.of_nat (Z.to_nat (hi + 1 - lo)))%Z)
    with (in_range lo hi x); [reflexivity|].
  unfold in_range.
  destruct (Z.leb_spec lo x), (Z.leb_spec x hi),
    (Z.ltb_spec x (lo + Z.of_nat (Z.to_nat (hi + 1 - lo)))); simpl;
    try reflexivity; lia.
Qed.

(** A loop whose iteration [x] alone stores [v] where the observation
    looks leaves [v] there once [x] has been met. *)
Lemma for_iter_store (obs : S -> T) (v : T) (x : Z) (n : nat) :
  (forall s, obs (body x s) = v) ->
  (forall i s, i <> x -> obs (body i s) = obs s) ->
  forall lo s,
    (lo <= x < lo + Z.of_nat n)%Z ->
    obs (for_iter n lo body s) = v.
Proof.
  intros Hx Hother; induction n as [|n IH]; intros lo s Hin.
  - lia.
  - simpl for_iter.
    destruct (Z.eq_dec lo x) as [->|Hne].
    + rewrite for_iter_preserve; auto.
      intros i s' Hi; apply Hother; lia.
    + apply IH; lia.
Qed.

Lemma for_loop_store (obs : S -> T) (v : T) (x lo hi : Z) (s : S) :
  (forall s, obs (body x s) = v) ->
  (forall i s, i <> x -> obs (body i s) = obs s) ->
  (lo <= x <= hi)%Z ->
  obs (for_loop lo hi body s) = v.
Proof.
  intros Hx Hother Hin; unfold for_loop.
  apply (for_iter_store obs v x); auto; lia.
Qed.

End Loops.

(** ** The constrained-transport update of Step 11 *)

Lemma same_index_eq (k j i k' j' i' : Z) :
  same_index k j i k' j' i' = true -> k = k' /\ j = j' /\ i = i'.
Proof.
  unfold same_index; intros H.
  apply andb_true_iff in H as [H Hi].
  apply andb_true_iff in H as [Hk Hj].
  apply Z.eqb_eq in Hk, Hj, Hi; auto.
Qed.

Lemma arr3_add_get (a : arr3 R) (k j i : Z) (v : R) (k' j' i' : Z) :
  arr3_add a k j i v k' j' i'
  = a k' j' i' + (if same_index k j i k' j' i' then v else 0).
Proof.
  unfold arr3_add, arr3_set.
  destruct (same_index k j i k' j' i') eqn:E.
  - apply same_index_eq in E as (-> & -> & ->); reflexivity.
  - lra.
Qed.

Section CTUpdate.

Variable nghost : Z.
Variable order : Order.
Variable g : Grid.
Variables emf1 emf2 emf3 : arr3 R.

(** The face under observation. *)
Variables k' j' i' : Z.

Local Abbreviation ib := (ib nghost order g).
Local Abbreviation it := (it nghost order g).
Local Abbreviation jb := (jb nghost order g).
Local Abbreviation jt := (jt nghost order g).
Local Abbreviation kb := (kb nghost order g).
Local Abbreviation kt := (kt nghost order g).

Lemma add_B1i_hit (s : Grid) (k j i : Z) :
  B1i (add_B1i s k j i (ct_B1i g emf2 emf3 k j i)) k' j' i'
  = B1i s k' j' i'
    + (if same_index k j i k' j' i' then ct_B1i g emf2 emf3 k' j' i' else 0).
Proof.
  unfold add_B1i; cbn [B1i with_B1i].
  rewrite arr3_add_get.
  destruct (same_index k j i k' j' i') eqn:E; [|reflexivity].
  apply same_index_eq in E as (-> & -> & ->); reflexivity.
Qed.

Lemma add_B2i_hit (s : Grid) (k j i : Z) :
  B2i (add_B2i s k j i (ct_B2i g emf1 emf3 k j i)) k' j' i'
  = B2i s k' j' i'
    + (if same_index k j i k' j' i' then ct_B2i g emf1 emf3 k' j' i' else 0).
Proof.
  unfold add_B2i; cbn [B2i with_B2i].
  rewrite arr3_add_get.
  destruct (same_index k j i k' j' i') eqn:E; [|reflexivity].
  apply same_index_eq in E as (-> & -> & ->); reflexivity.
Qed.

Lemma add_B3i_hit (s : Grid) (k j i : Z) :
  B3i (add_B3i s k j i (ct_B3i g emf1 emf2 k j i)) k' j' i'
  = B3i s k' j' i'
    + (if same_index k j i k' j' i' then ct_B3i g emf1 emf2 k' j' i' else 0).
Proof.
  unfold add_B3i; cbn [B3i with_B3i].
  rewrite arr3_add_get.
  destruct (same_index k j i k' j' i') eqn:E; [|reflexivity].
  apply same_index_eq in E as (-> & -> & ->); reflexivity.
Qed.

(** Each [B1i] face in [advanced_B1i] receives its increment once, every
    other [B1i] face is left as it was. *)
Lemma step11_B1i :
  B1i (integrate_3d_vl_step11 nghost order g emf1 emf2 emf3) k' j' i'
  = B1i g k' j' i'
    + (if advanced_B1i nghost order g k' j' i'
       then ct_B1i g emf2 emf3 k' j' i' else 0).
Proof.
  unfold integrate_3d_vl_step11; cbv zeta.
  rewrite (for_loop_preserve _ (fun s => B1i s k' j' i')).
  2:{ intros j s. apply (for_loop_preserve _ (fun s => B1i s k' j' i')).
      reflexivity. }
  unfold advanced_B1i.
  rewrite <- andb_assoc.
  apply (for_loop_hit _ (fun s => B1i s k' j' i') _
           (fun k => (k =? k')%Z
                     && (in_range (jb + 1) (jt - 1) j'
                         && (in_range (ib + 1) (it - 1) i' || (i' =? it)%Z)))).
  2:{ reflexivity. }
  intros k s.
  rewrite (for_loop_preserve _ (fun s => B1i s k' j' i')) by reflexivity.
  rewrite (for_loop_hit _ (fun s => B1i s k' j' i')
             (ct_B1i g emf2 emf3 k' j' i')
             (fun j => (j =? j')%Z
                       && ((k =? k')%Z
                           && (in_range (ib + 1) (it - 1) i' || (i' =? it)%Z)))
             j' ((k =? k')%Z
                 && (in_range (ib + 1) (it - 1) i' || (i' =? it)%Z))).
  - f_equal.
    destruct (k =? k')%Z, (in_range (jb + 1) (jt - 1) j'),
      (in_range (ib + 1) (it - 1) i' || (i' =? it)%Z); reflexivity.
  - intros j s0.
    rewrite add_B1i_hit.
    rewrite (for_loop_hit _ (fun s => B1i s k' j' i')
               (ct_B1i g emf2 emf3 k' j' i')
               (fun i => same_index k j i k' j' i')
               i' ((k =? k')%Z && (j =? j')%Z)).
    + unfold same_index, in_range.
      destruct (Z.eqb_spec k k'), (Z.eqb_spec j j'), (Z.eqb_spec it i'),
        (Z.eqb_spec i' it), (Z.leb_spec (ib + 1) i'),
        (Z.leb_spec i' (it - 1)); simpl; try lra; lia.
    + intros i s1.
      rewrite <- add_B1i_hit.
      reflexivity.
    + intros i; unfold same_index.
      destruct (k =? k')%Z, (j =? j')%Z, (i =? i')%Z; reflexivity.
  - reflexivity.
Qed.

(** The same for the [B2i] faces in [advanced_B2i]. *)
Lemma step11_B2i :
  B2i (integrate_3d_vl_step11 nghost order g emf1 emf2 emf3) k' j' i'
  = B2i g k' j' i'
    + (if advanced_B2i nghost order g k' j' i'
       then ct_B2i g emf1 emf3 k' j' i' else 0).
Proof.
  unfold integrate_3d_vl_step11; cbv zeta.
  rewrite (for_loop_preserve _ (fun s => B2i s k' j' i')).
  2:{ intros j s. apply (for_loop_preserve _ (fun s => B2i s k' j' i')).
      reflexivity. }
  unfold advanced_B2i.
  rewrite <- andb_assoc.
  apply (for_loop_hit _ (fun s => B2i s k' j' i') _
           (fun k => (k =? k')%Z
                     && (in_range (ib + 1) (it - 1) i'
                         && (in_range (jb + 1) (jt - 1) j' || (j' =? jt)%Z)))).
  2:{ reflexivity. }
  intros k s.
  rewrite (for_loop_hit _ (fun s => B2i s k' j' i')
             (ct_B2i g emf1 emf3 k' j' i')
             (fun i => same_index k jt i k' j' i')
             i' ((k =? k')%Z && (jt =? j')%Z)).
  2:{ intros i s0; apply add_B2i_hit. }
  2:{ intros i; unfold same_index.
      destruct (k =? k')%Z, (jt =? j')%Z, (i =? i')%Z; reflexivity. }
  rewrite (for_loop_hit _ (fun s => B2i s k' j' i')
             (ct_B2i g emf1 emf3 k' j' i')
             (fun j => (j =? j')%Z
                       && ((k =? k')%Z && in_range (ib + 1) (it - 1) i'))
             j' ((k =? k')%Z && in_range (ib + 1) (it - 1) i')).
  - unfold in_range.
    destruct (Z.eqb_spec k k'), (Z.eqb_spec jt j'), (Z.eqb_spec j' jt),
      (Z.leb_spec (jb + 1) j'), (Z.leb_spec j' (jt - 1)),
      (Z.leb_spec (ib + 1) i'), (Z.leb_spec i' (it - 1)); simpl;
      try lra; lia.
  - intros j s0.
    change (B2i (add_B1i ?x _ _ _ _) k' j' i') with (B2i x k' j' i').
    rewrite (for_loop_hit _ (fun s => B2i s k' j' i')
               (ct_B2i g emf1 emf3 k' j' i')
               (fun i => same_index k j i k' j' i')
               i' ((k =? k')%Z && (j =? j')%Z)).
    + f_equal.
      destruct (k =? k')%Z, (j =? j')%Z, (in_range (ib + 1) (it - 1) i');
        reflexivity.
    + intros i s1.
      rewrite <- add_B2i_hit.
      reflexivity.
    + intros i; unfold same_index.
      destruct (k =? k')%Z, (j =? j')%Z, (i =? i')%Z; reflexivity.
  - reflexivity.
Qed.

(** The same for the [B3i] faces in [advanced_B3i]. *)
Lemma step11_B3i :
  B3i (integrate_3d_vl_step11 nghost order g emf1 emf2 emf3) k' j' i'
  = B3i g k' j' i'
    + (if advanced_B3i nghost order g k' j' i'
       then ct_B3i g emf1 emf2 k' j' i' else 0).
Proof.
  unfold integrate_3d_vl_step11; cbv zeta.
  rewrite (for_loop_hit _ (fun s => B3i s k' j' i')
             (ct_B3i g emf1 emf2 k' j' i')
             (fun j => (j =? j')%Z
                       && (in_range (ib + 1) (it - 1) i' && (kt =? k')%Z))
             j' (in_range (ib + 1) (it - 1) i' && (kt =? k')%Z)).
  2:{ intros j s.
      rewrite (for_loop_hit _ (fun s => B3i s k' j' i')
                 (ct_B3i g emf1 emf2 k' j' i')
                 (fun i => same_index kt j i k' j' i')
                 i' ((kt =? k')%Z && (j =? j')%Z)).
      - f_equal.
        destruct (kt =? k')%Z, (j =? j')%Z, (in_range (ib + 1) (it - 1) i');
          reflexivity.
      - intros i s0; apply add_B3i_hit.
      - intros i; unfold same_index.
        destruct (kt =? k')%Z, (j =? j')%Z, (i =? i')%Z; reflexivity. }
  2:{ reflexivity. }
  rewrite (for_loop_hit _ (fun s => B3i s k' j' i')
             (ct_B3i g emf1 emf2 k' j' i')
             (fun k => (k =? k')%Z
                       && (in_range (jb + 1) (jt - 1) j'
                           && in_range (ib + 1) (it - 1) i'))
             k' (in_range (jb + 1) (jt - 1) j'
                 && in_range (ib + 1) (it - 1) i')).
  - unfold advanced_B3i, in_range.
    destruct (Z.eqb_spec kt k'), (Z.eqb_spec k' kt),
      (Z.leb_spec (kb + 1) k'), (Z.leb_spec k' (kt - 1)),
      (Z.leb_spec (jb + 1) j'), (Z.leb_spec j' (jt - 1)),
      (Z.leb_spec (ib + 1) i'), (Z.leb_spec i' (it - 1)); simpl;
      try lra; lia.
  - intros k s.
    rewrite (for_loop_preserve _ (fun s => B3i s k' j' i')) by reflexivity.
    rewrite (for_loop_hit _ (fun s => B3i s k' j' i')
               (ct_B3i g emf1 emf2 k' j' i')
               (fun j => (j =? j')%Z
                         && ((k =? k')%Z && in_range (ib + 1) (it - 1) i'))
               j' ((k =? k')%Z && in_range (ib + 1) (it - 1) i')).
    + f_equal.
      destruct (k =? k')%Z, (in_range (jb + 1) (jt - 1) j'),
        (in_range (ib + 1) (it - 1) i'); reflexivity.
    + intros j s0.
      change (B3i (add_B1i ?x _ _ _ _) k' j' i') with (B3i x k' j' i').
      rewrite (for_loop_hit _ (fun s => B3i s k' j' i')
                 (ct_B3i g emf1 emf2 k' j' i')
                 (fun i => same_index k j i k' j' i')
                 i' ((k =? k')%Z && (j =? j')%Z)).
      * f_equal.
        destruct (k =? k')%Z, (j =? j')%Z, (in_range (ib + 1) (it - 1) i');
          reflexivity.
      * intros i s1.
        rewrite <- add_B3i_hit.
        reflexivity.
      * intros i; unfold same_index.
        destruct (k =? k')%Z, (j =? j')%Z, (i =? i')%Z; reflexivity.
    + reflexivity.
  - reflexivity.
Qed.

(** Whatever the three [+=] leave alone, Step 11 leaves alone. *)
Lemma step11_preserve {T : Type} (obs : Grid -> T) :
  (forall s k j i v, obs (add_B1i s k j i v) = obs s) ->
  (forall s k j i v, obs (add_B2i s k j i v) = obs s) ->
  (forall s k j i v, obs (add_B3i s k j i v) = obs s) ->
  obs (integrate_3d_vl_step11 nghost order g emf1 emf2 emf3) = obs g.
Proof.
  intros H1 H2 H3.
  unfold integrate_3d_vl_step11; cbv zeta.
  rewrite (for_loop_preserve _ obs).
  2:{ intros j s; apply (for_loop_preserve _ obs); intros i s0; apply H3. }
  apply (for_loop_preserve _ obs); intros k s.
  rewrite (for_loop_preserve _ obs) by (intros i s0; apply H2).
  apply (for_loop_preserve _ obs); intros j s0.
  rewrite H1.
  apply (for_loop_preserve _ obs); intros i s1.
  now rewrite H3, H2, H1.
Qed.

(** Step 11 leaves the cell sizes alone. *)
Lemma step11_dx :
  let g' := integrate_3d_vl_step11 nghost order g emf1 emf2 emf3 in
  dx1 g' = dx1 g /\ dx2 g' = dx2 g /\ dx3 g' = dx3 g.
Proof.
  cbv zeta; repeat split; apply step11_preserve; reflexivity.
Qed.

End CTUpdate.

(** The cells all of whose faces are written are those of the inner window
    [kb+1..kt-1] x [jb+1..jt-1] x [ib+1..it-1]. *)
Lemma cell_advanced_window (nghost : Z) (order : Order) (g : Grid) (k j i : Z) :
  cell_advanced nghost order g k j i
  = in_range (kb nghost order g + 1) (kt nghost order g - 1) k
    && in_range (jb nghost order g + 1) (jt nghost order g - 1) j
    && in_range (ib nghost order g + 1) (it nghost order g - 1) i.
Proof.
  unfold cell_advanced, advanced_B1i, advanced_B2i, advanced_B3i, in_range.
  generalize (kb nghost order g) (kt nghost order g) (jb nghost order g)
    (jt nghost order g) (ib nghost order g) (it nghost order g).
  intros kb kt jb jt ib it.
  destruct (Z.leb_spec (kb + 1) k), (Z.leb_spec k (kt - 1)),
    (Z.leb_spec (jb + 1) j), (Z.leb_spec j (jt - 1)),
    (Z.leb_spec (ib + 1) i), (Z.leb_spec i (it - 1)); simpl;
    rewrite ?andb_false_r; try reflexivity.
  destruct (Z.leb_spec (kb + 1) (k + 1)), (Z.leb_spec (k + 1) (kt - 1)),
    (Z.leb_spec (jb + 1) (j + 1)), (Z.leb_spec (j + 1) (jt - 1)),
    (Z.leb_spec (ib + 1) (i + 1)), (Z.leb_spec (i + 1) (it - 1)),
    (Z.eqb_spec i it), (Z.eqb_spec (i + 1) it),
    (Z.eqb_spec j jt), (Z.eqb_spec (j + 1) jt),
    (Z.eqb_spec k kt), (Z.eqb_spec (k + 1) kt); simpl; try reflexivity; lia.
Qed.

(** C1.  For every grid state and every corner EMFs, on every cell whose six
    bounding faces are all advanced by the full-step constrained-transport
    update of Step 11 of [integrate_3d_vl], the discrete divergence
    [(B1i[k][j][i+1]-B1i[k][j][i])/dx1 + (B2i[k][j+1][i]-B2i[k][j][i])/dx2
     + (B3i[k+1][j][i]-B3i[k][j][i])/dx3] after the update equals its value
    before the update; in particular a vanishing divergence stays zero. *)
Theorem step11_preserves_divB
    (nghost : Z) (order : Order) (g : Grid) (emf1 emf2 emf3 : arr3 R)
    (k j i : Z) :
  cell_advanced nghost order g k j i = true ->
  divB (integrate_3d_vl_step11 nghost order g emf1 emf2 emf3) k j i
  = divB g k j i
  /\ (divB g k j i = 0 ->
      divB (integrate_3d_vl_step11 nghost order g emf1 emf2 emf3) k j i = 0).
Proof.
  intros Hcell.
  assert (Hdiv : divB (integrate_3d_vl_step11 nghost order g emf1 emf2 emf3) k j i
                 = divB g k j i).
  { unfold cell_advanced in Hcell.
    apply andb_true_iff in Hcell as [Hcell H3b].
    apply andb_true_iff in Hcell as [Hcell H3a].
    apply andb_true_iff in Hcell as [Hcell H2b].
    apply andb_true_iff in Hcell as [Hcell H2a].
    apply andb_true_iff in Hcell as [H1a H1b].
    unfold divB.
    destruct (step11_dx nghost order g emf1 emf2 emf3) as (-> & -> & ->).
    rewrite !step11_B1i, !step11_B2i, !step11_B3i.
    rewrite H1a, H1b, H2a, H2b, H3a, H3b.
    unfold ct_B1i, ct_B2i, ct_B3i, dtodx1, dtodx2, dtodx3, Rdiv.
    ring. }
  split; [exact Hdiv | intros H0; now rewrite Hdiv].
Qed.

(** A run of Step 11 on a block with [is = js = ks = 4], [ie = je = ke = 7],
    four ghost zones and second-order reconstruction: the cell [(5,5,5)]
    lies in the inner window. *)
Lemma step11_preserves_divB_witness :
  let g := mkGrid 4 7 4 7 4 7 1 1 2 4
             (fun k j i => IZR i) (fun k j i => IZR (k * j))
             (fun k j i => IZR (i - k)) in
  let emf1 : arr3 R := fun k j i => IZR (k * i) in
  let emf2 : arr3 R := fun k j i => IZR (j * j) in
  let emf3 : arr3 R := fun k j i => IZR (k + j * i) in
  divB (integrate_3d_vl_step11 4 SECOND_ORDER g emf1 emf2 emf3) 5 5 5
  = divB g 5 5 5.
Proof.
  intros g emf1 emf2 emf3.
  apply (step11_preserves_divB 4 SECOND_ORDER g emf1 emf2 emf3 5 5 5).
  reflexivity.
Defined.

(** ** The corner EMFs *)

Section StoreLoops.

Variable f : Z -> Z -> Z -> R.

Lemma arr3_set_same (a : arr3 R) (k j i : Z) (v : R) :
  arr3_set a k j i v k j i = v.
Proof.
  unfold arr3_set, same_index; now rewrite !Z.eqb_refl.
Qed.

Lemma arr3_set_other (a : arr3 R) (k j i : Z) (v : R) (k' j' i' : Z) :
  k <> k' \/ j <> j' \/ i <> i' ->
  arr3_set a k j i v k' j' i' = a k' j' i'.
Proof.
  intros H; unfold arr3_set.
  destruct (same_index k j i k' j' i') eqn:E; [|reflexivity].
  apply same_index_eq in E; tauto.
Qed.

(** A nest of three loops that stores [f k j i] into every cell of its
    window leaves [f k j i] in each cell of the window. *)
Lemma store_loop3 (klo khi jlo jhi ilo ihi : Z) (a : arr3 R) (k j i : Z) :
  (klo <= k <= khi)%Z -> (jlo <= j <= jhi)%Z -> (ilo <= i <= ihi)%Z ->
  for_loop klo khi (fun k a =>
    for_loop jlo jhi (fun j a =>
      for_loop ilo ihi (fun i a =>
        arr3_set a k j i (f k j i)) a) a) a k j i
  = f k j i.
Proof.
  intros Hk Hj Hi.
  apply (for_loop_store _ (fun a : arr3 R => a k j i) (f k j i) k); auto.
  - intros a0.
    apply (for_loop_store _ (fun a : arr3 R => a k j i) (f k j i) j); auto.
    + intros a1.
      apply (for_loop_store _ (fun a : arr3 R => a k j i) (f k j i) i); auto.
      * intros a2; apply arr3_set_same.
      * intros i0 a2 Hne; apply arr3_set_other; auto.
    + intros j0 a1 Hne.
      apply (for_loop_preserve _ (fun a : arr3 R => a k j i)).
      intros i0 a2; apply arr3_set_other; auto.
  - intros k0 a0 Hne.
    apply (for_loop_preserve _ (fun a : arr3 R => a k j i)).
    intros j0 a1.
    apply (for_loop_preserve _ (fun a : arr3 R => a k j i)).
    intros i0 a2; apply arr3_set_other; auto.
Qed.

End StoreLoops.

Section CornerEmfFacts.

Variable nghost : Z.
Variable g : Grid.
Variables x1Flux x2Flux x3Flux : arr3 Cons1D.
Variables emf1_cc emf2_cc emf3_cc : arr3 R.

(** Every corner of the loop window of [integrate_emf2_corner] receives
    [emf2_corner]. *)
Lemma integrate_emf2_corner_value (emf2 : arr3 R) (k j i : Z) :
  (kl nghost g + 1 <= k <= ku nghost g)%Z ->
  (jl nghost g + 1 <= j <= ju nghost g - 1)%Z ->
  (il nghost g + 1 <= i <= iu nghost g)%Z ->
  integrate_emf2_corner nghost g x1Flux x3Flux emf2_cc emf2 k j i
  = emf2_corner x1Flux x3Flux emf2_cc k j i.
Proof.
  intros Hk Hj Hi; unfold integrate_emf2_corner.
  now apply (store_loop3 (emf2_corner x1Flux x3Flux emf2_cc)).
Qed.

Lemma integrate_emf1_corner_value (emf1 : arr3 R) (k j i : Z) :
  (kl nghost g + 1 <= k <= ku nghost g)%Z ->
  (jl nghost g + 1 <= j <= ju nghost g)%Z ->
  (il nghost g + 1 <= i <= iu nghost g - 1)%Z ->
  integrate_emf1_corner nghost g x2Flux x3Flux emf1_cc emf1 k j i
  = emf1_corner x2Flux x3Flux emf1_cc k j i.
Proof.
  intros Hk Hj Hi; unfold integrate_emf1_corner.
  now apply (store_loop3 (emf1_corner x2Flux x3Flux emf1_cc)).
Qed.

Lemma integrate_emf3_corner_value (emf3 : arr3 R) (k j i : Z) :
  (kl nghost g + 1 <= k <= ku nghost g - 1)%Z ->
  (jl nghost g + 1 <= j <= ju nghost g)%Z ->
  (il nghost g + 1 <= i <= iu nghost g)%Z ->
  integrate_emf3_corner nghost g x1Flux x2Flux emf3_cc emf3 k j i
  = emf3_corner x1Flux x2Flux emf3_cc k j i.
Proof.
  intros Hk Hj Hi; unfold integrate_emf3_corner.
  now apply (store_loop3 (emf3_corner x1Flux x2Flux emf3_cc)).
Qed.

Ltac by_sign :=
  unfold upwind_select;
  repeat match goal with
         | |- context [Rgt_dec ?x ?y] => destruct (Rgt_dec x y)
         | |- context [Rlt_dec ?x ?y] => destruct (Rlt_dec x y)
         end; lra.

(** In [integrate_emf1_corner] the four correction terms follow the sign
    of the mass flux, with the mean of the two differences at zero. *)
Lemma de1_upwind (k j i : Z) :
  de1_l3 x2Flux x3Flux emf1_cc k j i
  = upwind_select (Cons1D.d (x2Flux (k - 1)%Z j i))
      (Cons1D.Bz (x3Flux k (j - 1)%Z i) - emf1_cc (k - 1)%Z (j - 1)%Z i)
      (Cons1D.Bz (x3Flux k j i) - emf1_cc (k - 1)%Z j i)
  /\ de1_r3 x2Flux x3Flux emf1_cc k j i
     = upwind_select (Cons1D.d (x2Flux k j i))
         (Cons1D.Bz (x3Flux k (j - 1)%Z i) - emf1_cc k (j - 1)%Z i)
         (Cons1D.Bz (x3Flux k j i) - emf1_cc k j i)
  /\ de1_l2 x2Flux x3Flux emf1_cc k j i
     = upwind_select (Cons1D.d (x3Flux k (j - 1)%Z i))
         (- Cons1D.By (x2Flux (k - 1)%Z j i) - emf1_cc (k - 1)%Z (j - 1)%Z i)
         (- Cons1D.By (x2Flux k j i) - emf1_cc k (j - 1)%Z i)
  /\ de1_r2 x2Flux x3Flux emf1_cc k j i
     = upwind_select (Cons1D.d (x3Flux k j i))
         (- Cons1D.By (x2Flux (k - 1)%Z j i) - emf1_cc (k - 1)%Z j i)
         (- Cons1D.By (x2Flux k j i) - emf1_cc k j i).
Proof.
  unfold de1_l3, de1_r3, de1_l2, de1_r2; repeat split; by_sign.
Qed.

(** In [integrate_emf3_corner] likewise. *)
Lemma de3_upwind (k j i : Z) :
  de3_l2 x1Flux x2Flux emf3_cc k j i
  = upwind_select (Cons1D.d (x1Flux k (j - 1)%Z i))
      (Cons1D.Bz (x2Flux k j (i - 1)%Z) - emf3_cc k (j - 1)%Z (i - 1)%Z)
      (Cons1D.Bz (x2Flux k j i) - emf3_cc k (j - 1)%Z i)
  /\ de3_r2 x1Flux x2Flux emf3_cc k j i
     = upwind_select (Cons1D.d (x1Flux k j i))
         (Cons1D.Bz (x2Flux k j (i - 1)%Z) - emf3_cc k j (i - 1)%Z)
         (Cons1D.Bz (x2Flux k j i) - emf3_cc k j i)
  /\ de3_l1 x1Flux x2Flux emf3_cc k j i
     = upwind_select (Cons1D.d (x2Flux k j (i - 1)%Z))
         (- Cons1D.By (x1Flux k (j - 1)%Z i) - emf3_cc k (j - 1)%Z (i - 1)%Z)
         (- Cons1D.By (x1Flux k j i) - emf3_cc k j (i - 1)%Z)
  /\ de3_r1 x1Flux x2Flux emf3_cc k j i
     = upwind_select (Cons1D.d (x2Flux k j i))
         (- Cons1D.By (x1Flux k (j - 1)%Z i) - emf3_cc k (j - 1)%Z i)
         (- Cons1D.By (x1Flux k j i) - emf3_cc k j i).
Proof.
  unfold de3_l2, de3_r2, de3_l1, de3_r1; repeat split; by_sign.
Qed.

(** In [integrate_emf2_corner] three of the four terms do the same, and
    so does [de2_r1] as long as the mass flux [x3Flux[k][j][i].d] is not
    zero. *)
Lemma de2_upwind (k j i : Z) :
  de2_l3 x1Flux x3Flux emf2_cc k j i
  = upwind_select (Cons1D.d (x1Flux (k - 1)%Z j i))
      (- Cons1D.By (x3Flux k j (i - 1)%Z) - emf2_cc (k - 1)%Z j (i - 1)%Z)
      (- Cons1D.By (x3Flux k j i) - emf2_cc (k - 1)%Z j i)
  /\ de2_r3 x1Flux x3Flux emf2_cc k j i
     = upwind_select (Cons1D.d (x1Flux k j i))
         (- Cons1D.By (x3Flux k j (i - 1)%Z) - emf2_cc k j (i - 1)%Z)
         (- Cons1D.By (x3Flux k j i) - emf2_cc k j i)
  /\ de2_l1 x1Flux x3Flux emf2_cc k j i
     = upwind_select (Cons1D.d (x3Flux k j (i - 1)%Z))
         (Cons1D.Bz (x1Flux (k - 1)%Z j i) - emf2_cc (k - 1)%Z j (i - 1)%Z)
         (Cons1D.Bz (x1Flux k j i) - emf2_cc k j (i - 1)%Z)
  /\ (Cons1D.d (x3Flux k j i) <> 0 ->
      de2_r1 x1Flux x3Flux emf2_cc k j i
      = upwind_select (Cons1D.d (x3Flux k j i))
          (Cons1D.Bz (x1Flux (k - 1)%Z j i) - emf2_cc (k - 1)%Z j i)
          (Cons1D.Bz (x1Flux k j i) - emf2_cc k j i)).
Proof.
  unfold de2_l3, de2_r3, de2_l1, de2_r1; repeat split; try intros Hne; by_sign.
Qed.

(** With a vanishing mass flux [de2_r1] subtracts [emf2_cc[k-1][j][i]]
    twice. *)
Lemma de2_r1_zero_flux (k j i : Z) :
  Cons1D.d (x3Flux k j i) = 0 ->
  de2_r1 x1Flux x3Flux emf2_cc k j i
  = (Cons1D.Bz (x1Flux (k - 1)%Z j i) + Cons1D.Bz (x1Flux k j i)) / 2
    - emf2_cc (k - 1)%Z j i.
Proof.
  intros H0; unfold de2_r1; rewrite H0.
  destruct (Rgt_dec 0 0), (Rlt_dec 0 0); lra.
Qed.

End CornerEmfFacts.

(** C3.  The statement that every correction term is the arithmetic mean of
    its upwind and downwind differences when the mass flux vanishes does not
    hold of [de2_r1] in [integrate_emf2_corner].  Take a flow along x1 with
    no mass flux across the x3 faces and [x1Flux.Bz = emf2_cc = k]: at the
    corner [(5,5,5)] both differences vanish, so their mean is 0, while the
    code yields [de2_r1 = 1/2] and stores [emf2[5][5][5] = 1/8] instead
    of 0. *)
Theorem de2_r1_zero_flux_not_mean :
  let x1Flux : arr3 Cons1D := fun k j i => Cons1D.mk 1 0 0 0 0 0 (IZR k) [] in
  let x3Flux : arr3 Cons1D := fun k j i => Cons1D.mk 0 0 0 0 0 0 0 [] in
  let emf2_cc : arr3 R := fun k j i => IZR k in
  let g := mkGrid 4 7 4 7 4 7 1 1 1 1
             (fun k j i => 0) (fun k j i => 0) (fun k j i => 0) in
  Cons1D.d (x3Flux 5%Z 5%Z 5%Z) = 0
  /\ upwind_select (Cons1D.d (x3Flux 5%Z 5%Z 5%Z))
       (Cons1D.Bz (x1Flux (5 - 1)%Z 5%Z 5%Z) - emf2_cc (5 - 1)%Z 5%Z 5%Z)
       (Cons1D.Bz (x1Flux 5%Z 5%Z 5%Z) - emf2_cc 5%Z 5%Z 5%Z) = 0
  /\ de2_r1 x1Flux x3Flux emf2_cc 5%Z 5%Z 5%Z = 1 / 2
  /\ integrate_emf2_corner 4%Z g x1Flux x3Flux emf2_cc (fun k j i => 0)
       5%Z 5%Z 5%Z
     = 1 / 8.
Proof.
  intros x1Flux x3Flux emf2_cc g.
  assert (H0 : Cons1D.d (x3Flux 5%Z 5%Z 5%Z) = 0) by reflexivity.
  split; [exact H0|].
  split.
  { unfold upwind_select, x1Flux, x3Flux, emf2_cc; simpl.
    destruct (Rgt_dec 0 0), (Rlt_dec 0 0); lra. }
  assert (Hde : de2_r1 x1Flux x3Flux emf2_cc 5%Z 5%Z 5%Z = 1 / 2).
  { rewrite de2_r1_zero_flux by exact H0.
    unfold x1Flux, emf2_cc; simpl; lra. }
  split; [exact Hde|].
  rewrite integrate_emf2_corner_value
    by (unfold kl, ku, jl, ju, il, iu; simpl; lia).
  unfold emf2_corner.
  rewrite Hde.
  unfold de2_l1, de2_l3, de2_r3, x1Flux, x3Flux, emf2_cc; simpl.
  destruct (Rgt_dec 0 0), (Rlt_dec 0 0), (Rgt_dec 1 0); lra.
Qed.

(** * Further properties of [convert_var.c] *)

Lemma MAX_Rmax (x y : R) : MAX x y = Rmax x y.
Proof.
  unfold MAX, Rmax.
  destruct (Rgt_dec x y), (Rle_dec x y); lra.
Qed.

Lemma MAX_ge_floor (x tiny : R) : tiny <= MAX x tiny.
Proof.
  unfold MAX; destruct (Rgt_dec x tiny); lra.
Qed.

(** Copying [N] scalars over a destination of the same size yields the
    source. *)
Lemma scalar_loop_copy (N : nat) (src dst : list R) :
  length src = N -> length dst = N ->
  scalar_loop N (fun n => get_nth n src) dst = src.
Proof.
  intros Hs Hd.
  apply (nth_ext _ _ 0 0).
  - now rewrite scalar_loop_length, Hs, Hd.
  - intros m Hm.
    rewrite scalar_loop_length in Hm.
    rewrite scalar_loop_nth by lia.
    now rewrite (proj2 (Nat.ltb_lt m N)) by lia.
Qed.

(** X1.  Neither [Cons1D_to_Prim1D] nor [Cons_to_Prim] ever returns a
    pressure below [TINY_NUMBER], whatever the input (zero density and
    negative energies included); for a non-zero density the pressure
    returned by [Cons1D_to_Prim1D] is the larger of the gas pressure and
    the floor. *)
Theorem pressure_never_below_floor
    (MHD : bool) (NSCALARS : nat) (Gamma TINY_NUMBER : R)
    (U : Cons1D) (W0 : Prim1D) (Bx : R) (G : Gas) (P0 : Prim) :
  TINY_NUMBER
  <= Prim1D.P (Cons1D_to_Prim1D MHD false NSCALARS Gamma TINY_NUMBER U W0 Bx)
  /\ TINY_NUMBER
     <= Prim.P (Cons_to_Prim MHD false NSCALARS Gamma TINY_NUMBER G P0)
  /\ (Cons1D.d U <> 0 ->
      Prim1D.P (Cons1D_to_Prim1D MHD false NSCALARS Gamma TINY_NUMBER U W0 Bx)
      = Rmax (pressure MHD Gamma U Bx) TINY_NUMBER).
Proof.
  split; [|split].
  - unfold Cons1D_to_Prim1D; simpl; apply MAX_ge_floor.
  - unfold Cons_to_Prim; simpl; apply MAX_ge_floor.
  - intros Hd.
    rewrite <- MAX_Rmax.
    now apply Cons1D_to_Prim1D_P.
Qed.

Lemma pressure_never_below_floor_witness :
  let U := Cons1D.mk 1 0 0 0 (-3) 0 0 [] in
  let W0 := Prim1D.mk 0 0 0 0 0 0 0 [] in
  Prim1D.P (Cons1D_to_Prim1D true false 0 (5 / 3) 1e-20 U W0 0)
  = Rmax (pressure true (5 / 3) U 0) 1e-20.
Proof.
  intros U W0.
  apply (pressure_never_below_floor true 0 (5 / 3) 1e-20 U W0 0
           (Gas.mk 1 0 0 0 1 0 0 0 []) (Prim.mk 0 0 0 0 0 0 0 0 [])).
  simpl; lra.
Defined.

Section StripsAgree.

Variables MHD ISOTHERMAL : bool.
Variable NSCALARS : nat.
Variables Gamma TINY_NUMBER : R.
Variable G : Gas.
Variable P0 : Prim.
Variable U0 : Cons1D.
Variable W0 : Prim1D.

Hypothesis HG : wf_Gas NSCALARS G.
Hypothesis HP0 : wf_Prim NSCALARS P0.
Hypothesis HU0 : wf_Cons1D NSCALARS U0.
Hypothesis HW0 : wf_Prim1D NSCALARS W0.

Local Abbreviation C2P := (Cons1D_to_Prim1D MHD ISOTHERMAL NSCALARS Gamma TINY_NUMBER).
Local Abbreviation C2P3 := (Cons_to_Prim MHD ISOTHERMAL NSCALARS Gamma TINY_NUMBER G P0).

Lemma strip_scalars (di : R) (s0 : list R) :
  length s0 = NSCALARS ->
  scalar_loop NSCALARS
    (fun n => get_nth n (scalar_loop NSCALARS (fun n => get_nth n (Gas.s G)) s0) * di)
    (Prim1D.r W0)
  = scalar_loop NSCALARS (fun n => get_nth n (Gas.s G) * di) (Prim.r P0).
Proof.
  intros Hs0.
  rewrite (scalar_loop_copy NSCALARS (Gas.s G) s0) by assumption.
  rewrite !scalar_loop_map by assumption.
  reflexivity.
Qed.

Lemma step7a_agrees :
  let W := C2P (step7a_U1d MHD ISOTHERMAL NSCALARS G U0) W0 (step7a_Bxc G) in
  Prim1D.d W = Prim.d C2P3
  /\ Prim1D.Vx W = Prim.V1 C2P3
  /\ Prim1D.Vy W = Prim.V2 C2P3
  /\ Prim1D.Vz W = Prim.V3 C2P3
  /\ (ISOTHERMAL = false -> Prim1D.P W = Prim.P C2P3)
  /\ (MHD = true -> Prim1D.By W = Prim.B2c C2P3 /\ Prim1D.Bz W = Prim.B3c C2P3)
  /\ Prim1D.r W = Prim.r C2P3.
Proof.
  unfold Cons1D_to_Prim1D, Cons_to_Prim, step7a_U1d, step7a_Bxc; simpl.
  repeat split; try reflexivity.
  - intros Hiso; rewrite Hiso.
    f_equal; f_equal; unfold SQR; destruct MHD; ring.
  - destruct MHD; [reflexivity | discriminate].
  - destruct MHD; [reflexivity | discriminate].
  - apply strip_scalars, HU0.
Qed.

Lemma step7b_agrees :
  let W := C2P (step7b_U1d MHD ISOTHERMAL NSCALARS G U0) W0 (step7b_Bxc G) in
  Prim1D.d W = Prim.d C2P3
  /\ Prim1D.Vx W = Prim.V2 C2P3
  /\ Prim1D.Vy W = Prim.V3 C2P3
  /\ Prim1D.Vz W = Prim.V1 C2P3
  /\ (ISOTHERMAL = false -> Prim1D.P W = Prim.P C2P3)
  /\ (MHD = true -> Prim1D.By W = Prim.B3c C2P3 /\ Prim1D.Bz W = Prim.B1c C2P3)
  /\ Prim1D.r W = Prim.r C2P3.
Proof.
  unfold Cons1D_to_Prim1D, Cons_to_Prim, step7b_U1d, step7b_Bxc; simpl.
  repeat split; try reflexivity.
  - intros Hiso; rewrite Hiso.
    f_equal; f_equal; unfold SQR; destruct MHD; ring.
  - destruct MHD; [reflexivity | discriminate].
  - destruct MHD; [reflexivity | discriminate].
  - apply strip_scalars, HU0.
Qed.

Lemma step7c_agrees :
  let W := C2P (step7c_U1d MHD ISOTHERMAL NSCALARS G U0) W0 (step7c_Bxc G) in
  Prim1D.d W = Prim.d C2P3
  /\ Prim1D.Vx W = Prim.V3 C2P3
  /\ Prim1D.Vy W = Prim.V1 C2P3
  /\ Prim1D.Vz W = Prim.V2 C2P3
  /\ (ISOTHERMAL = false -> Prim1D.P W = Prim.P C2P3)
  /\ (MHD = true -> Prim1D.By W = Prim.B1c C2P3 /\ Prim1D.Bz W = Prim.B2c C2P3)
  /\ Prim1D.r W = Prim.r C2P3.
Proof.
  unfold Cons1D_to_Prim1D, Cons_to_Prim, step7c_U1d, step7c_Bxc; simpl.
  repeat split; try reflexivity.
  - intros Hiso; rewrite Hiso.
    f_equal; f_equal; unfold SQR; destruct MHD; ring.
  - destruct MHD; [reflexivity | discriminate].
  - destruct MHD; [reflexivity | discriminate].
  - apply strip_scalars, HU0.
Qed.

End StripsAgree.

(** X2.  The primitive variables that Step 7 of [integrate_3d_vl] obtains
    from [Cons1D_to_Prim1D] on its x1, x2 and x3 strips are those of
    [Cons_to_Prim] on the same cell: same density, pressure and scalars, the
    velocities relabelled (V1,V2,V3), (V2,V3,V1), (V3,V1,V2) and the
    transverse fields (B2c,B3c), (B3c,B1c), (B1c,B2c). *)
Theorem strips_agree_with_Cons_to_Prim
    (MHD ISOTHERMAL : bool) (NSCALARS : nat) (Gamma TINY_NUMBER : R)
    (G : Gas) (P0 : Prim) (U0 : Cons1D) (W0 : Prim1D) :
  wf_Gas NSCALARS G -> wf_Prim NSCALARS P0 ->
  wf_Cons1D NSCALARS U0 -> wf_Prim1D NSCALARS W0 ->
  let C2P := Cons1D_to_Prim1D MHD ISOTHERMAL NSCALARS Gamma TINY_NUMBER in
  let W := Cons_to_Prim MHD ISOTHERMAL NSCALARS Gamma TINY_NUMBER G P0 in
  let Wa := C2P (step7a_U1d MHD ISOTHERMAL NSCALARS G U0) W0 (step7a_Bxc G) in
  let Wb := C2P (step7b_U1d MHD ISOTHERMAL NSCALARS G U0) W0 (step7b_Bxc G) in
  let Wc := C2P (step7c_U1d MHD ISOTHERMAL NSCALARS G U0) W0 (step7c_Bxc G) in
  (Prim1D.d Wa = Prim.d W /\ Prim1D.d Wb = Prim.d W /\ Prim1D.d Wc = Prim.d W)
  /\ (Prim1D.Vx Wa = Prim.V1 W /\ Prim1D.Vy Wa = Prim.V2 W
      /\ Prim1D.Vz Wa = Prim.V3 W)
  /\ (Prim1D.Vx Wb = Prim.V2 W /\ Prim1D.Vy Wb = Prim.V3 W
      /\ Prim1D.Vz Wb = Prim.V1 W)
  /\ (Prim1D.Vx Wc = Prim.V3 W /\ Prim1D.Vy Wc = Prim.V1 W
      /\ Prim1D.Vz Wc = Prim.V2 W)
  /\ (ISOTHERMAL = false ->
      Prim1D.P Wa = Prim.P W /\ Prim1D.P Wb = Prim.P W
      /\ Prim1D.P Wc = Prim.P W)
  /\ (MHD = true ->
      (Prim1D.By Wa = Prim.B2c W /\ Prim1D.Bz Wa = Prim.B3c W)
      /\ (Prim1D.By Wb = Prim.B3c W /\ Prim1D.Bz Wb = Prim.B1c W)
      /\ (Prim1D.By Wc = Prim.B1c W /\ Prim1D.Bz Wc = Prim.B2c W))
  /\ (Prim1D.r Wa = Prim.r W /\ Prim1D.r Wb = Prim.r W
      /\ Prim1D.r Wc = Prim.r W).
Proof.
  intros HG HP0 HU0 HW0 C2P W Wa Wb Wc.
  destruct (step7a_agrees MHD ISOTHERMAL NSCALARS Gamma TINY_NUMBER G P0 U0 W0
              HG HP0 HU0 HW0) as (a1 & a2 & a3 & a4 & a5 & a6 & a7).
  destruct (step7b_agrees MHD ISOTHERMAL NSCALARS Gamma TINY_NUMBER G P0 U0 W0
              HG HP0 HU0 HW0) as (b1 & b2 & b3 & b4 & b5 & b6 & b7).
  destruct (step7c_agrees MHD ISOTHERMAL NSCALARS Gamma TINY_NUMBER G P0 U0 W0
              HG HP0 HU0 HW0) as (c1 & c2 & c3 & c4 & c5 & c6 & c7).
  repeat split; auto.
  - apply (a6 H).
  - apply (a6 H).
  - apply (b6 H).
  - apply (b6 H).
  - apply (c6 H).
  - apply (c6 H).
Qed.

Lemma strips_agree_with_Cons_to_Prim_witness :
  let G := Gas.mk 2 2 4 6 20 1 2 3 [4] in
  let P0 := Prim.mk 0 0 0 0 0 0 0 0 [0] in
  let U0 := Cons1D.mk 0 0 0 0 0 0 0 [0] in
  let W0 := Prim1D.mk 0 0 0 0 0 0 0 [0] in
  let W := Cons_to_Prim true false 1 (5 / 3) 1e-20 G P0 in
  let Wb := Cons1D_to_Prim1D true false 1 (5 / 3) 1e-20
              (step7b_U1d true false 1 G U0) W0 (step7b_Bxc G) in
  Prim1D.P Wb = Prim.P W /\ Prim1D.Vx Wb = Prim.V2 W.
Proof.
  intros G P0 U0 W0 W Wb.
  destruct (strips_agree_with_Cons_to_Prim true false 1 (5 / 3) 1e-20 G P0 U0 W0)
    as (_ & _ & (Hv & _) & _ & HP & _); try reflexivity.
  split; [apply (HP eq_refl) | exact Hv].
Defined.

(** X3.  Below the floor the round trip conserved -> primitive ->
    conserved is not the identity on the energy: it returns
    [E + (max(P,TINY_NUMBER) - P)/(Gamma-1)], which for [Gamma > 1] is never
    less than [E]; density, momenta, transverse field and scalars come back
    unchanged whatever the pressure. *)
Theorem cons_prim_cons_energy
    (MHD : bool) (NSCALARS : nat) (Gamma TINY_NUMBER : R)
    (U U0 : Cons1D) (W0 : Prim1D) (Bx : R) :
  wf_Cons1D NSCALARS U -> wf_Cons1D NSCALARS U0 -> wf_Prim1D NSCALARS W0 ->
  0 < Cons1D.d U -> 1 < Gamma ->
  let U' := Prim1D_to_Cons1D MHD false NSCALARS Gamma U0
              (Cons1D_to_Prim1D MHD false NSCALARS Gamma TINY_NUMBER U W0 Bx) Bx in
  Cons1D.E U'
  = Cons1D.E U
    + (Rmax (pressure MHD Gamma U Bx) TINY_NUMBER - pressure MHD Gamma U Bx)
      / (Gamma - 1)
  /\ Cons1D.E U <= Cons1D.E U'
  /\ Cons1D.d U' = Cons1D.d U
  /\ Cons1D.Mx U' = Cons1D.Mx U
  /\ Cons1D.My U' = Cons1D.My U
  /\ Cons1D.Mz U' = Cons1D.Mz U
  /\ (MHD = true -> Cons1D.By U' = Cons1D.By U /\ Cons1D.Bz U' = Cons1D.Bz U)
  /\ Cons1D.s U' = Cons1D.s U.
Proof.
  intros HU HU0 HW0 Hd HG U'.
  assert (Hd0 : Cons1D.d U <> 0) by lra.
  assert (HE : Cons1D.E U'
               = Cons1D.E U
                 + (Rmax (pressure MHD Gamma U Bx) TINY_NUMBER
                    - pressure MHD Gamma U Bx) / (Gamma - 1)).
  { pose proof (Cons1D_to_Prim1D_P MHD false NSCALARS Gamma TINY_NUMBER
                  U W0 Bx Hd0 eq_refl) as HPW.
    rewrite MAX_Rmax in HPW.
    unfold U', Prim1D_to_Cons1D; cbn [Cons1D.E].
    rewrite HPW.
    generalize (Rmax (pressure MHD Gamma U Bx) TINY_NUMBER); intros m.
    unfold Cons1D_to_Prim1D, pressure, Gamma_1, SQR; simpl.
    destruct MHD; dfield; split; lra. }
  split; [exact HE|].
  split.
  { rewrite HE.
    pose proof (Rmax_l (pressure MHD Gamma U Bx) TINY_NUMBER) as Hm.
    assert (0 <= (Rmax (pressure MHD Gamma U Bx) TINY_NUMBER
                  - pressure MHD Gamma U Bx) / (Gamma - 1)).
    { apply Rmult_le_pos; [lra|].
      left; apply Rinv_0_lt_compat; lra. }
    lra. }
  unfold U', Prim1D_to_Cons1D, Cons1D_to_Prim1D; simpl.
  repeat split.
  - field; assumption.
  - field; assumption.
  - field; assumption.
  - destruct MHD; [reflexivity | discriminate].
  - destruct MHD; [reflexivity | discriminate].
  - rewrite (scalar_loop_map NSCALARS (1 / Cons1D.d U) (Cons1D.s U) (Prim1D.r W0))
      by assumption.
    rewrite scalar_loop_map by (rewrite ?length_map; assumption).
    apply map_scale_cancel; field; assumption.
Qed.

(** A state whose gas pressure is negative: the round trip raises its
    energy. *)
Lemma cons_prim_cons_energy_witness :
  let U := Cons1D.mk 1 2 0 0 1 0 0 [] in
  let U0 := Cons1D.mk 0 0 0 0 0 0 0 [] in
  let W0 := Prim1D.mk 0 0 0 0 0 0 0 [] in
  Cons1D.E U
  <= Cons1D.E (Prim1D_to_Cons1D true false 0 (5 / 3) U0
                 (Cons1D_to_Prim1D true false 0 (5 / 3) 1e-20 U W0 0) 0).
Proof.
  intros U U0 W0.
  apply (cons_prim_cons_energy true 0 (5 / 3) 1e-20 U U0 W0 0);
    try reflexivity; simpl; lra.
Defined.

(** * Further properties of [cfast] *)

Lemma sqrt_sq_plus_ge (T c : R) : 0 <= c -> Rabs T <= sqrt (T * T + c).
Proof.
  intros Hc.
  rewrite <- (sqrt_Rsqr_abs T).
  apply sqrt_le_1_alt.
  unfold Rsqr; lra.
Qed.

(** The squared fast speed [cfsq] dominates both [a^2] and the squared
    Alfven speed [b^2 + b_perp^2]. *)
Lemma cfsq_bounds (a2 b2 bp2 : R) :
  0 <= a2 -> 0 <= bp2 ->
  let cfsq := 0.5 * ((a2 + bp2 + b2)
                     + sqrt ((b2 + bp2 - a2) * (b2 + bp2 - a2) + 4 * a2 * bp2)) in
  a2 <= cfsq /\ b2 + bp2 <= cfsq.
Proof.
  intros Ha Hp cfsq.
  assert (Hc : 0 <= 4 * a2 * bp2).
  { apply Rmult_le_pos; [lra | assumption]. }
  pose proof (sqrt_sq_plus_ge (b2 + bp2 - a2) (4 * a2 * bp2) Hc) as H.
  unfold cfsq.
  destruct (Rcase_abs (b2 + bp2 - a2)) as [Hn|Hn].
  - rewrite (Rabs_left _ Hn) in H; split; lra.
  - rewrite (Rabs_right _ Hn) in H; split; lra.
Qed.

(** X4.  Under MHD, for a state with [d > 0] and [a^2 >= 0], the speed
    returned by [cfast] is at least the sound speed [sqrt (a^2)] and at least
    the Alfven speed [sqrt ((Bx^2+By^2+Bz^2)/d)]. *)
Theorem cfast_dominates
    (ISOTHERMAL : bool) (Gamma Iso_csound2 : R) (U : Cons1D) (Bx : R) :
  0 < Cons1D.d U ->
  0 <= a_sq true ISOTHERMAL Gamma Iso_csound2 U Bx ->
  sqrt (a_sq true ISOTHERMAL Gamma Iso_csound2 U Bx)
  <= cfast true ISOTHERMAL Gamma Iso_csound2 U Bx
  /\ sqrt ((SQR Bx + SQR (Cons1D.By U) + SQR (Cons1D.Bz U)) / Cons1D.d U)
     <= cfast true ISOTHERMAL Gamma Iso_csound2 U Bx.
Proof.
  intros Hd Ha.
  assert (Hd0 : Cons1D.d U <> 0) by lra.
  rewrite (cfast_value true ISOTHERMAL Gamma Iso_csound2 U Bx Hd0); cbv zeta.
  assert (Hp : 0 <= b_perp_sq U).
  { unfold b_perp_sq, SQR.
    apply Rmult_le_pos; [nra | left; apply Rinv_0_lt_compat; lra]. }
  destruct (cfsq_bounds _ (b_sq U Bx) _ Ha Hp) as [H1 H2].
  split; apply sqrt_le_1_alt.
  - exact H1.
  - replace ((SQR Bx + SQR (Cons1D.By U) + SQR (Cons1D.Bz U)) / Cons1D.d U)
      with (b_sq U Bx + b_perp_sq U)
      by (unfold b_sq, b_perp_sq; field; assumption).
    exact H2.
Qed.

Lemma cfast_dominates_witness :
  let U := Cons1D.mk 1 0 0 0 (161 / 10) 3 0 [] in
  sqrt (a_sq true false (5 / 3) 0 U 2) <= cfast true false (5 / 3) 0 U 2.
Proof.
  intros U.
  apply (cfast_dominates false (5 / 3) 0 U 2).
  - simpl; lra.
  - unfold a_sq, pressure, SQR; simpl; lra.
Defined.

(** X5.  With no magnetic field at all the MHD build of [cfast] returns
    what the hydrodynamic build returns, the sound speed (for [d > 0] and
    [a^2 >= 0]). *)
Theorem cfast_zero_field
    (ISOTHERMAL : bool) (Gamma Iso_csound2 : R) (U : Cons1D) :
  0 < Cons1D.d U ->
  Cons1D.By U = 0 -> Cons1D.Bz U = 0 ->
  0 <= a_sq false ISOTHERMAL Gamma Iso_csound2 U 0 ->
  cfast true ISOTHERMAL Gamma Iso_csound2 U 0
  = cfast false ISOTHERMAL Gamma Iso_csound2 U 0
  /\ cfast true ISOTHERMAL Gamma Iso_csound2 U 0
     = sqrt (a_sq false ISOTHERMAL Gamma Iso_csound2 U 0).
Proof.
  intros Hd Hy Hz Ha.
  assert (Hd0 : Cons1D.d U <> 0) by lra.
  assert (Ha2 : a_sq true ISOTHERMAL Gamma Iso_csound2 U 0
                = a_sq false ISOTHERMAL Gamma Iso_csound2 U 0).
  { unfold a_sq, pressure, SQR; rewrite Hy, Hz.
    destruct ISOTHERMAL; [reflexivity|].
    field; assumption. }
  rewrite (cfast_value false ISOTHERMAL Gamma Iso_csound2 U 0 Hd0).
  rewrite (cfast_value true ISOTHERMAL Gamma Iso_csound2 U 0 Hd0); cbv zeta.
  rewrite Ha2.
  assert (Hb : b_sq U 0 = 0) by (unfold b_sq, SQR; field; assumption).
  assert (Hp : b_perp_sq U = 0)
    by (unfold b_perp_sq, SQR; rewrite Hy, Hz; field; assumption).
  rewrite Hb, Hp.
  set (a2 := a_sq false ISOTHERMAL Gamma Iso_csound2 U 0) in *.
  replace ((0 + 0 - a2) * (0 + 0 - a2) + 4 * a2 * 0) with (a2 * a2) by ring.
  rewrite sqrt_square by assumption.
  replace (0.5 * (a2 + 0 + 0 + a2)) with a2 by lra.
  split; reflexivity.
Qed.

Lemma cfast_zero_field_witness :
  let U := Cons1D.mk 1 1 0 0 2 0 0 [] in
  cfast true false (5 / 3) 0 U 0 = cfast false false (5 / 3) 0 U 0.
Proof.
  intros U.
  apply (cfast_zero_field false (5 / 3) 0 U); try reflexivity.
  - simpl; lra.
  - unfold a_sq, pressure, SQR; simpl; lra.
Defined.

(** X6.  The fast speed of the conserved image of a primitive state does
    not depend on the velocity: for [d > 0] and [Gamma <> 1],
    [cfast (Prim1D_to_Cons1D W)] is the fast-speed formula evaluated with
    [a^2 = Gamma*P/d], [b^2 = Bx^2/d] and [b_perp^2 = (By^2+Bz^2)/d]. *)
Theorem cfast_of_primitive
    (MHD : bool) (NSCALARS : nat) (Gamma Iso_csound2 : R)
    (W : Prim1D) (U0 : Cons1D) (Bx : R) :
  0 < Prim1D.d W -> Gamma <> 1 ->
  let a2 := Gamma * Prim1D.P W / Prim1D.d W in
  let b2 := SQR Bx / Prim1D.d W in
  let bp2 := (SQR (Prim1D.By W) + SQR (Prim1D.Bz W)) / Prim1D.d W in
  cfast MHD false Gamma Iso_csound2
    (Prim1D_to_Cons1D MHD false NSCALARS Gamma U0 W Bx) Bx
  = if MHD
    then sqrt (0.5 * ((a2 + bp2 + b2)
                      + sqrt ((b2 + bp2 - a2) * (b2 + bp2 - a2) + 4 * a2 * bp2)))
    else sqrt a2.
Proof.
  intros Hd HG a2 b2 bp2.
  assert (Hd0 : Prim1D.d W <> 0) by lra.
  rewrite cfast_value by (simpl; assumption); cbv zeta.
  assert (Ha : a_sq MHD false Gamma Iso_csound2
                 (Prim1D_to_Cons1D MHD false NSCALARS Gamma U0 W Bx) Bx = a2).
  { unfold a2, a_sq, pressure, Prim1D_to_Cons1D, Gamma_1, SQR; simpl.
    destruct MHD; dfield; split; lra. }
  rewrite Ha.
  destruct MHD; [|reflexivity].
  reflexivity.
Qed.

Lemma cfast_of_primitive_witness :
  let W := Prim1D.mk 1 7 0 0 (27 / 5) 0 0 [] in
  let U0 := Cons1D.mk 0 0 0 0 0 0 0 [] in
  cfast false false (5 / 3) 0
    (Prim1D_to_Cons1D false false 0 (5 / 3) U0 W 0) 0
  = sqrt (5 / 3 * (27 / 5) / 1).
Proof.
  intros W U0.
  apply (cfast_of_primitive false 0 (5 / 3) 0 W U0 0); simpl; lra.
Defined.

(** * Further properties of [integrate_3d_vl.c] *)

(** ** Loop nests over cells *)

Section LoopApply.

Context {S T : Type}.
Variable body : Z -> S -> S.

Lemma for_loop_preserve_range (obs : S -> T) (lo hi : Z) (s : S) :
  (forall i s, (lo <= i <= hi)%Z -> obs (body i s) = obs s) ->
  obs (for_loop lo hi body s) = obs s.
Proof.
  intros Hbody; unfold for_loop; apply for_iter_preserve.
  intros i s' Hi; apply Hbody; lia.
Qed.

(** A loop whose iteration [x] alone touches what the observation looks at,
    transforming it by [F], transforms it by [F] once [x] has been met. *)
Lemma for_iter_apply (obs : S -> T) (F : T -> T) (x : Z) (n : nat) :
  (forall s, obs (body x s) = F (obs s)) ->
  (forall i s, i <> x -> obs (body i s) = obs s) ->
  forall lo s,
    (lo <= x < lo + Z.of_nat n)%Z ->
    obs (for_iter n lo body s) = F (obs s).
Proof.
  intros Hx Hother; induction n as [|n IH]; intros lo s Hin.
  - lia.
  - simpl for_iter.
    destruct (Z.eq_dec lo x) as [->|Hne].
    + rewrite for_iter_preserve; auto.
      intros i s' Hi; apply Hother; lia.
    + rewrite IH by lia.
      now rewrite Hother.
Qed.

Lemma for_loop_apply (obs : S -> T) (F : T -> T) (x lo hi : Z) (s : S) :
  (forall s, obs (body x s) = F (obs s)) ->
  (forall i s, i <> x -> obs (body i s) = obs s) ->
  (lo <= x <= hi)%Z ->
  obs (for_loop lo hi body s) = F (obs s).
Proof.
  intros Hx Hother Hin; unfold for_loop.
  apply (for_iter_apply obs F x); auto; lia.
Qed.

End LoopApply.

Section Nest3.

Context {S T : Type}.
Variable body : Z -> Z -> Z -> S -> S.
Variable obs : S -> T.
Variables k' j' i' : Z.
Variables klo khi jlo jhi ilo ihi : Z.

Hypothesis body_other :
  forall k j i s, k <> k' \/ j <> j' \/ i <> i' -> obs (body k j i s) = obs s.

(** In a nest of three loops over cells, the observation of one cell of the
    window undergoes the body of that cell once. *)
Lemma nest3_apply (F : T -> T) (s : S) :
  (forall s, obs (body k' j' i' s) = F (obs s)) ->
  (klo <= k' <= khi)%Z -> (jlo <= j' <= jhi)%Z -> (ilo <= i' <= ihi)%Z ->
  obs (for_loop klo khi (fun k s =>
         for_loop jlo jhi (fun j s =>
           for_loop ilo ihi (fun i s => body k j i s) s) s) s)
  = F (obs s).
Proof.
  intros Hhit Hk Hj Hi.
  apply (for_loop_apply _ obs F k'); auto.
  - intros s0.
    apply (for_loop_apply _ obs F j'); auto.
    + intros s1.
      apply (for_loop_apply _ obs F i'); auto.
    + intros j s1 Hne.
      apply (for_loop_preserve _ obs); auto.
  - intros k s0 Hne.
    apply (for_loop_preserve _ obs); intros j s1.
    apply (for_loop_preserve _ obs); auto.
Qed.

(** The observation of a cell outside the window is left alone. *)
Lemma nest3_miss (s : S) :
  ~ ((klo <= k' <= khi)%Z /\ (jlo <= j' <= jhi)%Z /\ (ilo <= i' <= ihi)%Z) ->
  obs (for_loop klo khi (fun k s =>
         for_loop jlo jhi (fun j s =>
           for_loop ilo ihi (fun i s => body k j i s) s) s) s)
  = obs s.
Proof.
  intros Hout.
  apply (for_loop_preserve_range _ obs); intros k s0 Hk.
  apply (for_loop_preserve_range _ obs); intros j s1 Hj.
  apply (for_loop_preserve_range _ obs); intros i s2 Hi.
  apply body_other.
  destruct (Z.eq_dec k k') as [->|]; [|auto].
  destruct (Z.eq_dec j j') as [->|]; [|auto].
  destruct (Z.eq_dec i i') as [->|]; [|auto].
  tauto.
Qed.

End Nest3.

Lemma in_range_spec (lo hi x : Z) :
  in_range lo hi x = true <-> (lo <= x <= hi)%Z.
Proof.
  unfold in_range; rewrite andb_true_iff, !Z.leb_le; tauto.
Qed.

Lemma arr3_set_eq {T : Type} (a : arr3 T) (k j i : Z) (v : T) :
  arr3_set a k j i v k j i = v.
Proof.
  unfold arr3_set, same_index; now rewrite !Z.eqb_refl.
Qed.

Lemma arr3_set_neq {T : Type} (a : arr3 T) (k j i : Z) (v : T) (k' j' i' : Z) :
  k <> k' \/ j <> j' \/ i <> i' ->
  arr3_set a k j i v k' j' i' = a k' j' i'.
Proof.
  intros H; unfold arr3_set.
  destruct (same_index k j i k' j' i') eqn:E; [|reflexivity].
  apply same_index_eq in E; tauto.
Qed.

(** ** The cell-centred reference EMFs of Step 4 and Step 10 *)





(** ** Step 11 together with the corner integration *)

Lemma stencil_pos (order : Order) : (1 <= stencil order <= 3)%Z.
Proof. destruct order; simpl; lia. Qed.

Section Step11Mhd.

Variable nghost : Z.
Variable order : Order.
Variable g : Grid.
Variables x1Flux x2Flux x3Flux : arr3 Cons1D.
Variable cc : EmfCC.t.

(** The block holds at least one cell each way and
    [integrate_init_3d] has accepted the number of ghost zones. *)
Hypothesis Hinit : integrate_init_3d nghost order = Init_ok.
Hypothesis Hi : (is_ g <= ie g)%Z.
Hypothesis Hj : (js g <= je g)%Z.
Hypothesis Hk : (ks g <= ke g)%Z.

Lemma init_ok_ghost : (stencil order + 2 <= nghost)%Z.
Proof.
  clear Hi Hj Hk.
  unfold integrate_init_3d, integrate_init_3d_minghost in Hinit.
  destruct order; simpl in *;
    match type of Hinit with
    | (if ?b then _ else _) = _ => destruct b eqn:E; [discriminate|]
    end; apply Z.ltb_ge in E; lia.
Qed.

Local Abbreviation e1c := (emf1_corner x2Flux x3Flux (EmfCC.emf1_cc cc)).
Local Abbreviation e2c := (emf2_corner x1Flux x3Flux (EmfCC.emf2_cc cc)).
Local Abbreviation e3c := (emf3_corner x1Flux x2Flux (EmfCC.emf3_cc cc)).

Lemma advanced_B1i_range (k j i : Z) :
  advanced_B1i nghost order g k j i = true ->
  (kl nghost g + 2 <= k <= ku nghost g - 2)%Z
  /\ (jl nghost g + 2 <= j <= ju nghost g - 2)%Z
  /\ (il nghost g + 2 <= i <= iu nghost g - 1)%Z.
Proof.
  unfold advanced_B1i, kb, kt, jb, jt, ib, it, kl, ku, jl, ju, il, iu.
  pose proof (stencil_pos order) as Hs.
  pose proof init_ok_ghost as Hg.
  rewrite !andb_true_iff, orb_true_iff, !in_range_spec, Z.eqb_eq.
  lia.
Qed.

Lemma advanced_B2i_range (k j i : Z) :
  advanced_B2i nghost order g k j i = true ->
  (kl nghost g + 2 <= k <= ku nghost g - 2)%Z
  /\ (jl nghost g + 2 <= j <= ju nghost g - 1)%Z
  /\ (il nghost g + 2 <= i <= iu nghost g - 2)%Z.
Proof.
  unfold advanced_B2i, kb, kt, jb, jt, ib, it, kl, ku, jl, ju, il, iu.
  pose proof (stencil_pos order) as Hs.
  pose proof init_ok_ghost as Hg.
  rewrite !andb_true_iff, orb_true_iff, !in_range_spec, Z.eqb_eq.
  lia.
Qed.

Lemma advanced_B3i_range (k j i : Z) :
  advanced_B3i nghost order g k j i = true ->
  (kl nghost g + 2 <= k <= ku nghost g - 1)%Z
  /\ (jl nghost g + 2 <= j <= ju nghost g - 2)%Z
  /\ (il nghost g + 2 <= i <= iu nghost g - 2)%Z.
Proof.
  unfold advanced_B3i, kb, kt, jb, jt, ib, it, kl, ku, jl, ju, il, iu.
  pose proof (stencil_pos order) as Hs.
  pose proof init_ok_ghost as Hg.
  rewrite !andb_true_iff, orb_true_iff, !in_range_spec, Z.eqb_eq.
  lia.
Qed.

(** The face fields after Step 11, in terms of the corner EMFs computed
    from the fluxes; the old content of [emf1], [emf2], [emf3] does not
    enter. *)
Lemma step11_mhd_faces (emf1 emf2 emf3 : arr3 R) (k j i : Z) :
  let g' := integrate_3d_vl_step11_mhd nghost order g x1Flux x2Flux x3Flux cc
              emf1 emf2 emf3 in
  B1i g' k j i
  = B1i g k j i
    + (if advanced_B1i nghost order g k j i
       then dtodx3 g * (e2c (k + 1)%Z j i - e2c k j i)
            - dtodx2 g * (e3c k (j + 1)%Z i - e3c k j i)
       else 0)
  /\ B2i g' k j i
     = B2i g k j i
       + (if advanced_B2i nghost order g k j i
          then dtodx1 g * (e3c k j (i + 1)%Z - e3c k j i)
               - dtodx3 g * (e1c (k + 1)%Z j i - e1c k j i)
          else 0)
  /\ B3i g' k j i
     = B3i g k j i
       + (if advanced_B3i nghost order g k j i
          then dtodx2 g * (e1c k (j + 1)%Z i - e1c k j i)
               - dtodx1 g * (e2c k j (i + 1)%Z - e2c k j i)
          else 0).
Proof.
  unfold integrate_3d_vl_step11_mhd; cbv zeta.
  rewrite step11_B1i, step11_B2i, step11_B3i.
  repeat split; f_equal.
  - destruct (advanced_B1i nghost order g k j i) eqn:E; [|reflexivity].
    apply advanced_B1i_range in E.
    unfold ct_B1i.
    rewrite !integrate_emf2_corner_value, !integrate_emf3_corner_value by lia.
    reflexivity.
  - destruct (advanced_B2i nghost order g k j i) eqn:E; [|reflexivity].
    apply advanced_B2i_range in E.
    unfold ct_B2i.
    rewrite !integrate_emf1_corner_value, !integrate_emf3_corner_value by lia.
    reflexivity.
  - destruct (advanced_B3i nghost order g k j i) eqn:E; [|reflexivity].
    apply advanced_B3i_range in E.
    unfold ct_B3i.
    rewrite !integrate_emf1_corner_value, !integrate_emf2_corner_value by lia.
    reflexivity.
Qed.

End Step11Mhd.

(** X8.  On a block with at least one cell each way and a number of ghost
    zones that [integrate_init_3d] accepts, Step 11 never uses a corner EMF
    that the three [integrate_emf*_corner] calls before it did not write:
    whatever the arrays [emf1], [emf2], [emf3] held on entry, the face
    fields after the corner integration and the CT update are the same. *)
Theorem step11_reads_no_stale_emf
    (nghost : Z) (order : Order) (g : Grid)
    (x1Flux x2Flux x3Flux : arr3 Cons1D) (cc : EmfCC.t)
    (emf1 emf2 emf3 emf1' emf2' emf3' : arr3 R) (k j i : Z) :
  integrate_init_3d nghost order = Init_ok ->
  (is_ g <= ie g)%Z -> (js g <= je g)%Z -> (ks g <= ke g)%Z ->
  let ga := integrate_3d_vl_step11_mhd nghost order g x1Flux x2Flux x3Flux cc
              emf1 emf2 emf3 in
  let gb := integrate_3d_vl_step11_mhd nghost order g x1Flux x2Flux x3Flux cc
              emf1' emf2' emf3' in
  B1i ga k j i = B1i gb k j i
  /\ B2i ga k j i = B2i gb k j i
  /\ B3i ga k j i = B3i gb k j i.
Proof.
  intros Hinit Hi Hj Hk ga gb.
  destruct (step11_mhd_faces nghost order g x1Flux x2Flux x3Flux cc
              Hinit Hi Hj Hk emf1 emf2 emf3 k j i) as (a1 & a2 & a3).
  destruct (step11_mhd_faces nghost order g x1Flux x2Flux x3Flux cc
              Hinit Hi Hj Hk emf1' emf2' emf3' k j i) as (b1 & b2 & b3).
  unfold ga, gb.
  rewrite a1, a2, a3, b1, b2, b3; auto.
Qed.

Lemma step11_reads_no_stale_emf_witness :
  let g := mkGrid 4 7 4 7 4 7 1 1 2 4
             (fun k j i => IZR i) (fun k j i => IZR (k * j))
             (fun k j i => IZR (i - k)) in
  let F : arr3 Cons1D := fun k j i => Cons1D.mk (IZR i) 0 0 0 0 (IZR j) (IZR k) [] in
  let cc := EmfCC.mk (fun k j i => IZR k) (fun k j i => 2) (fun k j i => IZR j) in
  let stale : arr3 R := fun k j i => IZR (k + j + i) in
  let zero : arr3 R := fun k j i => 0 in
  let c := 5%Z in
  B1i (integrate_3d_vl_step11_mhd 4 SECOND_ORDER g F F F cc stale stale stale)
    c c c
  = B1i (integrate_3d_vl_step11_mhd 4 SECOND_ORDER g F F F cc zero zero zero)
      c c c.
Proof.
  intros g F cc stale zero c.
  assert (Hi : (is_ g <= ie g)%Z) by (simpl; lia).
  assert (Hj : (js g <= je g)%Z) by (simpl; lia).
  assert (Hk : (ks g <= ke g)%Z) by (simpl; lia).
  exact (proj1 (step11_reads_no_stale_emf 4 SECOND_ORDER g F F F cc
                  stale stale stale zero zero zero c c c eq_refl Hi Hj Hk)).
Defined.

Ltac sign_cases :=
  repeat match goal with
         | |- context [Rgt_dec ?x ?y] => destruct (Rgt_dec x y)
         | |- context [Rlt_dec ?x ?y] => destruct (Rlt_dec x y)
         end; lra.

(** For fluxes and reference EMFs that are uniform and consistent with one
    another, every corner EMF is the common value, whatever the signs of
    the mass fluxes. *)
Lemma corner_emf_uniform
    (x1Flux x2Flux x3Flux : arr3 Cons1D) (cc : EmfCC.t) (e1 e2 e3 : R) :
  (forall k j i,
      Cons1D.By (x1Flux k j i) = - e3 /\ Cons1D.Bz (x1Flux k j i) = e2
      /\ Cons1D.By (x2Flux k j i) = - e1 /\ Cons1D.Bz (x2Flux k j i) = e3
      /\ Cons1D.By (x3Flux k j i) = - e2 /\ Cons1D.Bz (x3Flux k j i) = e1
      /\ EmfCC.emf1_cc cc k j i = e1 /\ EmfCC.emf2_cc cc k j i = e2
      /\ EmfCC.emf3_cc cc k j i = e3) ->
  forall k j i,
    emf1_corner x2Flux x3Flux (EmfCC.emf1_cc cc) k j i = e1
    /\ emf2_corner x1Flux x3Flux (EmfCC.emf2_cc cc) k j i = e2
    /\ emf3_corner x1Flux x2Flux (EmfCC.emf3_cc cc) k j i = e3.
Proof.
  intros H k j i.
  assert (H1y : forall k j i, Cons1D.By (x1Flux k j i) = - e3) by (intros; apply H).
  assert (H1z : forall k j i, Cons1D.Bz (x1Flux k j i) = e2) by (intros; apply H).
  assert (H2y : forall k j i, Cons1D.By (x2Flux k j i) = - e1) by (intros; apply H).
  assert (H2z : forall k j i, Cons1D.Bz (x2Flux k j i) = e3) by (intros; apply H).
  assert (H3y : forall k j i, Cons1D.By (x3Flux k j i) = - e2) by (intros; apply H).
  assert (H3z : forall k j i, Cons1D.Bz (x3Flux k j i) = e1) by (intros; apply H).
  assert (Hc1 : forall k j i, EmfCC.emf1_cc cc k j i = e1) by (intros; apply H).
  assert (Hc2 : forall k j i, EmfCC.emf2_cc cc k j i = e2) by (intros; apply H).
  assert (Hc3 : forall k j i, EmfCC.emf3_cc cc k j i = e3) by (intros; apply H).
  repeat split.
  - unfold emf1_corner, de1_l2, de1_r2, de1_l3, de1_r3.
    rewrite ?H2y, ?H3z, ?Hc1; sign_cases.
  - unfold emf2_corner, de2_l1, de2_r1, de2_l3, de2_r3.
    rewrite ?H1z, ?H3y, ?Hc2; sign_cases.
  - unfold emf3_corner, de3_l1, de3_r1, de3_l2, de3_r2.
    rewrite ?H1y, ?H2z, ?Hc3; sign_cases.
Qed.

(** X9.  A uniform state is a fixed point of the CT update (on a block
    with at least one cell each way and accepted ghost zones): if the face
    fluxes and the reference EMFs are uniform over the grid and consistent
    ([x1Flux.By = -e3], [x1Flux.Bz = e2], [x2Flux.By = -e1],
    [x2Flux.Bz = e3], [x3Flux.By = -e2], [x3Flux.Bz = e1],
    [emf*_cc = e*]), the corner integration followed by Step 11 leaves every
    face field as it was, whatever the mass fluxes and the old corner
    arrays. *)
Theorem step11_uniform_fixed_point
    (nghost : Z) (order : Order) (g : Grid)
    (x1Flux x2Flux x3Flux : arr3 Cons1D) (cc : EmfCC.t)
    (emf1 emf2 emf3 : arr3 R) (e1 e2 e3 : R) :
  integrate_init_3d nghost order = Init_ok ->
  (is_ g <= ie g)%Z -> (js g <= je g)%Z -> (ks g <= ke g)%Z ->
  (forall k j i,
      Cons1D.By (x1Flux k j i) = - e3 /\ Cons1D.Bz (x1Flux k j i) = e2
      /\ Cons1D.By (x2Flux k j i) = - e1 /\ Cons1D.Bz (x2Flux k j i) = e3
      /\ Cons1D.By (x3Flux k j i) = - e2 /\ Cons1D.Bz (x3Flux k j i) = e1
      /\ EmfCC.emf1_cc cc k j i = e1 /\ EmfCC.emf2_cc cc k j i = e2
      /\ EmfCC.emf3_cc cc k j i = e3) ->
  let g' := integrate_3d_vl_step11_mhd nghost order g x1Flux x2Flux x3Flux cc
              emf1 emf2 emf3 in
  forall k j i,
    B1i g' k j i = B1i g k j i
    /\ B2i g' k j i = B2i g k j i
    /\ B3i g' k j i = B3i g k j i.
Proof.
  intros Hinit Hi Hj Hk H g' k j i.
  pose proof (corner_emf_uniform x1Flux x2Flux x3Flux cc e1 e2 e3 H) as Hc.
  destruct (step11_mhd_faces nghost order g x1Flux x2Flux x3Flux cc
              Hinit Hi Hj Hk emf1 emf2 emf3 k j i) as (a1 & a2 & a3).
  unfold g'; rewrite a1, a2, a3.
  assert (E1 : forall k j i,
             emf1_corner x2Flux x3Flux (EmfCC.emf1_cc cc) k j i = e1)
    by (intros; apply Hc).
  assert (E2 : forall k j i,
             emf2_corner x1Flux x3Flux (EmfCC.emf2_cc cc) k j i = e2)
    by (intros; apply Hc).
  assert (E3 : forall k j i,
             emf3_corner x1Flux x2Flux (EmfCC.emf3_cc cc) k j i = e3)
    by (intros; apply Hc).
  rewrite !E1, !E2, !E3.
  repeat split;
    match goal with |- context [if ?b then _ else _] => destruct b end; lra.
Qed.

Lemma step11_uniform_fixed_point_witness :
  let g := mkGrid 4 7 4 7 4 7 1 1 2 4
             (fun k j i => IZR i) (fun k j i => IZR (k * j))
             (fun k j i => IZR (i - k)) in
  let F1 : arr3 Cons1D := fun k j i => Cons1D.mk (IZR i) 0 0 0 0 (- 3) 2 [] in
  let F2 : arr3 Cons1D := fun k j i => Cons1D.mk (IZR (j - 5)) 0 0 0 0 (- 1) 3 [] in
  let F3 : arr3 Cons1D := fun k j i => Cons1D.mk 0 0 0 0 0 (- 2) 1 [] in
  let cc := EmfCC.mk (fun k j i => 1) (fun k j i => 2) (fun k j i => 3) in
  let stale : arr3 R := fun k j i => IZR (k + j + i) in
  let c := 5%Z in
  B1i (integrate_3d_vl_step11_mhd 4 SECOND_ORDER g F1 F2 F3 cc stale stale stale)
    c c c
  = B1i g c c c.
Proof.
  intros g F1 F2 F3 cc stale c.
  assert (Hu : forall k j i,
             Cons1D.By (F1 k j i) = - 3 /\ Cons1D.Bz (F1 k j i) = 2
             /\ Cons1D.By (F2 k j i) = - 1 /\ Cons1D.Bz (F2 k j i) = 3
             /\ Cons1D.By (F3 k j i) = - 2 /\ Cons1D.Bz (F3 k j i) = 1
             /\ EmfCC.emf1_cc cc k j i = 1 /\ EmfCC.emf2_cc cc k j i = 2
             /\ EmfCC.emf3_cc cc k j i = 3)
    by (intros k j i; simpl; repeat split; reflexivity).
  assert (Hi : (is_ g <= ie g)%Z) by (simpl; lia).
  assert (Hj : (js g <= je g)%Z) by (simpl; lia).
  assert (Hk : (ks g <= ke g)%Z) by (simpl; lia).
  exact (proj1 (step11_uniform_fixed_point 4 SECOND_ORDER g F1 F2 F3 cc
                  stale stale stale 1 2 3 eq_refl Hi Hj Hk Hu c c c)).
Defined.

(** ** The predictor CT update of Step 5 *)

Section CTPredictor.

Variable nghost : Z.
Variable g : Grid.
Variables emf1 emf2 emf3 : arr3 R.
Variable f : Faces.t.

(** The face under observation. *)
Variables k' j' i' : Z.

Local Abbreviation il := (il nghost g).
Local Abbreviation iu := (iu nghost g).
Local Abbreviation jl := (jl nghost g).
Local Abbreviation ju := (ju nghost g).
Local Abbreviation kl := (kl nghost g).
Local Abbreviation ku := (ku nghost g).

Lemma add_B1_x1Face_hit (s : Faces.t) (k j i : Z) :
  Faces.B1_x1Face (add_B1_x1Face s k j i (ct_B1_x1Face g emf2 emf3 k j i)) k' j' i'
  = Faces.B1_x1Face s k' j' i'
    + (if same_index k j i k' j' i' then ct_B1_x1Face g emf2 emf3 k' j' i' else 0).
Proof.
  unfold add_B1_x1Face; cbn [Faces.B1_x1Face].
  rewrite arr3_add_get.
  destruct (same_index k j i k' j' i') eqn:E; [|reflexivity].
  apply same_index_eq in E as (-> & -> & ->); reflexivity.
Qed.

Lemma add_B2_x2Face_hit (s : Faces.t) (k j i : Z) :
  Faces.B2_x2Face (add_B2_x2Face s k j i (ct_B2_x2Face g emf1 emf3 k j i)) k' j' i'
  = Faces.B2_x2Face s k' j' i'
    + (if same_index k j i k' j' i' then ct_B2_x2Face g emf1 emf3 k' j' i' else 0).
Proof.
  unfold add_B2_x2Face; cbn [Faces.B2_x2Face].
  rewrite arr3_add_get.
  destruct (same_index k j i k' j' i') eqn:E; [|reflexivity].
  apply same_index_eq in E as (-> & -> & ->); reflexivity.
Qed.

Lemma add_B3_x3Face_hit (s : Faces.t) (k j i : Z) :
  Faces.B3_x3Face (add_B3_x3Face s k j i (ct_B3_x3Face g emf1 emf2 k j i)) k' j' i'
  = Faces.B3_x3Face s k' j' i'
    + (if same_index k j i k' j' i' then ct_B3_x3Face g emf1 emf2 k' j' i' else 0).
Proof.
  unfold add_B3_x3Face; cbn [Faces.B3_x3Face].
  rewrite arr3_add_get.
  destruct (same_index k j i k' j' i') eqn:E; [|reflexivity].
  apply same_index_eq in E as (-> & -> & ->); reflexivity.
Qed.

(** Each [B1_x1Face] face in [advanced_B1_x1Face] receives its increment
    once, every other one is left alone. *)
Lemma step5_B1_x1Face :
  Faces.B1_x1Face (integrate_3d_vl_step5_ct nghost g emf1 emf2 emf3 f) k' j' i'
  = Faces.B1_x1Face f k' j' i'
    + (if advanced_B1_x1Face nghost g k' j' i'
       then ct_B1_x1Face g emf2 emf3 k' j' i' else 0).
Proof.
  unfold integrate_3d_vl_step5_ct; cbv zeta.
  rewrite (for_loop_preserve _ (fun s => Faces.B1_x1Face s k' j' i')).
  2:{ intros j s. apply (for_loop_preserve _ (fun s => Faces.B1_x1Face s k' j' i')).
      reflexivity. }
  unfold advanced_B1_x1Face.
  rewrite <- andb_assoc.
  apply (for_loop_hit _ (fun s => Faces.B1_x1Face s k' j' i') _
           (fun k => (k =? k')%Z
                     && (in_range (jl + 1) (ju - 1) j'
                         && (in_range (il + 1) (iu - 1) i' || (i' =? iu)%Z)))).
  2:{ reflexivity. }
  intros k s.
  rewrite (for_loop_preserve _ (fun s => Faces.B1_x1Face s k' j' i')) by reflexivity.
  rewrite (for_loop_hit _ (fun s => Faces.B1_x1Face s k' j' i')
             (ct_B1_x1Face g emf2 emf3 k' j' i')
             (fun j => (j =? j')%Z
                       && ((k =? k')%Z
                           && (in_range (il + 1) (iu - 1) i' || (i' =? iu)%Z)))
             j' ((k =? k')%Z
                 && (in_range (il + 1) (iu - 1) i' || (i' =? iu)%Z))).
  - f_equal.
    destruct (k =? k')%Z, (in_range (jl + 1) (ju - 1) j'),
      (in_range (il + 1) (iu - 1) i' || (i' =? iu)%Z); reflexivity.
  - intros j s0.
    rewrite add_B1_x1Face_hit.
    rewrite (for_loop_hit _ (fun s => Faces.B1_x1Face s k' j' i')
               (ct_B1_x1Face g emf2 emf3 k' j' i')
               (fun i => same_index k j i k' j' i')
               i' ((k =? k')%Z && (j =? j')%Z)).
    + unfold same_index, in_range.
      destruct (Z.eqb_spec k k'), (Z.eqb_spec j j'), (Z.eqb_spec iu i'),
        (Z.eqb_spec i' iu), (Z.leb_spec (il + 1) i'),
        (Z.leb_spec i' (iu - 1)); simpl; try lra; lia.
    + intros i s1.
      rewrite <- add_B1_x1Face_hit.
      reflexivity.
    + intros i; unfold same_index.
      destruct (k =? k')%Z, (j =? j')%Z, (i =? i')%Z; reflexivity.
  - reflexivity.
Qed.

(** The same for the [B2_x2Face] faces in [advanced_B2_x2Face]. *)
Lemma step5_B2_x2Face :
  Faces.B2_x2Face (integrate_3d_vl_step5_ct nghost g emf1 emf2 emf3 f) k' j' i'
  = Faces.B2_x2Face f k' j' i'
    + (if advanced_B2_x2Face nghost g k' j' i'
       then ct_B2_x2Face g emf1 emf3 k' j' i' else 0).
Proof.
  unfold integrate_3d_vl_step5_ct; cbv zeta.
  rewrite (for_loop_preserve _ (fun s => Faces.B2_x2Face s k' j' i')).
  2:{ intros j s. apply (for_loop_preserve _ (fun s => Faces.B2_x2Face s k' j' i')).
      reflexivity. }
  unfold advanced_B2_x2Face.
  rewrite <- andb_assoc.
  apply (for_loop_hit _ (fun s => Faces.B2_x2Face s k' j' i') _
           (fun k => (k =? k')%Z
                     && (in_range (il + 1) (iu - 1) i'
                         && (in_range (jl + 1) (ju - 1) j' || (j' =? ju)%Z)))).
  2:{ reflexivity. }
  intros k s.
  rewrite (for_loop_hit _ (fun s => Faces.B2_x2Face s k' j' i')
             (ct_B2_x2Face g emf1 emf3 k' j' i')
             (fun i => same_index k ju i k' j' i')
             i' ((k =? k')%Z && (ju =? j')%Z)).
  2:{ intros i s0; apply add_B2_x2Face_hit. }
  2:{ intros i; unfold same_index.
      destruct (k =? k')%Z, (ju =? j')%Z, (i =? i')%Z; reflexivity. }
  rewrite (for_loop_hit _ (fun s => Faces.B2_x2Face s k' j' i')
             (ct_B2_x2Face g emf1 emf3 k' j' i')
             (fun j => (j =? j')%Z
                       && ((k =? k')%Z && in_range (il + 1) (iu - 1) i'))
             j' ((k =? k')%Z && in_range (il + 1) (iu - 1) i')).
  - unfold in_range.
    destruct (Z.eqb_spec k k'), (Z.eqb_spec ju j'), (Z.eqb_spec j' ju),
      (Z.leb_spec (jl + 1) j'), (Z.leb_spec j' (ju - 1)),
      (Z.leb_spec (il + 1) i'), (Z.leb_spec i' (iu - 1)); simpl;
      try lra; lia.
  - intros j s0.
    change (Faces.B2_x2Face (add_B1_x1Face ?x _ _ _ _) k' j' i') with (Faces.B2_x2Face x k' j' i').
    rewrite (for_loop_hit _ (fun s => Faces.B2_x2Face s k' j' i')
               (ct_B2_x2Face g emf1 emf3 k' j' i')
               (fun i => same_index k j i k' j' i')
               i' ((k =? k')%Z && (j =? j')%Z)).
    + f_equal.
      destruct (k =? k')%Z, (j =? j')%Z, (in_range (il + 1) (iu - 1) i');
        reflexivity.
    + intros i s1.
      rewrite <- add_B2_x2Face_hit.
      reflexivity.
    + intros i; unfold same_index.
      destruct (k =? k')%Z, (j =? j')%Z, (i =? i')%Z; reflexivity.
  - reflexivity.
Qed.

(** The same for the [B3_x3Face] faces in [advanced_B3_x3Face]. *)
Lemma step5_B3_x3Face :
  Faces.B3_x3Face (integrate_3d_vl_step5_ct nghost g emf1 emf2 emf3 f) k' j' i'
  = Faces.B3_x3Face f k' j' i'
    + (if advanced_B3_x3Face nghost g k' j' i'
       then ct_B3_x3Face g emf1 emf2 k' j' i' else 0).
Proof.
  unfold integrate_3d_vl_step5_ct; cbv zeta.
  rewrite (for_loop_hit _ (fun s => Faces.B3_x3Face s k' j' i')
             (ct_B3_x3Face g emf1 emf2 k' j' i')
             (fun j => (j =? j')%Z
                       && (in_range (il + 1) (iu - 1) i' && (ku =? k')%Z))
             j' (in_range (il + 1) (iu - 1) i' && (ku =? k')%Z)).
  2:{ intros j s.
      rewrite (for_loop_hit _ (fun s => Faces.B3_x3Face s k' j' i')
                 (ct_B3_x3Face g emf1 emf2 k' j' i')
                 (fun i => same_index ku j i k' j' i')
                 i' ((ku =? k')%Z && (j =? j')%Z)).
      - f_equal.
        destruct (ku =? k')%Z, (j =? j')%Z, (in_range (il + 1) (iu - 1) i');
          reflexivity.
      - intros i s0; apply add_B3_x3Face_hit.
      - intros i; unfold same_index.
        destruct (ku =? k')%Z, (j =? j')%Z, (i =? i')%Z; reflexivity. }
  2:{ reflexivity. }
  rewrite (for_loop_hit _ (fun s => Faces.B3_x3Face s k' j' i')
             (ct_B3_x3Face g emf1 emf2 k' j' i')
             (fun k => (k =? k')%Z
                       && (in_range (jl + 1) (ju - 1) j'
                           && in_range (il + 1) (iu - 1) i'))
             k' (in_range (jl + 1) (ju - 1) j'
                 && in_range (il + 1) (iu - 1) i')).
  - unfold advanced_B3_x3Face, in_range.
    destruct (Z.eqb_spec ku k'), (Z.eqb_spec k' ku),
      (Z.leb_spec (kl + 1) k'), (Z.leb_spec k' (ku - 1)),
      (Z.leb_spec (jl + 1) j'), (Z.leb_spec j' (ju - 1)),
      (Z.leb_spec (il + 1) i'), (Z.leb_spec i' (iu - 1)); simpl;
      try lra; lia.
  - intros k s.
    rewrite (for_loop_preserve _ (fun s => Faces.B3_x3Face s k' j' i')) by reflexivity.
    rewrite (for_loop_hit _ (fun s => Faces.B3_x3Face s k' j' i')
               (ct_B3_x3Face g emf1 emf2 k' j' i')
               (fun j => (j =? j')%Z
                         && ((k =? k')%Z && in_range (il + 1) (iu - 1) i'))
               j' ((k =? k')%Z && in_range (il + 1) (iu - 1) i')).
    + f_equal.
      destruct (k =? k')%Z, (in_range (jl + 1) (ju - 1) j'),
        (in_range (il + 1) (iu - 1) i'); reflexivity.
    + intros j s0.
      change (Faces.B3_x3Face (add_B1_x1Face ?x _ _ _ _) k' j' i') with (Faces.B3_x3Face x k' j' i').
      rewrite (for_loop_hit _ (fun s => Faces.B3_x3Face s k' j' i')
                 (ct_B3_x3Face g emf1 emf2 k' j' i')
                 (fun i => same_index k j i k' j' i')
                 i' ((k =? k')%Z && (j =? j')%Z)).
      * f_equal.
        destruct (k =? k')%Z, (j =? j')%Z, (in_range (il + 1) (iu - 1) i');
          reflexivity.
      * intros i s1.
        rewrite <- add_B3_x3Face_hit.
        reflexivity.
      * intros i; unfold same_index.
        destruct (k =? k')%Z, (j =? j')%Z, (i =? i')%Z; reflexivity.
    + reflexivity.
  - reflexivity.
Qed.

End CTPredictor.

(** X10.  The predictor CT update of Step 5 keeps the discrete divergence of
    the half-step face field [B1_x1Face], [B2_x2Face], [B3_x3Face]: on every
    cell whose six faces it advances (the cells of [il+1..iu-1] x
    [jl+1..ju-1] x [kl+1..ku-1]) the divergence after the update equals the
    divergence before, for any corner EMFs. *)
Theorem step5_preserves_divB
    (nghost : Z) (g : Grid) (emf1 emf2 emf3 : arr3 R) (f : Faces.t)
    (k j i : Z) :
  cell_advanced_half nghost g k j i = true ->
  divB_Faces g (integrate_3d_vl_step5_ct nghost g emf1 emf2 emf3 f) k j i
  = divB_Faces g f k j i.
Proof.
  intros Hcell.
  unfold cell_advanced_half in Hcell.
  apply andb_true_iff in Hcell as [Hcell H3b].
  apply andb_true_iff in Hcell as [Hcell H3a].
  apply andb_true_iff in Hcell as [Hcell H2b].
  apply andb_true_iff in Hcell as [Hcell H2a].
  apply andb_true_iff in Hcell as [H1a H1b].
  unfold divB_Faces.
  rewrite !step5_B1_x1Face, !step5_B2_x2Face, !step5_B3_x3Face.
  rewrite H1a, H1b, H2a, H2b, H3a, H3b.
  unfold ct_B1_x1Face, ct_B2_x2Face, ct_B3_x3Face, q1, q2, q3,
    dtodx1, dtodx2, dtodx3, Rdiv.
  rewrite half_eq; ring.
Qed.

Lemma step5_preserves_divB_witness :
  let g := mkGrid 4 7 4 7 4 7 1 1 2 4
             (fun k j i => 0) (fun k j i => 0) (fun k j i => 0) in
  let f := Faces.mk (fun k j i => IZR i) (fun k j i => IZR (k * j))
             (fun k j i => IZR (i - k)) in
  let emf1 : arr3 R := fun k j i => IZR (k * i) in
  let emf2 : arr3 R := fun k j i => IZR (j * j) in
  let emf3 : arr3 R := fun k j i => IZR (k + j * i) in
  let c := 1%Z in
  divB_Faces g (integrate_3d_vl_step5_ct 4 g emf1 emf2 emf3 f) c c c
  = divB_Faces g f c c c.
Proof.
  intros g f emf1 emf2 emf3 c.
  exact (step5_preserves_divB 4 g emf1 emf2 emf3 f c c c eq_refl).
Defined.

(** ** Sums over ranges of cells *)

Lemma sum_iter_acc (f : Z -> R) (n : nat) :
  forall lo a,
    for_iter n lo (fun i acc => acc + f i) a
    = a + for_iter n lo (fun i acc => acc + f i) 0.
Proof.
  induction n as [|n IH]; intros lo a; simpl.
  - ring.
  - rewrite (IH _ (a + f lo)), (IH _ (0 + f lo)); ring.
Qed.

Lemma sum_iter_ext (f h : Z -> R) (n : nat) :
  forall lo,
    (forall i, (lo <= i < lo + Z.of_nat n)%Z -> f i = h i) ->
    for_iter n lo (fun i acc => acc + f i) 0
    = for_iter n lo (fun i acc => acc + h i) 0.
Proof.
  induction n as [|n IH]; intros lo H; simpl.
  - reflexivity.
  - rewrite (sum_iter_acc f), (sum_iter_acc h).
    rewrite (H lo) by lia.
    rewrite (IH (lo + 1)%Z); [reflexivity|].
    intros i Hi; apply H; lia.
Qed.

Lemma sum_range_ext (lo hi : Z) (f h : Z -> R) :
  (forall i, (lo <= i <= hi)%Z -> f i = h i) ->
  sum_range lo hi f = sum_range lo hi h.
Proof.
  intros H; unfold sum_range, for_loop.
  apply sum_iter_ext; intros i Hi; apply H; lia.
Qed.

Lemma sum_range_plus (lo hi : Z) (f h : Z -> R) :
  sum_range lo hi (fun i => f i + h i) = sum_range lo hi f + sum_range lo hi h.
Proof.
  unfold sum_range, for_loop.
  generalize (Z.to_nat (hi + 1 - lo)); intros n; revert lo.
  induction n as [|n IH]; intros lo; simpl.
  - ring.
  - rewrite (sum_iter_acc (fun i => f i + h i)), (sum_iter_acc f),
      (sum_iter_acc h), IH; ring.
Qed.

Lemma sum_range_scal (lo hi : Z) (c : R) (f : Z -> R) :
  sum_range lo hi (fun i => c * f i) = c * sum_range lo hi f.
Proof.
  unfold sum_range, for_loop.
  generalize (Z.to_nat (hi + 1 - lo)); intros n; revert lo.
  induction n as [|n IH]; intros lo; simpl.
  - ring.
  - rewrite (sum_iter_acc (fun i => c * f i)), (sum_iter_acc f), IH; ring.
Qed.

Lemma sum_range_minus (lo hi : Z) (f h : Z -> R) :
  sum_range lo hi (fun i => f i - h i) = sum_range lo hi f - sum_range lo hi h.
Proof.
  rewrite (sum_range_ext lo hi _ (fun i => f i + (-1) * h i))
    by (intros; ring).
  rewrite sum_range_plus, sum_range_scal; ring.
Qed.

Lemma sum_iter_telescope (h : Z -> R) (n : nat) :
  forall lo,
    for_iter n lo (fun i acc => acc + (h (i + 1)%Z - h i)) 0
    = h (lo + Z.of_nat n)%Z - h lo.
Proof.
  induction n as [|n IH]; intros lo.
  - simpl; rewrite Z.add_0_r; ring.
  - simpl for_iter.
    rewrite sum_iter_acc, IH.
    replace (lo + 1 + Z.of_nat n)%Z with (lo + Z.of_nat (S n))%Z by lia.
    ring.
Qed.

(** A sum of differences between neighbours collapses to the two ends. *)
Lemma sum_range_telescope (lo hi : Z) (h : Z -> R) :
  (lo <= hi + 1)%Z ->
  sum_range lo hi (fun i => h (i + 1)%Z - h i) = h (hi + 1)%Z - h lo.
Proof.
  intros Hle; unfold sum_range, for_loop.
  rewrite sum_iter_telescope.
  replace (lo + Z.of_nat (Z.to_nat (hi + 1 - lo)))%Z with (hi + 1)%Z by lia.
  reflexivity.
Qed.

(** Names the sums of the goal, identifying those that differ by
    eta-expansion only, so that [ring] sees them as atoms. *)
Ltac atomize_sums :=
  repeat match goal with
         | |- context [sum_range ?a ?b ?f] =>
             let x := fresh "S" in
             set (x := sum_range a b f);
             repeat match goal with
                    | |- context [sum_range a b ?h] =>
                        change (sum_range a b h) with x
                    end;
             clearbody x
         end.

(** The total of a flux-form update over a box of cells: the interior
    fluxes cancel and only those through the six sides of the box remain. *)
Lemma flux_form_total
    (klo khi jlo jhi ilo ihi : Z) (a1 a2 a3 : R)
    (u u' F1 F2 F3 : Z -> Z -> Z -> R) :
  (klo <= khi + 1)%Z -> (jlo <= jhi + 1)%Z -> (ilo <= ihi + 1)%Z ->
  (forall k j i,
      (klo <= k <= khi)%Z -> (jlo <= j <= jhi)%Z -> (ilo <= i <= ihi)%Z ->
      u' k j i
      = u k j i - a1 * (F1 k j (i + 1)%Z - F1 k j i)
        - a2 * (F2 k (j + 1)%Z i - F2 k j i)
        - a3 * (F3 (k + 1)%Z j i - F3 k j i)) ->
  sum_range klo khi (fun k =>
    sum_range jlo jhi (fun j => sum_range ilo ihi (fun i => u' k j i)))
  = sum_range klo khi (fun k =>
      sum_range jlo jhi (fun j => sum_range ilo ihi (fun i => u k j i)))
    - a1 * sum_range klo khi (fun k =>
             sum_range jlo jhi (fun j =>
               F1 k j (ihi + 1)%Z - F1 k j ilo))
    - a2 * sum_range klo khi (fun k =>
             sum_range ilo ihi (fun i =>
               F2 k (jhi + 1)%Z i - F2 k jlo i))
    - a3 * sum_range jlo jhi (fun j =>
             sum_range ilo ihi (fun i =>
               F3 (khi + 1)%Z j i - F3 klo j i)).
Proof.
  intros Hk Hj Hi Hcell.
  (* rows along i *)
  assert (Hrow : forall k j,
             (klo <= k <= khi)%Z -> (jlo <= j <= jhi)%Z ->
             sum_range ilo ihi (fun i => u' k j i)
             = sum_range ilo ihi (fun i => u k j i)
               - a1 * (F1 k j (ihi + 1)%Z - F1 k j ilo)
               - a2 * (sum_range ilo ihi (fun i => F2 k (j + 1)%Z i)
                       - sum_range ilo ihi (fun i => F2 k j i))
               - a3 * (sum_range ilo ihi (fun i => F3 (k + 1)%Z j i)
                       - sum_range ilo ihi (fun i => F3 k j i))).
  { intros k j Hk' Hj'.
    rewrite (sum_range_ext ilo ihi _
               (fun i => (u k j i + (- a1) * (F1 k j (i + 1)%Z - F1 k j i))
                         + ((- a2) * (F2 k (j + 1)%Z i - F2 k j i)
                            + (- a3) * (F3 (k + 1)%Z j i - F3 k j i))))
      by (intros i Hi'; rewrite Hcell by assumption; ring).
    rewrite !sum_range_plus, !sum_range_scal.
    rewrite (sum_range_telescope ilo ihi (fun i => F1 k j i)) by assumption.
    rewrite !sum_range_minus.
    atomize_sums; ring. }
  (* planes along j *)
  assert (Hplane : forall k,
             (klo <= k <= khi)%Z ->
             sum_range jlo jhi (fun j => sum_range ilo ihi (fun i => u' k j i))
             = sum_range jlo jhi (fun j => sum_range ilo ihi (fun i => u k j i))
               - a1 * sum_range jlo jhi (fun j =>
                        F1 k j (ihi + 1)%Z - F1 k j ilo)
               - a2 * sum_range ilo ihi (fun i =>
                        F2 k (jhi + 1)%Z i - F2 k jlo i)
               - a3 * (sum_range jlo jhi (fun j =>
                         sum_range ilo ihi (fun i => F3 (k + 1)%Z j i))
                       - sum_range jlo jhi (fun j =>
                           sum_range ilo ihi (fun i => F3 k j i)))).
  { intros k Hk'.
    rewrite (sum_range_ext jlo jhi _
               (fun j =>
                  (sum_range ilo ihi (fun i => u k j i)
                   + (- a1) * (F1 k j (ihi + 1)%Z - F1 k j ilo))
                  + ((- a2) * (sum_range ilo ihi (fun i => F2 k (j + 1)%Z i)
                               - sum_range ilo ihi (fun i => F2 k j i))
                     + (- a3) * (sum_range ilo ihi (fun i => F3 (k + 1)%Z j i)
                                 - sum_range ilo ihi (fun i => F3 k j i)))))
      by (intros j Hj'; rewrite Hrow by assumption; ring).
    rewrite !sum_range_plus, !sum_range_scal.
    rewrite (sum_range_telescope jlo jhi
               (fun j => sum_range ilo ihi (fun i => F2 k j i))) by assumption.
    rewrite (sum_range_minus jlo jhi
               (fun j => sum_range ilo ihi (fun i => F3 (k + 1)%Z j i))).
    rewrite (sum_range_minus ilo ihi (fun i => F2 k (jhi + 1)%Z i)).
    atomize_sums; ring. }
  rewrite (sum_range_ext klo khi _
             (fun k =>
                (sum_range jlo jhi (fun j => sum_range ilo ihi (fun i => u k j i))
                 + (- a1) * sum_range jlo jhi (fun j =>
                               F1 k j (ihi + 1)%Z - F1 k j ilo))
                + ((- a2) * sum_range ilo ihi (fun i =>
                               F2 k (jhi + 1)%Z i - F2 k jlo i)
                   + (- a3) * (sum_range jlo jhi (fun j =>
                                 sum_range ilo ihi (fun i => F3 (k + 1)%Z j i))
                               - sum_range jlo jhi (fun j =>
                                   sum_range ilo ihi (fun i => F3 k j i))))))
    by (intros k Hk'; rewrite Hplane by assumption; ring).
  rewrite !sum_range_plus, !sum_range_scal.
  rewrite (sum_range_telescope klo khi
             (fun k => sum_range jlo jhi (fun j =>
                         sum_range ilo ihi (fun i => F3 k j i)))) by assumption.
  rewrite (sum_range_ext jlo jhi
             (fun j => sum_range ilo ihi (fun i =>
                         F3 (khi + 1)%Z j i - F3 klo j i))
             (fun j => sum_range ilo ihi (fun i => F3 (khi + 1)%Z j i)
                       - sum_range ilo ihi (fun i => F3 klo j i)))
    by (intros; apply sum_range_minus).
  rewrite (sum_range_minus jlo jhi
             (fun j => sum_range ilo ihi (fun i => F3 (khi + 1)%Z j i))).
  atomize_sums; ring.
Qed.

(** ** The hydro updates of Step 6 and Step 13 *)

Section CellNest.

Context {T : Type}.
Variable F : Z -> Z -> Z -> T -> T.
Variables klo khi jlo jhi ilo ihi : Z.

(** A nest that replaces every cell of its window by [F k j i] of the cell
    does so once for each cell of the window and leaves the others. *)
Lemma cell_nest_in (U : arr3 T) (k j i : Z) :
  (klo <= k <= khi)%Z -> (jlo <= j <= jhi)%Z -> (ilo <= i <= ihi)%Z ->
  for_loop klo khi (fun k U =>
    for_loop jlo jhi (fun j U =>
      for_loop ilo ihi (fun i U =>
        arr3_set U k j i (F k j i (U k j i))) U) U) U k j i
  = F k j i (U k j i).
Proof.
  intros Hk Hj Hi.
  apply (nest3_apply (fun k j i U => arr3_set U k j i (F k j i (U k j i)))
           (fun U : arr3 T => U k j i) k j i klo khi jlo jhi ilo ihi); auto.
  - intros k0 j0 i0 s Hne; apply arr3_set_neq; assumption.
  - intros s; apply arr3_set_eq.
Qed.

Lemma cell_nest_out (U : arr3 T) (k j i : Z) :
  ~ ((klo <= k <= khi)%Z /\ (jlo <= j <= jhi)%Z /\ (ilo <= i <= ihi)%Z) ->
  for_loop klo khi (fun k U =>
    for_loop jlo jhi (fun j U =>
      for_loop ilo ihi (fun i U =>
        arr3_set U k j i (F k j i (U k j i))) U) U) U k j i
  = U k j i.
Proof.
  intros Hout.
  apply (nest3_miss (fun k j i U => arr3_set U k j i (F k j i (U k j i)))
           (fun U : arr3 T => U k j i) k j i klo khi jlo jhi ilo ihi); auto.
  intros k0 j0 i0 s Hne; apply arr3_set_neq; assumption.
Qed.

End CellNest.

Section HydroUpdate.

Variable nghost : Z.
Variable order : Order.
Variable ISOTHERMAL : bool.
Variable NSCALARS : nat.
Variable g : Grid.
Variables x1Flux x2Flux x3Flux : arr3 Cons1D.

Local Abbreviation ib := (ib nghost order g).
Local Abbreviation it := (it nghost order g).
Local Abbreviation jb := (jb nghost order g).
Local Abbreviation jt := (jt nghost order g).
Local Abbreviation kb := (kb nghost order g).
Local Abbreviation kt := (kt nghost order g).
Local Abbreviation step13 :=
  (integrate_3d_vl_step13 nghost order ISOTHERMAL NSCALARS g x1Flux x2Flux x3Flux).

(** Inside the window a cell undergoes the three flux differences in
    turn. *)
Lemma step13_in (U : arr3 Gas) (k j i : Z) :
  (kb + 1 <= k <= kt - 1)%Z -> (jb + 1 <= j <= jt - 1)%Z ->
  (ib + 1 <= i <= it - 1)%Z ->
  step13 U k j i
  = hydro_x3_cell ISOTHERMAL NSCALARS (dtodx3 g)
      (hydro_x2_cell ISOTHERMAL NSCALARS (dtodx2 g)
         (hydro_x1_cell ISOTHERMAL NSCALARS (dtodx1 g) (U k j i)
            (x1Flux k j i) (x1Flux k j (i + 1)%Z))
         (x2Flux k j i) (x2Flux k (j + 1)%Z i))
      (x3Flux k j i) (x3Flux (k + 1)%Z j i).
Proof.
  intros Hk Hj Hi.
  unfold integrate_3d_vl_step13, integrate_3d_vl_step13c,
    integrate_3d_vl_step13b, integrate_3d_vl_step13a.
  rewrite (cell_nest_in
             (fun k j i u => hydro_x3_cell ISOTHERMAL NSCALARS (dtodx3 g) u
                               (x3Flux k j i) (x3Flux (k + 1)%Z j i)))
    by assumption.
  rewrite (cell_nest_in
             (fun k j i u => hydro_x2_cell ISOTHERMAL NSCALARS (dtodx2 g) u
                               (x2Flux k j i) (x2Flux k (j + 1)%Z i)))
    by assumption.
  rewrite (cell_nest_in
             (fun k j i u => hydro_x1_cell ISOTHERMAL NSCALARS (dtodx1 g) u
                               (x1Flux k j i) (x1Flux k j (i + 1)%Z)))
    by assumption.
  reflexivity.
Qed.

Lemma step13_out (U : arr3 Gas) (k j i : Z) :
  ~ ((kb + 1 <= k <= kt - 1)%Z /\ (jb + 1 <= j <= jt - 1)%Z
     /\ (ib + 1 <= i <= it - 1)%Z) ->
  step13 U k j i = U k j i.
Proof.
  intros Hout.
  unfold integrate_3d_vl_step13, integrate_3d_vl_step13c,
    integrate_3d_vl_step13b, integrate_3d_vl_step13a.
  rewrite (cell_nest_out
             (fun k j i u => hydro_x3_cell ISOTHERMAL NSCALARS (dtodx3 g) u
                               (x3Flux k j i) (x3Flux (k + 1)%Z j i)))
    by assumption.
  rewrite (cell_nest_out
             (fun k j i u => hydro_x2_cell ISOTHERMAL NSCALARS (dtodx2 g) u
                               (x2Flux k j i) (x2Flux k (j + 1)%Z i)))
    by assumption.
  apply (cell_nest_out
           (fun k j i u => hydro_x1_cell ISOTHERMAL NSCALARS (dtodx1 g) u
                             (x1Flux k j i) (x1Flux k j (i + 1)%Z)));
    assumption.
Qed.

End HydroUpdate.

(** The totals after Steps 13a to 13c for any quantity that undergoes the
    three flux differences cell by cell. *)
Lemma step13_total
    (nghost : Z) (order : Order) (g : Grid)
    (u u' F1 F2 F3 : Z -> Z -> Z -> R) :
  let kb := kb nghost order g in
  let kt := kt nghost order g in
  let jb := jb nghost order g in
  let jt := jt nghost order g in
  let ib := ib nghost order g in
  let it := it nghost order g in
  (kb + 1 <= kt)%Z -> (jb + 1 <= jt)%Z -> (ib + 1 <= it)%Z ->
  (forall k j i,
      (kb + 1 <= k <= kt - 1)%Z -> (jb + 1 <= j <= jt - 1)%Z ->
      (ib + 1 <= i <= it - 1)%Z ->
      u' k j i
      = u k j i - dtodx1 g * (F1 k j (i + 1)%Z - F1 k j i)
        - dtodx2 g * (F2 k (j + 1)%Z i - F2 k j i)
        - dtodx3 g * (F3 (k + 1)%Z j i - F3 k j i)) ->
  box_total (kb + 1) (kt - 1) (jb + 1) (jt - 1) (ib + 1) (it - 1) u'
  = box_total (kb + 1) (kt - 1) (jb + 1) (jt - 1) (ib + 1) (it - 1) u
    - dtodx1 g * box_side_x1 (kb + 1) (kt - 1) (jb + 1) (jt - 1) (ib + 1) (it - 1) F1
    - dtodx2 g * box_side_x2 (kb + 1) (kt - 1) (jb + 1) (jt - 1) (ib + 1) (it - 1) F2
    - dtodx3 g * box_side_x3 (kb + 1) (kt - 1) (jb + 1) (jt - 1) (ib + 1) (it - 1) F3.
Proof.
  intros kb kt jb jt ib it Hk Hj Hi Hcell.
  unfold box_total, box_side_x1, box_side_x2, box_side_x3.
  apply flux_form_total; try lia; assumption.
Qed.

(** X11.  Steps 13a to 13c conserve mass: over the window of cells they
    update, the total density changes by the mass fluxes through the six
    sides of the window only, all interior fluxes cancelling; a cell
    outside the window is left as it was. *)
Theorem step13_conserves_mass
    (nghost : Z) (order : Order) (ISOTHERMAL : bool) (NSCALARS : nat)
    (g : Grid) (x1Flux x2Flux x3Flux : arr3 Cons1D) (U : arr3 Gas) :
  let kb := kb nghost order g in
  let kt := kt nghost order g in
  let jb := jb nghost order g in
  let jt := jt nghost order g in
  let ib := ib nghost order g in
  let it := it nghost order g in
  let U' := integrate_3d_vl_step13 nghost order ISOTHERMAL NSCALARS g
              x1Flux x2Flux x3Flux U in
  let total := box_total (kb + 1) (kt - 1) (jb + 1) (jt - 1) (ib + 1) (it - 1) in
  let side_x1 := box_side_x1 (kb + 1) (kt - 1) (jb + 1) (jt - 1) (ib + 1) (it - 1) in
  let side_x2 := box_side_x2 (kb + 1) (kt - 1) (jb + 1) (jt - 1) (ib + 1) (it - 1) in
  let side_x3 := box_side_x3 (kb + 1) (kt - 1) (jb + 1) (jt - 1) (ib + 1) (it - 1) in
  (kb + 1 <= kt)%Z -> (jb + 1 <= jt)%Z -> (ib + 1 <= it)%Z ->
  total (fun k j i => Gas.d (U' k j i))
  = total (fun k j i => Gas.d (U k j i))
    - dtodx1 g * side_x1 (fun k j i => Cons1D.d (x1Flux k j i))
    - dtodx2 g * side_x2 (fun k j i => Cons1D.d (x2Flux k j i))
    - dtodx3 g * side_x3 (fun k j i => Cons1D.d (x3Flux k j i))
  /\ (forall k j i,
         ~ ((kb + 1 <= k <= kt - 1)%Z /\ (jb + 1 <= j <= jt - 1)%Z
            /\ (ib + 1 <= i <= it - 1)%Z) ->
         U' k j i = U k j i).
Proof.
  intros kb kt jb jt ib it U' total side_x1 side_x2 side_x3 Hk Hj Hi.
  split.
  - apply (step13_total nghost order g
             (fun k j i => Gas.d (U k j i)) (fun k j i => Gas.d (U' k j i)));
      try assumption.
    intros k j i Hk' Hj' Hi'.
    unfold U'; rewrite step13_in by assumption.
    reflexivity.
  - intros k j i Hout; apply step13_out; assumption.
Qed.

Lemma step13_conserves_mass_witness :
  let g := mkGrid 4 7 4 7 4 7 1 1 2 4
             (fun k j i => 0) (fun k j i => 0) (fun k j i => 0) in
  let F : arr3 Cons1D :=
    fun k j i => Cons1D.mk (IZR (i * j)) 0 0 0 0 0 0 [] in
  let U : arr3 Gas := fun k j i => Gas.mk (IZR (k + 1)) 0 0 0 1 0 0 0 [] in
  let U' := integrate_3d_vl_step13 4 SECOND_ORDER false 0 g F F F U in
  box_total 3 8 3 8 3 8 (fun k j i => Gas.d (U' k j i))
  = box_total 3 8 3 8 3 8 (fun k j i => Gas.d (U k j i))
    - dtodx1 g * box_side_x1 3 8 3 8 3 8 (fun k j i => Cons1D.d (F k j i))
    - dtodx2 g * box_side_x2 3 8 3 8 3 8 (fun k j i => Cons1D.d (F k j i))
    - dtodx3 g * box_side_x3 3 8 3 8 3 8 (fun k j i => Cons1D.d (F k j i)).
Proof.
  intros g F U U'.
  assert (Hk : (kb 4 SECOND_ORDER g + 1 <= kt 4 SECOND_ORDER g)%Z)
    by (vm_compute; discriminate).
  assert (Hj : (jb 4 SECOND_ORDER g + 1 <= jt 4 SECOND_ORDER g)%Z)
    by (vm_compute; discriminate).
  assert (Hi : (ib 4 SECOND_ORDER g + 1 <= it 4 SECOND_ORDER g)%Z)
    by (vm_compute; discriminate).
  exact (proj1 (step13_conserves_mass 4 SECOND_ORDER false 0 g F F F U
                  Hk Hj Hi)).
Defined.



Section HydroPredictor.

Variable nghost : Z.
Variable ISOTHERMAL : bool.
Variable NSCALARS : nat.
Variable g : Grid.
Variables x1Flux x2Flux x3Flux : arr3 Cons1D.

Local Abbreviation il := (il nghost g).
Local Abbreviation iu := (iu nghost g).
Local Abbreviation jl := (jl nghost g).
Local Abbreviation ju := (ju nghost g).
Local Abbreviation kl := (kl nghost g).
Local Abbreviation ku := (ku nghost g).
Local Abbreviation step6 :=
  (integrate_3d_vl_step6 nghost ISOTHERMAL NSCALARS g x1Flux x2Flux x3Flux).

Lemma step6_in (Uhalf : arr3 Gas) (k j i : Z) :
  (kl + 1 <= k <= ku - 1)%Z -> (jl + 1 <= j <= ju - 1)%Z ->
  (il + 1 <= i <= iu - 1)%Z ->
  step6 Uhalf k j i
  = hydro_x3_cell ISOTHERMAL NSCALARS (0.5 * dtodx3 g)
      (hydro_x2_cell ISOTHERMAL NSCALARS (0.5 * dtodx2 g)
         (hydro_x1_cell ISOTHERMAL NSCALARS (0.5 * dtodx1 g) (Uhalf k j i)
            (x1Flux k j i) (x1Flux k j (i + 1)%Z))
         (x2Flux k j i) (x2Flux k (j + 1)%Z i))
      (x3Flux k j i) (x3Flux (k + 1)%Z j i).
Proof.
  intros Hk Hj Hi.
  unfold integrate_3d_vl_step6, integrate_3d_vl_step6c,
    integrate_3d_vl_step6b, integrate_3d_vl_step6a; cbv zeta.
  rewrite (cell_nest_in
             (fun k j i u => hydro_x3_cell ISOTHERMAL NSCALARS (0.5 * dtodx3 g) u
                               (x3Flux k j i) (x3Flux (k + 1)%Z j i)))
    by assumption.
  rewrite (cell_nest_in
             (fun k j i u => hydro_x2_cell ISOTHERMAL NSCALARS (0.5 * dtodx2 g) u
                               (x2Flux k j i) (x2Flux k (j + 1)%Z i)))
    by assumption.
  rewrite (cell_nest_in
             (fun k j i u => hydro_x1_cell ISOTHERMAL NSCALARS (0.5 * dtodx1 g) u
                               (x1Flux k j i) (x1Flux k j (i + 1)%Z)))
    by assumption.
  reflexivity.
Qed.

Lemma step6_out (Uhalf : arr3 Gas) (k j i : Z) :
  ~ ((kl + 1 <= k <= ku - 1)%Z /\ (jl + 1 <= j <= ju - 1)%Z
     /\ (il + 1 <= i <= iu - 1)%Z) ->
  step6 Uhalf k j i = Uhalf k j i.
Proof.
  intros Hout.
  unfold integrate_3d_vl_step6, integrate_3d_vl_step6c,
    integrate_3d_vl_step6b, integrate_3d_vl_step6a; cbv zeta.
  rewrite (cell_nest_out
             (fun k j i u => hydro_x3_cell ISOTHERMAL NSCALARS (0.5 * dtodx3 g) u
                               (x3Flux k j i) (x3Flux (k + 1)%Z j i)))
    by assumption.
  rewrite (cell_nest_out
             (fun k j i u => hydro_x2_cell ISOTHERMAL NSCALARS (0.5 * dtodx2 g) u
                               (x2Flux k j i) (x2Flux k (j + 1)%Z i)))
    by assumption.
  apply (cell_nest_out
           (fun k j i u => hydro_x1_cell ISOTHERMAL NSCALARS (0.5 * dtodx1 g) u
                             (x1Flux k j i) (x1Flux k j (i + 1)%Z)));
    assumption.
Qed.

End HydroPredictor.

(** X13.  The predictor hydro update of Steps 6a to 6c conserves mass over
    its window [kl+1..ku-1] x [jl+1..ju-1] x [il+1..iu-1] with half the
    coefficients: the total density changes by [0.5*dt/dx] times the mass
    fluxes through the sides of the window; the update does not touch the
    cell-centred field, nor any cell outside the window. *)
Theorem step6_conserves_mass
    (nghost : Z) (ISOTHERMAL : bool) (NSCALARS : nat)
    (g : Grid) (x1Flux x2Flux x3Flux : arr3 Cons1D) (Uhalf : arr3 Gas) :
  let kl := kl nghost g in
  let ku := ku nghost g in
  let jl := jl nghost g in
  let ju := ju nghost g in
  let il := il nghost g in
  let iu := iu nghost g in
  let U' := integrate_3d_vl_step6 nghost ISOTHERMAL NSCALARS g
              x1Flux x2Flux x3Flux Uhalf in
  let total := box_total (kl + 1) (ku - 1) (jl + 1) (ju - 1) (il + 1) (iu - 1) in
  let side_x1 := box_side_x1 (kl + 1) (ku - 1) (jl + 1) (ju - 1) (il + 1) (iu - 1) in
  let side_x2 := box_side_x2 (kl + 1) (ku - 1) (jl + 1) (ju - 1) (il + 1) (iu - 1) in
  let side_x3 := box_side_x3 (kl + 1) (ku - 1) (jl + 1) (ju - 1) (il + 1) (iu - 1) in
  (kl + 1 <= ku)%Z -> (jl + 1 <= ju)%Z -> (il + 1 <= iu)%Z ->
  total (fun k j i => Gas.d (U' k j i))
  = total (fun k j i => Gas.d (Uhalf k j i))
    - 0.5 * dtodx1 g * side_x1 (fun k j i => Cons1D.d (x1Flux k j i))
    - 0.5 * dtodx2 g * side_x2 (fun k j i => Cons1D.d (x2Flux k j i))
    - 0.5 * dtodx3 g * side_x3 (fun k j i => Cons1D.d (x3Flux k j i))
  /\ (forall k j i,
         Gas.B1c (U' k j i) = Gas.B1c (Uhalf k j i)
         /\ Gas.B2c (U' k j i) = Gas.B2c (Uhalf k j i)
         /\ Gas.B3c (U' k j i) = Gas.B3c (Uhalf k j i))
  /\ (forall k j i,
         ~ ((kl + 1 <= k <= ku - 1)%Z /\ (jl + 1 <= j <= ju - 1)%Z
            /\ (il + 1 <= i <= iu - 1)%Z) ->
         U' k j i = Uhalf k j i).
Proof.
  intros kl ku jl ju il iu U' total side_x1 side_x2 side_x3 Hk Hj Hi.
  assert (Hdec : forall k j i,
             ((kl + 1 <= k <= ku - 1)%Z /\ (jl + 1 <= j <= ju - 1)%Z
              /\ (il + 1 <= i <= iu - 1)%Z)
             \/ ~ ((kl + 1 <= k <= ku - 1)%Z /\ (jl + 1 <= j <= ju - 1)%Z
                   /\ (il + 1 <= i <= iu - 1)%Z)) by (intros; lia).
  split; [|split].
  - unfold total, side_x1, side_x2, side_x3,
      box_total, box_side_x1, box_side_x2, box_side_x3.
    apply (flux_form_total (kl + 1) (ku - 1) (jl + 1) (ju - 1) (il + 1) (iu - 1)
             (0.5 * dtodx1 g) (0.5 * dtodx2 g) (0.5 * dtodx3 g)
             (fun k j i => Gas.d (Uhalf k j i))
             (fun k j i => Gas.d (U' k j i))
             (fun k j i => Cons1D.d (x1Flux k j i))
             (fun k j i => Cons1D.d (x2Flux k j i))
             (fun k j i => Cons1D.d (x3Flux k j i))); try lia.
    intros k j i Hk' Hj' Hi'.
    unfold U'; rewrite step6_in by assumption.
    reflexivity.
  - intros k j i.
    destruct (Hdec k j i) as [(Hk' & Hj' & Hi')|Hout].
    + unfold U'; rewrite step6_in by assumption; simpl; auto.
    + unfold U'; rewrite step6_out by assumption; auto.
  - intros k j i Hout; apply step6_out; assumption.
Qed.

Lemma step6_conserves_mass_witness :
  let g := mkGrid 4 7 4 7 4 7 1 1 2 4
             (fun k j i => 0) (fun k j i => 0) (fun k j i => 0) in
  let F : arr3 Cons1D :=
    fun k j i => Cons1D.mk (IZR (i * j)) 0 0 0 0 0 0 [] in
  let U : arr3 Gas := fun k j i => Gas.mk (IZR (k + 1)) 0 0 0 1 0 0 0 [] in
  let U' := integrate_3d_vl_step6 4 false 0 g F F F U in
  box_total 1 10 1 10 1 10 (fun k j i => Gas.d (U' k j i))
  = box_total 1 10 1 10 1 10 (fun k j i => Gas.d (U k j i))
    - 0.5 * dtodx1 g * box_side_x1 1 10 1 10 1 10 (fun k j i => Cons1D.d (F k j i))
    - 0.5 * dtodx2 g * box_side_x2 1 10 1 10 1 10 (fun k j i => Cons1D.d (F k j i))
    - 0.5 * dtodx3 g * box_side_x3 1 10 1 10 1 10 (fun k j i => Cons1D.d (F k j i)).
Proof.
  intros g F U U'.
  assert (Hk : (kl 4 g + 1 <= ku 4 g)%Z) by (vm_compute; discriminate).
  assert (Hj : (jl 4 g + 1 <= ju 4 g)%Z) by (vm_compute; discriminate).
  assert (Hi : (il 4 g + 1 <= iu 4 g)%Z) by (vm_compute; discriminate).
  exact (proj1 (step6_conserves_mass 4 false 0 g F F F U Hk Hj Hi)).
Defined.

(** ** Cell-centred fields: Step 5 and Step 15 *)

Lemma cell_centered_B_hydro (U : Gas) (B1 B2 B3 : arr3 R) (k j i : Z) :
  let U' := cell_centered_B U B1 B2 B3 k j i in
  Gas.d U' = Gas.d U /\ Gas.M1 U' = Gas.M1 U /\ Gas.M2 U' = Gas.M2 U
  /\ Gas.M3 U' = Gas.M3 U /\ Gas.E U' = Gas.E U /\ Gas.s U' = Gas.s U.
Proof. simpl; auto 10. Qed.

(** X14.  After Step 15 every cell of the window [kb+1..kt-1] x
    [jb+1..jt-1] x [ib+1..it-1] carries, as cell-centred field, the
    arithmetic mean of its two bounding face fields in each direction, with
    density, momenta, energy and scalars untouched; every cell outside the
    window is left as it was. *)
Theorem step15_cell_centered_mean
    (nghost : Z) (order : Order) (g : Grid) (U : arr3 Gas) (k j i : Z) :
  let U' := integrate_3d_vl_step15 nghost order g U in
  let inside :=
    (kb nghost order g + 1 <= k <= kt nghost order g - 1)%Z
    /\ (jb nghost order g + 1 <= j <= jt nghost order g - 1)%Z
    /\ (ib nghost order g + 1 <= i <= it nghost order g - 1)%Z in
  (inside ->
   Gas.B1c (U' k j i) = (B1i g k j i + B1i g k j (i + 1)%Z) / 2
   /\ Gas.B2c (U' k j i) = (B2i g k j i + B2i g k (j + 1)%Z i) / 2
   /\ Gas.B3c (U' k j i) = (B3i g k j i + B3i g (k + 1)%Z j i) / 2
   /\ Gas.d (U' k j i) = Gas.d (U k j i)
   /\ Gas.M1 (U' k j i) = Gas.M1 (U k j i)
   /\ Gas.M2 (U' k j i) = Gas.M2 (U k j i)
   /\ Gas.M3 (U' k j i) = Gas.M3 (U k j i)
   /\ Gas.E (U' k j i) = Gas.E (U k j i)
   /\ Gas.s (U' k j i) = Gas.s (U k j i))
  /\ (~ inside -> U' k j i = U k j i).
Proof.
  intros U' inside; split.
  - intros (Hk & Hj & Hi).
    unfold U', integrate_3d_vl_step15.
    rewrite (cell_nest_in
               (fun k j i u => cell_centered_B u (B1i g) (B2i g) (B3i g) k j i))
      by assumption.
    simpl; repeat split; lra.
  - intros Hout.
    unfold U', integrate_3d_vl_step15.
    apply (cell_nest_out
             (fun k j i u => cell_centered_B u (B1i g) (B2i g) (B3i g) k j i)).
    exact Hout.
Qed.

Lemma step15_cell_centered_mean_witness :
  let g := mkGrid 4 7 4 7 4 7 1 1 2 4
             (fun k j i => IZR i) (fun k j i => IZR (k * j))
             (fun k j i => IZR (i - k)) in
  let U : arr3 Gas := fun k j i => Gas.mk 1 0 0 0 1 7 7 7 [] in
  let c := 5%Z in
  Gas.B1c (integrate_3d_vl_step15 4 SECOND_ORDER g U c c c)
  = (B1i g c c c + B1i g c c (c + 1)%Z) / 2.
Proof.
  intros g U c.
  assert (H : (kb 4 SECOND_ORDER g + 1 <= c <= kt 4 SECOND_ORDER g - 1)%Z
              /\ (jb 4 SECOND_ORDER g + 1 <= c <= jt 4 SECOND_ORDER g - 1)%Z
              /\ (ib 4 SECOND_ORDER g + 1 <= c <= it 4 SECOND_ORDER g - 1)%Z)
    by (vm_compute; intuition discriminate).
  exact (proj1 (proj1 (step15_cell_centered_mean 4 SECOND_ORDER g U c c c) H)).
Defined.

(** ** The ghost-zone check of [integrate_init_3d] *)

(** X15.  [integrate_init_3d] accepts exactly the numbers of ghost zones of
    at least [stencil + 2] (3, 4 or 5 for first, second and third order) and
    otherwise reports that minimum; once it has accepted, every active cell
    of any block ([is..ie] x [js..je] x [ks..ke]) has all six faces advanced
    by the predictor CT update of Step 5 and by the CT update of Step 11,
    and lies in the window of the hydro update of Step 13. *)
Theorem init_ok_covers_active_zone
    (nghost : Z) (order : Order) (g : Grid) (k j i : Z) :
  (integrate_init_3d nghost order = Init_ok <-> (stencil order + 2 <= nghost)%Z)
  /\ ((nghost < stencil order + 2)%Z ->
      integrate_init_3d nghost order = Init_error (stencil order + 2)%Z)
  /\ (integrate_init_3d nghost order = Init_ok ->
      (ks g <= k <= ke g)%Z -> (js g <= j <= je g)%Z -> (is_ g <= i <= ie g)%Z ->
      cell_advanced_half nghost g k j i = true
      /\ cell_advanced nghost order g k j i = true
      /\ (kb nghost order g + 1 <= k <= kt nghost order g - 1)%Z
      /\ (jb nghost order g + 1 <= j <= jt nghost order g - 1)%Z
      /\ (ib nghost order g + 1 <= i <= it nghost order g - 1)%Z).
Proof.
  assert (Hiff : integrate_init_3d nghost order = Init_ok
                 <-> (stencil order + 2 <= nghost)%Z).
  { unfold integrate_init_3d, integrate_init_3d_minghost.
    destruct order; simpl;
      match goal with
      | |- (if ?b then _ else _) = _ <-> _ => destruct b eqn:E
      end;
      try (apply Z.ltb_lt in E); try (apply Z.ltb_ge in E);
      split; intros H; try discriminate; try reflexivity; lia. }
  split; [exact Hiff|].
  split.
  - intros Hlt.
    unfold integrate_init_3d, integrate_init_3d_minghost.
    destruct order; simpl in *;
      match goal with
      | |- (if ?b then _ else _) = _ => destruct b eqn:E
      end;
      try (apply Z.ltb_ge in E); try reflexivity; lia.
  - intros Hok Hk Hj Hi.
    apply Hiff in Hok.
    pose proof (stencil_pos order) as Hs.
    assert (Hwin : (kb nghost order g + 1 <= k <= kt nghost order g - 1)%Z
                   /\ (jb nghost order g + 1 <= j <= jt nghost order g - 1)%Z
                   /\ (ib nghost order g + 1 <= i <= it nghost order g - 1)%Z).
    { unfold kb, kt, jb, jt, ib, it, kl, ku, jl, ju, il, iu; lia. }
    split; [|split; [|exact Hwin]].
    + unfold cell_advanced_half, advanced_B1_x1Face, advanced_B2_x2Face,
        advanced_B3_x3Face.
      unfold kl, ku, jl, ju, il, iu.
      rewrite !andb_true_iff, !orb_true_iff, !in_range_spec.
      repeat split; try lia; left; lia.
    + rewrite cell_advanced_window.
      rewrite !andb_true_iff, !in_range_spec.
      tauto.
Qed.

Lemma init_ok_covers_active_zone_witness :
  let g := mkGrid 4 7 4 7 4 7 1 1 2 4
             (fun k j i => 0) (fun k j i => 0) (fun k j i => 0) in
  cell_advanced 4 SECOND_ORDER g 4 7 5 = true.
Proof.
  intros g.
  assert (Hk : (ks g <= 4 <= ke g)%Z) by (simpl; lia).
  assert (Hj : (js g <= 7 <= je g)%Z) by (simpl; lia).
  assert (Hi : (is_ g <= 5 <= ie g)%Z) by (simpl; lia).
  exact (proj1 (proj2 (proj2 (proj2 (init_ok_covers_active_zone
                                       4 SECOND_ORDER g 4 7 5))
                               eq_refl Hk Hj Hi))).
Defined.

(** ** First-order reconstruction *)

Lemma arr1_set_eq {T : Type} (a : Z -> T) (i : Z) (v : T) :
  arr1_set a i v i = v.
Proof. unfold arr1_set; now rewrite Z.eqb_refl. Qed.

Lemma arr1_set_neq {T : Type} (a : Z -> T) (i i' : Z) (v : T) :
  i <> i' -> arr1_set a i v i' = a i'.
Proof.
  intros H; unfold arr1_set.
  destruct (Z.eqb_spec i i'); [contradiction | reflexivity].
Qed.

(** X16.  The first-order [lr_states] writes exactly the interfaces
    [is..ie+1]: there [Ul[i]] is the cell to the left, [U1d[i-1]], and
    [Ur[i]] the cell to the right, [U1d[i]], so that the right state of one
    interface is the left state of the next; every other entry of [Ul] and
    [Ur] keeps its old value (all of them when [ie+1 < is]). *)
Theorem lr_states_prim1_piecewise_constant
    (U1d : Z -> Cons1D) (Bxc Bxi : Z -> R) (dt dtodx : R)
    (is_ ie : Z) (Ul Ur : Z -> Cons1D) (i : Z) :
  let UlUr := LrStatesPrim1.lr_states U1d Bxc Bxi dt dtodx is_ ie Ul Ur in
  ((is_ <= i <= ie + 1)%Z ->
   fst UlUr i = U1d (i - 1)%Z /\ snd UlUr i = U1d i)
  /\ ((is_ <= i <= ie)%Z -> snd UlUr i = fst UlUr (i + 1)%Z)
  /\ (~ (is_ <= i <= ie + 1)%Z -> fst UlUr i = Ul i /\ snd UlUr i = Ur i).
Proof.
  intros UlUr.
  assert (Hin : forall x, (is_ <= x <= ie + 1)%Z ->
                          fst UlUr x = U1d (x - 1)%Z /\ snd UlUr x = U1d x).
  { intros x Hx; unfold UlUr, LrStatesPrim1.lr_states; split.
    - apply (for_loop_store _ (fun p : (Z -> Cons1D) * (Z -> Cons1D) => fst p x)
               (U1d (x - 1)%Z) x); auto.
      + intros s; apply arr1_set_eq.
      + intros i0 s Hne; apply arr1_set_neq; assumption.
    - apply (for_loop_store _ (fun p : (Z -> Cons1D) * (Z -> Cons1D) => snd p x)
               (U1d x) x); auto.
      + intros s; apply arr1_set_eq.
      + intros i0 s Hne; apply arr1_set_neq; assumption. }
  split; [apply Hin|].
  split.
  - intros Hi.
    destruct (Hin i) as [_ ->]; [lia|].
    destruct (Hin (i + 1)%Z) as [-> _]; [lia|].
    f_equal; lia.
  - intros Hout; unfold UlUr, LrStatesPrim1.lr_states; split.
    + apply (for_loop_preserve_range _
               (fun p : (Z -> Cons1D) * (Z -> Cons1D) => fst p i)).
      intros i0 s Hi0; apply arr1_set_neq; lia.
    + apply (for_loop_preserve_range _
               (fun p : (Z -> Cons1D) * (Z -> Cons1D) => snd p i)).
      intros i0 s Hi0; apply arr1_set_neq; lia.
Qed.

Lemma lr_states_prim1_piecewise_constant_witness :
  let U1d : Z -> Cons1D := fun i => Cons1D.mk (IZR i) 0 0 0 1 0 0 [] in
  let B : Z -> R := fun i => 0 in
  let z : Z -> Cons1D := fun i => Cons1D.mk 0 0 0 0 0 0 0 [] in
  let UlUr := LrStatesPrim1.lr_states U1d B B 0 0 2 5 z z in
  snd UlUr 3%Z = fst UlUr (3 + 1)%Z.
Proof.
  intros U1d B z UlUr.
  assert (H : (2 <= 3 <= 5)%Z) by lia.
  exact (proj1 (proj2 (lr_states_prim1_piecewise_constant
                         U1d B B 0 0 2 5 z z 3)) H).
Defined.

(** * Properties of the piecewise-linear reconstruction *)

Lemma MIN_Rmin (a b : R) : MIN a b = Rmin a b.
Proof.
  unfold MIN, Rmin; destruct (Rlt_dec a b), (Rle_dec a b); lra.
Qed.

Lemma SIGN_abs (a : R) : SIGN a * a = Rabs a.
Proof.
  unfold SIGN, Rabs; destruct (Rlt_dec a 0), (Rcase_abs a); lra.
Qed.

Lemma SIGN_mult_abs (a m : R) : 0 <= m -> Rabs (SIGN a * m) = m.
Proof.
  intros Hm; unfold SIGN; destruct (Rlt_dec a 0).
  - replace (-1 * m) with (- m) by ring.
    rewrite Rabs_Ropp; apply Rabs_right; lra.
  - rewrite Rmult_1_l; apply Rabs_right; lra.
Qed.

(** The clamp of Step 7 keeps a value between two cell values. *)
Lemma clamp_between (a b x : R) :
  Rmin a b <= MIN (MAX a b) (MAX (MIN a b) x) <= Rmax a b.
Proof.
  rewrite !MIN_Rmin, !MAX_Rmax.
  unfold Rmin, Rmax.
  repeat match goal with
         | |- context [Rle_dec ?u ?v] => destruct (Rle_dec u v)
         end; lra.
Qed.

Lemma clamp_equal (a x : R) : MIN (MAX a a) (MAX (MIN a a) x) = a.
Proof.
  pose proof (clamp_between a a x) as H.
  unfold Rmin, Rmax in H; destruct (Rle_dec a a); lra.
Qed.

Lemma fold_left_invariant {A B : Type} (P : A -> Prop) (f : A -> B -> A)
      (l : list B) (a : A) :
  (forall s x, In x l -> P s -> P (f s x)) -> P a -> P (fold_left f l a).
Proof.
  revert a; induction l as [|x l IH]; intros a Hf Ha; simpl.
  - exact Ha.
  - apply IH.
    + intros s y Hy; apply Hf; right; exact Hy.
    + apply Hf; [left; reflexivity | exact Ha].
Qed.

Section PlmFacts.

Variables NWAVE NSCALARS : nat.
Variables THREED_VL HLL_FLUX : bool.
Variable esys_prim : (nat -> R) -> R -> Esys.t.
Variable pW : Z -> nat -> R.
Variable Bxc : Z -> R.

Local Abbreviation NVAR := (NWAVE + NSCALARS)%nat.
Local Abbreviation Wlv := (LrStatesPlm.Wlv NWAVE esys_prim pW Bxc).
Local Abbreviation Wrv := (LrStatesPlm.Wrv NWAVE esys_prim pW Bxc).
Local Abbreviation dW := (LrStatesPlm.dW NWAVE esys_prim pW Bxc).
Local Abbreviation pWl_pWr :=
  (LrStatesPlm.pWl_pWr NWAVE NSCALARS THREED_VL HLL_FLUX esys_prim pW Bxc).
Local Abbreviation lr_states :=
  (LrStatesPlm.lr_states NWAVE NSCALARS THREED_VL HLL_FLUX esys_prim pW Bxc).

Lemma Wlv_between (i : Z) (n : nat) :
  Rmin (pW i n) (pW (i - 1)%Z n) <= Wlv i n <= Rmax (pW i n) (pW (i - 1)%Z n).
Proof. unfold LrStatesPlm.Wlv; cbv zeta; apply clamp_between. Qed.

Lemma Wrv_between (i : Z) (n : nat) :
  Rmin (pW i n) (pW (i + 1)%Z n) <= Wrv i n <= Rmax (pW i n) (pW (i + 1)%Z n).
Proof. unfold LrStatesPlm.Wrv; cbv zeta; apply clamp_between. Qed.

(** What [lr_states] leaves in [Wl] and [Wr]: iteration [x-1] of the big
    loop fills [Wl[x]], iteration [x] fills [Wr[x]]. *)
Lemma lr_states_Wl (dt dtodx : R) (il iu : Z) (Wl Wr : Z -> nat -> R)
      (x : Z) (n : nat) :
  (il <= x <= iu + 2)%Z -> (n < NVAR)%nat ->
  fst (lr_states dt dtodx il iu Wl Wr) x n = fst (pWl_pWr dtodx (x - 1)%Z) n.
Proof.
  intros Hx Hn; unfold LrStatesPlm.lr_states.
  apply (for_loop_store _
           (fun p : (Z -> nat -> R) * (Z -> nat -> R) => fst p x n)
           (fst (pWl_pWr dtodx (x - 1)%Z) n) (x - 1)%Z); try lia.
  - intros s; cbn [fst]; unfold LrStatesPlm.row_set.
    replace (x - 1 + 1 =? x)%Z with true by (symmetry; apply Z.eqb_eq; lia).
    now rewrite (proj2 (Nat.ltb_lt n NVAR) Hn).
  - intros i s Hne; cbn [fst]; unfold LrStatesPlm.row_set.
    destruct (Z.eqb_spec (i + 1) x); [lia | reflexivity].
Qed.

Lemma lr_states_Wr (dt dtodx : R) (il iu : Z) (Wl Wr : Z -> nat -> R)
      (x : Z) (n : nat) :
  (il - 1 <= x <= iu + 1)%Z -> (n < NVAR)%nat ->
  snd (lr_states dt dtodx il iu Wl Wr) x n = snd (pWl_pWr dtodx x) n.
Proof.
  intros Hx Hn; unfold LrStatesPlm.lr_states.
  apply (for_loop_store _
           (fun p : (Z -> nat -> R) * (Z -> nat -> R) => snd p x n)
           (snd (pWl_pWr dtodx x) n) x); try lia.
  - intros s; cbn [snd]; unfold LrStatesPlm.row_set.
    rewrite Z.eqb_refl.
    now rewrite (proj2 (Nat.ltb_lt n NVAR) Hn).
  - intros i s Hne; cbn [snd]; unfold LrStatesPlm.row_set.
    destruct (Z.eqb_spec i x); [lia | reflexivity].
Qed.

End PlmFacts.

(** X17.  The slope limiter of Step 4: the limited characteristic slope
    [da] never exceeds in size twice the smaller one-sided difference, half
    the centred difference, or the van Leer difference; it has the sign of
    the centred difference, and it vanishes whenever the one-sided
    differences do not have the same strict sign (a local extremum). *)
Theorem plm_limiter_bounds
    (NWAVE : nat) (esys_prim : (nat -> R) -> R -> Esys.t)
    (pW : Z -> nat -> R) (Bxc : Z -> R) (i : Z) (n : nat) :
  let da := LrStatesPlm.da NWAVE esys_prim pW Bxc i n in
  let dal := LrStatesPlm.dal NWAVE esys_prim pW Bxc i n in
  let dar := LrStatesPlm.dar NWAVE esys_prim pW Bxc i n in
  let dac := LrStatesPlm.dac NWAVE esys_prim pW Bxc i n in
  let dag := LrStatesPlm.dag NWAVE esys_prim pW Bxc i n in
  Rabs da <= 2 * Rmin (Rabs dal) (Rabs dar)
  /\ Rabs da <= Rabs dac / 2
  /\ Rabs da <= Rabs dag
  /\ 0 <= da * dac
  /\ (dal * dar <= 0 -> da = 0).
Proof.
  intros da dal dar dac dag.
  unfold da, LrStatesPlm.da; cbv zeta.
  fold dal dar dac dag.
  pose proof (Rabs_pos dal) as Hl.
  pose proof (Rabs_pos dar) as Hr.
  pose proof (Rabs_pos dac) as Hc.
  pose proof (Rabs_pos dag) as Hg.
  destruct (Rgt_dec (dal * dar) 0) as [Hpos|Hnpos].
  - rewrite !MIN_Rmin.
    set (m := Rmin (2 * Rmin (Rabs dal) (Rabs dar))
                (Rmin (0.5 * Rabs dac) (Rabs dag))).
    assert (Hm1 : m <= 2 * Rmin (Rabs dal) (Rabs dar)) by apply Rmin_l.
    assert (Hm2 : m <= 0.5 * Rabs dac).
    { unfold m; eapply Rle_trans; [apply Rmin_r | apply Rmin_l]. }
    assert (Hm3 : m <= Rabs dag).
    { unfold m; eapply Rle_trans; [apply Rmin_r | apply Rmin_r]. }
    assert (Hm0 : 0 <= m).
    { unfold m; repeat apply Rmin_glb; try lra.
      apply Rmult_le_pos; [lra | apply Rmin_glb; assumption]. }
    rewrite (SIGN_mult_abs dac m Hm0).
    repeat split; try lra.
    replace (SIGN dac * m * dac) with (m * (SIGN dac * dac)) by ring.
    rewrite SIGN_abs; apply Rmult_le_pos; assumption.
  - rewrite Rabs_R0, Rmult_0_l.
    repeat split; try lra.
    apply Rmult_le_pos; [lra | apply Rmin_glb; assumption].
Qed.


Section PlmUniform.

Variables NWAVE NSCALARS : nat.
Variable HLL_FLUX : bool.
Variable esys_prim : (nat -> R) -> R -> Esys.t.
Variable pW : Z -> nat -> R.
Variable Bxc : Z -> R.
Variable dtodx : R.
Variable i : Z.

Local Abbreviation NVAR' := (NWAVE + NSCALARS)%nat.
Local Abbreviation es' := (LrStatesPlm.es esys_prim pW Bxc i).
Local Abbreviation dW' := (LrStatesPlm.dW NWAVE esys_prim pW Bxc i).

Hypothesis flat : forall n, (n < NVAR')%nat ->
  pW (i - 1)%Z n = pW i n /\ pW (i + 1)%Z n = pW i n.

Lemma flat_Wlv (n : nat) :
  (n < NVAR')%nat -> LrStatesPlm.Wlv NWAVE esys_prim pW Bxc i n = pW i n.
Proof.
  intros Hn; destruct (flat n Hn) as [Hm _].
  unfold LrStatesPlm.Wlv; cbv zeta; rewrite Hm; apply clamp_equal.
Qed.

Lemma flat_Wrv (n : nat) :
  (n < NVAR')%nat -> LrStatesPlm.Wrv NWAVE esys_prim pW Bxc i n = pW i n.
Proof.
  intros Hn; destruct (flat n Hn) as [_ Hp].
  unfold LrStatesPlm.Wrv; cbv zeta; rewrite Hp; apply clamp_equal.
Qed.

Lemma flat_dW (n : nat) : (n < NVAR')%nat -> dW' n = 0.
Proof.
  intros Hn; unfold LrStatesPlm.dW.
  rewrite flat_Wlv, flat_Wrv by exact Hn; ring.
Qed.

Lemma flat_accum (c : nat -> R) :
  LrStatesPlm.accum_from0 NWAVE (fun m => c m * dW' m) = 0.
Proof.
  unfold LrStatesPlm.accum_from0.
  apply (fold_left_invariant (fun s => s = 0)); [|reflexivity].
  intros s m Hm Hs; apply in_seq in Hm.
  rewrite Hs, flat_dW by lia; ring.
Qed.

Lemma add_wave_zero (v : nat -> R) (n m : nat) :
  LrStatesPlm.add_wave NWAVE esys_prim pW Bxc i v 0 n m = v m.
Proof.
  unfold LrStatesPlm.add_wave.
  apply (fold_left_invariant (fun v' : nat -> R => v' m = v m));
    [|reflexivity].
  intros s x _ Hs; unfold vec_add.
  destruct (Nat.eqb x m); rewrite Hs; ring.
Qed.

Lemma sub_wave_zero (v : nat -> R) (n m : nat) :
  LrStatesPlm.sub_wave NWAVE esys_prim pW Bxc i v 0 n m = v m.
Proof.
  unfold LrStatesPlm.sub_wave.
  apply (fold_left_invariant (fun v' : nat -> R => v' m = v m));
    [|reflexivity].
  intros s x _ Hs; unfold vec_add.
  destruct (Nat.eqb x m); rewrite Hs; ring.
Qed.

(** Step 9 subtracts nothing from a flat profile. *)
Lemma flat_step9 (lr : (nat -> R) * (nat -> R)) (m : nat) :
  fst (LrStatesPlm.step9 NWAVE NSCALARS HLL_FLUX esys_prim pW Bxc dtodx i lr) m
    = fst lr m
  /\ snd (LrStatesPlm.step9 NWAVE NSCALARS HLL_FLUX esys_prim pW Bxc dtodx i lr) m
    = snd lr m.
Proof.
  unfold LrStatesPlm.step9; cbv zeta.
  set (P := fun lr' : (nat -> R) * (nat -> R) =>
              forall m, fst lr' m = fst lr m /\ snd lr' m = snd lr m).
  revert m; change (P (fold_left
    (LrStatesPlm.step9_advected NWAVE esys_prim pW Bxc dtodx i)
    (seq NWAVE NSCALARS)
    (fold_left (LrStatesPlm.step9_left_going NWAVE HLL_FLUX esys_prim pW Bxc dtodx i)
       (seq 0 NWAVE)
       (fold_left (LrStatesPlm.step9_right_going NWAVE HLL_FLUX esys_prim pW Bxc dtodx i)
          (seq 0 NWAVE) lr)))).
  apply fold_left_invariant.
  { intros s n Hn Hs m; apply in_seq in Hn.
    unfold LrStatesPlm.step9_advected.
    rewrite flat_dW by lia.
    destruct (Rgt_dec (pW i 1%nat) 0); [|destruct (Rlt_dec (pW i 1%nat) 0)];
      cbn [fst snd]; unfold vec_add; destruct (Hs m) as [H1 H2];
      try destruct (Nat.eqb n m); rewrite <- ?H1, <- ?H2; split; ring. }
  apply fold_left_invariant.
  { intros s n _ Hs m; unfold LrStatesPlm.step9_left_going; cbv zeta.
    destruct (Hs m) as [H1 H2].
    destruct (Rlt_dec (Esys.ev es' n) 0); [|split; assumption].
    rewrite (flat_accum (fun m0 => Esys.lem es' n m0 * 0.5 * dtodx
               * (Esys.ev es' 0%nat - Esys.ev es' n))).
    rewrite (flat_accum (fun m0 => Esys.lem es' n m0 * 0.5 * dtodx
               * (Esys.ev es' n - Esys.ev es' (NWAVE - 1)))).
    destruct HLL_FLUX; cbn [fst snd];
      rewrite ?add_wave_zero, ?sub_wave_zero; split; assumption. }
  apply fold_left_invariant.
  { intros s n _ Hs m; unfold LrStatesPlm.step9_right_going; cbv zeta.
    destruct (Hs m) as [H1 H2].
    destruct (Rgt_dec (Esys.ev es' n) 0); [|split; assumption].
    rewrite (flat_accum (fun m0 => Esys.lem es' n m0 * 0.5 * dtodx
               * (Esys.ev es' (NWAVE - 1) - Esys.ev es' n))).
    rewrite (flat_accum (fun m0 => Esys.lem es' n m0 * 0.5 * dtodx
               * (Esys.ev es' n - Esys.ev es' 0%nat))).
    destruct HLL_FLUX; cbn [fst snd];
      rewrite ?add_wave_zero, ?sub_wave_zero; split; assumption. }
  intros m; split; reflexivity.
Qed.

Lemma flat_pWl_pWr (THREED_VL : bool) (n : nat) :
  (n < NVAR')%nat ->
  fst (LrStatesPlm.pWl_pWr NWAVE NSCALARS THREED_VL HLL_FLUX esys_prim pW Bxc
         dtodx i) n = pW i n
  /\ snd (LrStatesPlm.pWl_pWr NWAVE NSCALARS THREED_VL HLL_FLUX esys_prim pW Bxc
         dtodx i) n = pW i n.
Proof.
  intros Hn.
  assert (H8 : LrStatesPlm.pWl_step8 NWAVE esys_prim pW Bxc dtodx i n = pW i n
            /\ LrStatesPlm.pWr_step8 NWAVE esys_prim pW Bxc dtodx i n = pW i n).
  { unfold LrStatesPlm.pWl_step8, LrStatesPlm.pWr_step8; cbv zeta.
    rewrite flat_dW, flat_Wlv, flat_Wrv by exact Hn; split; ring. }
  unfold LrStatesPlm.pWl_pWr; destruct THREED_VL; cbn [fst snd].
  - exact H8.
  - destruct (flat_step9 (LrStatesPlm.pWl_step8 NWAVE esys_prim pW Bxc dtodx i,
                          LrStatesPlm.pWr_step8 NWAVE esys_prim pW Bxc dtodx i) n)
      as [H1 H2].
    rewrite H1, H2; exact H8.
Qed.

End PlmUniform.

(** X18.  Called as the van Leer integrator calls it ([THREED_VL] defined,
    [dtodx = 0.0]), the reconstruction returns interface states that lie
    between the two adjacent cell values, component by component and for
    any eigensystem: [Wl[x]] and [Wr[x]], the two states at the interface
    between cells [x-1] and [x], are bounded by [W[x-1]] and [W[x]].  In
    particular a component that is positive in both cells (density,
    pressure) is positive in both interface states. *)
Theorem plm_vl_states_between_neighbours
    (NWAVE NSCALARS : nat) (HLL_FLUX : bool)
    (esys_prim : (nat -> R) -> R -> Esys.t)
    (pW : Z -> nat -> R) (Bxc : Z -> R) (dt : R) (il iu : Z)
    (Wl Wr : Z -> nat -> R) (x : Z) (n : nat) :
  (n < NWAVE + NSCALARS)%nat ->
  let res := LrStatesPlm.lr_states NWAVE NSCALARS true HLL_FLUX esys_prim
               pW Bxc dt 0 il iu Wl Wr in
  let lo := Rmin (pW (x - 1)%Z n) (pW x n) in
  let hi := Rmax (pW (x - 1)%Z n) (pW x n) in
  ((il <= x <= iu + 2)%Z -> lo <= fst res x n <= hi)
  /\ ((il - 1 <= x <= iu + 1)%Z -> lo <= snd res x n <= hi)
  /\ ((il <= x <= iu + 1)%Z -> 0 < pW (x - 1)%Z n -> 0 < pW x n ->
      0 < fst res x n /\ 0 < snd res x n).
Proof.
  intros Hn res lo hi.
  assert (HL : (il <= x <= iu + 2)%Z -> lo <= fst res x n <= hi).
  { intros Hx; unfold res; rewrite lr_states_Wl by assumption.
    unfold LrStatesPlm.pWl_pWr, LrStatesPlm.pWl_step8; cbn [fst]; cbv zeta.
    pose proof (Wrv_between NWAVE esys_prim pW Bxc (x - 1)%Z n) as H.
    replace (x - 1 + 1)%Z with x in H by lia.
    unfold lo, hi; lra. }
  assert (HR : (il - 1 <= x <= iu + 1)%Z -> lo <= snd res x n <= hi).
  { intros Hx; unfold res; rewrite lr_states_Wr by assumption.
    unfold LrStatesPlm.pWl_pWr, LrStatesPlm.pWr_step8; cbn [snd]; cbv zeta.
    pose proof (Wlv_between NWAVE esys_prim pW Bxc x n) as H.
    unfold lo, hi; rewrite Rmin_comm, Rmax_comm; lra. }
  split; [exact HL | split; [exact HR |]].
  intros Hx Hm Hp.
  assert (Hlo : 0 < lo) by (unfold lo; apply Rmin_glb_lt; assumption).
  split.
  - destruct HL as [H _]; [lia | lra].
  - destruct HR as [H _]; [lia | lra].
Qed.

(** X19.  The reconstruction reproduces a flat profile: where cell [i] and
    its two neighbours hold the same values, both interface states computed
    in iteration [i] ([Wl[i+1]] and [Wr[i]]) are equal to the cell value,
    for every configuration, every [dtodx] and every eigensystem. *)
Theorem plm_flat_profile
    (NWAVE NSCALARS : nat) (THREED_VL HLL_FLUX : bool)
    (esys_prim : (nat -> R) -> R -> Esys.t)
    (pW : Z -> nat -> R) (Bxc : Z -> R) (dt dtodx : R) (il iu : Z)
    (Wl Wr : Z -> nat -> R) (i : Z) :
  (il - 1 <= i <= iu + 1)%Z ->
  (forall n, (n < NWAVE + NSCALARS)%nat ->
     pW (i - 1)%Z n = pW i n /\ pW (i + 1)%Z n = pW i n) ->
  let res := LrStatesPlm.lr_states NWAVE NSCALARS THREED_VL HLL_FLUX esys_prim
               pW Bxc dt dtodx il iu Wl Wr in
  forall n, (n < NWAVE + NSCALARS)%nat ->
    fst res (i + 1)%Z n = pW i n /\ snd res i n = pW i n.
Proof.
  intros Hi Hflat res n Hn; unfold res.
  rewrite lr_states_Wl, lr_states_Wr by (assumption || lia).
  replace (i + 1 - 1)%Z with i by lia.
  apply flat_pWl_pWr; assumption.
Qed.


Lemma plm_limiter_bounds_witness :
  let esys : (nat -> R) -> R -> Esys.t :=
    fun _ _ => Esys.mk (fun _ => 1) (fun _ _ => 1) (fun _ _ => 1) in
  let pW : Z -> nat -> R := fun x _ => IZR (x * x) in
  let B : Z -> R := fun _ => 0 in
  Rabs (LrStatesPlm.da 2 esys pW B 3 0)
    <= 2 * Rmin (Rabs (LrStatesPlm.dal 2 esys pW B 3 0))
               (Rabs (LrStatesPlm.dar 2 esys pW B 3 0)).
Proof.
  intros esys pW B.
  exact (proj1 (plm_limiter_bounds 2 esys pW B 3 0)).
Defined.

Lemma plm_vl_states_between_neighbours_witness :
  let esys : (nat -> R) -> R -> Esys.t :=
    fun _ _ => Esys.mk (fun _ => 1) (fun _ _ => 1) (fun _ _ => 1) in
  let pW : Z -> nat -> R := fun x _ => IZR (x * x) in
  let B : Z -> R := fun _ => 0 in
  let z : Z -> nat -> R := fun _ _ => 0 in
  let res := LrStatesPlm.lr_states 5 0 true false esys pW B 0 0 2 5 z z in
  (0 < 5 + 0)%nat
  /\ Rmin (pW (3 - 1)%Z 0%nat) (pW 3%Z 0%nat) <= fst res 3%Z 0%nat
       <= Rmax (pW (3 - 1)%Z 0%nat) (pW 3%Z 0%nat).
Proof.
  intros esys pW B z res.
  assert (Hn : (0 < 5 + 0)%nat) by lia.
  assert (Hx : (2 <= 3 <= 5 + 2)%Z) by lia.
  exact (conj Hn
    (proj1 (plm_vl_states_between_neighbours 5 0 false esys pW B 0 2 5 z z
              3 0 Hn) Hx)).
Defined.

Lemma plm_flat_profile_witness :
  let esys : (nat -> R) -> R -> Esys.t :=
    fun _ _ => Esys.mk (fun _ => 1) (fun _ _ => 1) (fun _ _ => 1) in
  let pW : Z -> nat -> R := fun _ n => INR n + 1 in
  let B : Z -> R := fun _ => 0 in
  let z : Z -> nat -> R := fun _ _ => 0 in
  let res := LrStatesPlm.lr_states 5 1 false true esys pW B 1 1 2 5 z z in
  (2 - 1 <= 3 <= 5 + 1)%Z
  /\ (forall n, (n < 5 + 1)%nat ->
        pW (3 - 1)%Z n = pW 3%Z n /\ pW (3 + 1)%Z n = pW 3%Z n)
  /\ fst res (3 + 1)%Z 4%nat = pW 3%Z 4%nat
  /\ snd res 3%Z 4%nat = pW 3%Z 4%nat.
Proof.
  intros esys pW B z res.
  assert (Hi : (2 - 1 <= 3 <= 5 + 1)%Z) by lia.
  assert (Hflat : forall n, (n < 5 + 1)%nat ->
            pW (3 - 1)%Z n = pW 3%Z n /\ pW (3 + 1)%Z n = pW 3%Z n).
  { intros n _; split; reflexivity. }
  assert (Hn : (4 < 5 + 1)%nat) by lia.
  exact (conj Hi (conj Hflat
    (plm_flat_profile 5 1 false true esys pW B 1 1 2 5 z z 3 Hi Hflat 4%nat Hn))).
Defined.

(** * Properties of [first_order_correction] *)

(** ** Invariants of counted loops *)

Section LoopInvariants.

Context {S : Type}.
Variable body : Z -> S -> S.

Lemma for_iter_invariant (P : S -> Prop) (n : nat) :
  forall lo s,
    (forall i s, (lo <= i < lo + Z.of_nat n)%Z -> P s -> P (body i s)) ->
    P s -> P (for_iter n lo body s).
Proof.
  induction n as [|n IH]; intros lo s Hbody Hs; simpl.
  - exact Hs.
  - apply IH.
    + intros i s' Hi; apply Hbody; lia.
    + apply Hbody; [lia | exact Hs].
Qed.

Lemma for_loop_invariant (P : S -> Prop) (lo hi : Z) (s : S) :
  (forall i s, (lo <= i <= hi)%Z -> P s -> P (body i s)) ->
  P s -> P (for_loop lo hi body s).
Proof.
  intros Hbody Hs; unfold for_loop; apply for_iter_invariant; [|exact Hs].
  intros i s' Hi; apply Hbody; lia.
Qed.

(** What iteration [x] establishes under the invariant [I], and every
    iteration keeps, holds after the loop. *)
Lemma for_iter_establish (I Q : S -> Prop) (x : Z) (n : nat) :
  forall lo s,
    (forall i s, (lo <= i < lo + Z.of_nat n)%Z -> I s -> I (body i s)) ->
    (forall s, I s -> Q (body x s)) ->
    (forall i s, (lo <= i < lo + Z.of_nat n)%Z -> I s -> Q s -> Q (body i s)) ->
    (lo <= x < lo + Z.of_nat n)%Z -> I s -> Q (for_iter n lo body s).
Proof.
  induction n as [|n IH]; intros lo s HI Hx HQ Hin Hs.
  - lia.
  - simpl for_iter.
    destruct (Z.eq_dec lo x) as [->|Hne].
    + apply (for_iter_invariant (fun s => I s /\ Q s)).
      * intros i s' Hi [H1 H2]; split; [apply HI | apply HQ]; auto; lia.
      * split; [apply HI; [lia | exact Hs] | apply Hx; exact Hs].
    + apply IH; try lia.
      * intros i s' Hi; apply HI; lia.
      * exact Hx.
      * intros i s' Hi; apply HQ; lia.
      * apply HI; [lia | exact Hs].
Qed.

Lemma for_loop_establish (I Q : S -> Prop) (x lo hi : Z) (s : S) :
  (forall i s, (lo <= i <= hi)%Z -> I s -> I (body i s)) ->
  (forall s, I s -> Q (body x s)) ->
  (forall i s, (lo <= i <= hi)%Z -> I s -> Q s -> Q (body i s)) ->
  (lo <= x <= hi)%Z -> I s -> Q (for_loop lo hi body s).
Proof.
  intros HI Hx HQ Hin Hs; unfold for_loop.
  apply (for_iter_establish I Q x); auto; try lia.
  - intros i s' Hi; apply HI; lia.
  - intros i s' Hi; apply HQ; lia.
Qed.

End LoopInvariants.

Section Nest3Invariants.

Context {S : Type}.
Variable body : Z -> Z -> Z -> S -> S.
Variables klo khi jlo jhi ilo ihi : Z.

Local Abbreviation nest s :=
  (for_loop klo khi (fun k s =>
     for_loop jlo jhi (fun j s =>
       for_loop ilo ihi (fun i s => body k j i s) s) s) s).

Lemma nest3_invariant (P : S -> Prop) (s : S) :
  (forall k j i s, (klo <= k <= khi)%Z -> (jlo <= j <= jhi)%Z ->
     (ilo <= i <= ihi)%Z -> P s -> P (body k j i s)) ->
  P s -> P (nest s).
Proof.
  intros Hbody Hs.
  apply for_loop_invariant; [|exact Hs]; intros k s1 Hk H1.
  apply for_loop_invariant; [|exact H1]; intros j s2 Hj H2.
  apply for_loop_invariant; [|exact H2]; intros i s3 Hi H3.
  now apply Hbody.
Qed.

Lemma nest3_establish (I Q : S -> Prop) (k' j' i' : Z) (s : S) :
  (forall k j i s, (klo <= k <= khi)%Z -> (jlo <= j <= jhi)%Z ->
     (ilo <= i <= ihi)%Z -> I s -> I (body k j i s)) ->
  (forall s, I s -> Q (body k' j' i' s)) ->
  (forall k j i s, (klo <= k <= khi)%Z -> (jlo <= j <= jhi)%Z ->
     (ilo <= i <= ihi)%Z -> I s -> Q s -> Q (body k j i s)) ->
  (klo <= k' <= khi)%Z -> (jlo <= j' <= jhi)%Z -> (ilo <= i' <= ihi)%Z ->
  I s -> Q (nest s).
Proof.
  intros HI Hx HQ Hk Hj Hi Hs.
  assert (HIQ : forall k j i s, (klo <= k <= khi)%Z -> (jlo <= j <= jhi)%Z ->
            (ilo <= i <= ihi)%Z -> I s /\ Q s -> I (body k j i s) /\ Q (body k j i s)).
  { intros k j i s0 H1 H2 H3 [H4 H5]; split; [apply HI | apply HQ]; auto. }
  apply (for_loop_establish _ I Q k'); auto.
  - intros k s1 Hk1 H1.
    apply for_loop_invariant; [|exact H1]; intros j s2 Hj2 H2.
    apply for_loop_invariant; [|exact H2]; intros i s3 Hi3 H3.
    now apply HI.
  - intros s1 H1.
    apply (for_loop_establish _ I Q j'); auto.
    + intros j s2 Hj2 H2.
      apply for_loop_invariant; [|exact H2]; intros i s3 Hi3 H3.
      now apply HI.
    + intros s2 H2.
      apply (for_loop_establish _ I Q i'); auto.
    + intros j s2 Hj2 H2 H2'.
      apply (for_loop_invariant _ (fun s => I s /\ Q s)); [|split; assumption].
      intros i s3 Hi3; now apply HIQ.
  - intros k s1 Hk1 H1 H1'.
    apply (for_loop_invariant _ (fun s => I s /\ Q s)); [|split; assumption].
    intros j s2 Hj2 H2.
    apply (for_loop_invariant _ (fun s => I s /\ Q s)); [|exact H2].
    intros i s3 Hi3; now apply HIQ.
Qed.

End Nest3Invariants.

(** ** Flags as bits *)

Lemma land_pow2 (x n : Z) :
  (0 <= n)%Z ->
  Z.land x (2 ^ n) = if Z.testbit x n then (2 ^ n)%Z else 0%Z.
Proof.
  intros Hn; apply Z.bits_inj'; intros m Hm.
  rewrite Z.land_spec, Z.pow2_bits_eqb by exact Hn.
  destruct (Z.eqb_spec n m) as [->|Hne].
  - destruct (Z.testbit x m) eqn:E; simpl.
    + now rewrite Z.pow2_bits_true.
    + now rewrite Z.bits_0.
  - rewrite andb_false_r.
    destruct (Z.testbit x n).
    + rewrite Z.pow2_bits_false; auto.
    + now rewrite Z.bits_0.
Qed.

Lemma flag_set_pow2 (a : arr3 Z) (k j i n : Z) :
  (0 <= n)%Z -> flag_set a k j i (2 ^ n) = Z.testbit (a k j i) n.
Proof.
  intros Hn; unfold flag_set; rewrite land_pow2 by exact Hn.
  destruct (Z.testbit (a k j i) n); simpl.
  - assert (0 < 2 ^ n)%Z by (apply Z.pow_pos_nonneg; lia).
    destruct (Z.eqb_spec (2 ^ n) 0); [lia | reflexivity].
  - reflexivity.
Qed.

Lemma flag_set_hydro_x1 a k j i :
  flag_set a k j i correct_hydro_x1 = Z.testbit (a k j i) 0.
Proof. exact (flag_set_pow2 a k j i 0 ltac:(lia)). Qed.

Lemma flag_set_hydro_x2 a k j i :
  flag_set a k j i correct_hydro_x2 = Z.testbit (a k j i) 1.
Proof. exact (flag_set_pow2 a k j i 1 ltac:(lia)). Qed.

Lemma flag_set_hydro_x3 a k j i :
  flag_set a k j i correct_hydro_x3 = Z.testbit (a k j i) 2.
Proof. exact (flag_set_pow2 a k j i 2 ltac:(lia)). Qed.

Lemma flag_set_mhd_x1 a k j i :
  flag_set a k j i correct_mhd_x1 = Z.testbit (a k j i) 3.
Proof. exact (flag_set_pow2 a k j i 3 ltac:(lia)). Qed.

Lemma flag_set_mhd_x2 a k j i :
  flag_set a k j i correct_mhd_x2 = Z.testbit (a k j i) 4.
Proof. exact (flag_set_pow2 a k j i 4 ltac:(lia)). Qed.

Lemma flag_set_mhd_x3 a k j i :
  flag_set a k j i correct_mhd_x3 = Z.testbit (a k j i) 5.
Proof. exact (flag_set_pow2 a k j i 5 ltac:(lia)). Qed.

Lemma testbit_arr3_or (a : arr3 Z) (k j i f k' j' i' n : Z) :
  Z.testbit (arr3_or a k j i f k' j' i') n
  = Z.testbit (a k' j' i') n || (same_index k j i k' j' i' && Z.testbit f n).
Proof.
  unfold arr3_or, arr3_set.
  destruct (same_index k j i k' j' i') eqn:E.
  - apply same_index_eq in E; destruct E as (-> & -> & ->).
    now rewrite Z.lor_spec.
  - now rewrite orb_false_r.
Qed.

Lemma testbit_arr3_or_list (l : list (Z * Z * Z * Z)) :
  forall (a : arr3 Z) (k' j' i' n : Z),
    Z.testbit (arr3_or_list a l k' j' i') n = true
    <-> Z.testbit (a k' j' i') n = true \/ or_hits l k' j' i' n.
Proof.
  unfold arr3_or_list, or_hits.
  induction l as [|[[[k j] i] f] l IH]; intros a k' j' i' n; simpl.
  - split; [auto | intros [H|(f & [] & _)]; exact H].
  - rewrite IH, testbit_arr3_or, orb_true_iff, andb_true_iff.
    split.
    + intros [[H|[H1 H2]]|(f0 & H1 & H2)]; auto.
      * apply same_index_eq in H1; destruct H1 as (-> & -> & ->).
        right; exists f; auto.
      * right; exists f0; auto.
    + intros [H|(f0 & [H1|H1] & H2)]; auto.
      * inversion H1; subst.
        left; right; split; [|exact H2].
        unfold same_index; now rewrite !Z.eqb_refl.
      * right; exists f0; auto.
Qed.

Lemma arr3_or_list_mono (l : list (Z * Z * Z * Z)) (a : arr3 Z)
      (k' j' i' n : Z) :
  Z.testbit (a k' j' i') n = true ->
  Z.testbit (arr3_or_list a l k' j' i') n = true.
Proof. intros H; apply testbit_arr3_or_list; auto. Qed.

Lemma arr3_or_list_keeps (l : list (Z * Z * Z * Z)) (a : arr3 Z)
      (k' j' i' n : Z) :
  (forall k j i f, In (k, j, i, f) l -> Z.testbit f n = false) ->
  Z.testbit (arr3_or_list a l k' j' i') n = Z.testbit (a k' j' i') n.
Proof.
  intros Hl.
  destruct (Z.testbit (a k' j' i') n) eqn:E.
  - now apply arr3_or_list_mono.
  - destruct (Z.testbit (arr3_or_list a l k' j' i') n) eqn:E'; [|reflexivity].
    apply testbit_arr3_or_list in E'.
    destruct E' as [H|(f & H1 & H2)]; [congruence|].
    rewrite (Hl _ _ _ _ H1) in H2; discriminate.
Qed.

(** ** The flags after the first loop nest *)

Section FlagNegative.

Variable nghost : Z.
Variable order : Order.
Variable g : Grid.
Variable U : arr3 Gas.

Local Abbreviation neg := (negative_cell nghost order g U).
Local Abbreviation F1 := (fst (flag_negative nghost order g U)).

(** A bit of [Ineg] is set only by a cell of non-positive density. *)
Lemma flag_negative_only (k' j' i' n : Z) :
  Z.testbit (F1 k' j' i') n = true ->
  exists k j i, neg k j i /\ or_hits (flag_negative_stores k j i) k' j' i' n.
Proof.
  unfold flag_negative.
  set (P := fun s : arr3 Z * Z =>
    forall k' j' i', Z.testbit (fst s k' j' i') n = true ->
      exists k j i, neg k j i
        /\ or_hits (flag_negative_stores k j i) k' j' i' n).
  revert k' j' i'.
  refine (nest3_invariant _ _ _ _ _ _ _ P _ _ _).
  - intros k j i s Hk Hj Hi Hs k' j' i'.
    unfold flag_negative_cell.
    destruct (Rle_dec (Gas.d (U k j i)) 0) as [Hd|Hd]; [|apply Hs].
    cbn [fst]; intros H.
    apply testbit_arr3_or_list in H; destruct H as [H|H].
    + now apply Hs.
    + exists k, j, i; split; [|exact H].
      unfold negative_cell; auto.
  - intros k' j' i'; cbn [fst]; rewrite Z.bits_0; discriminate.
Qed.

(** Every [|=] of a cell of non-positive density is still there after the
    loop nest. *)
Lemma flag_negative_sets (k j i k' j' i' n : Z) :
  neg k j i -> or_hits (flag_negative_stores k j i) k' j' i' n ->
  Z.testbit (F1 k' j' i') n = true.
Proof.
  intros (Hk & Hj & Hi & Hd) Hhit; unfold flag_negative.
  refine (nest3_establish _ _ _ _ _ _ _ (fun _ => True)
            (fun s : arr3 Z * Z => Z.testbit (fst s k' j' i') n = true)
            k j i _ _ _ _ Hk Hj Hi I).
  - auto.
  - intros s _; unfold flag_negative_cell.
    destruct (Rle_dec (Gas.d (U k j i)) 0) as [_|Hn]; [|contradiction].
    cbn [fst]; apply testbit_arr3_or_list; auto.
  - intros k0 j0 i0 s _ _ _ _ Hs; unfold flag_negative_cell.
    destruct (Rle_dec (Gas.d (U k0 j0 i0)) 0); [|exact Hs].
    cbn [fst]; now apply arr3_or_list_mono.
Qed.

(** [negcount] is positive as soon as one visited cell has [d <= 0.0]. *)
Lemma flag_negative_count (k j i : Z) :
  neg k j i -> (0 < snd (flag_negative nghost order g U))%Z.
Proof.
  intros (Hk & Hj & Hi & Hd); unfold flag_negative.
  refine (nest3_establish _ _ _ _ _ _ _
            (fun s : arr3 Z * Z => (0 <= snd s)%Z)
            (fun s : arr3 Z * Z => (0 < snd s)%Z)
            k j i _ _ _ _ Hk Hj Hi _).
  - intros k0 j0 i0 s _ _ _ Hs; unfold flag_negative_cell.
    destruct (Rle_dec (Gas.d (U k0 j0 i0)) 0); cbn [snd]; lia.
  - intros s Hs; unfold flag_negative_cell.
    destruct (Rle_dec (Gas.d (U k j i)) 0) as [_|Hn]; [|contradiction].
    cbn [snd]; lia.
  - intros k0 j0 i0 s _ _ _ _ Hs; unfold flag_negative_cell.
    destruct (Rle_dec (Gas.d (U k0 j0 i0)) 0); cbn [snd]; lia.
  - cbn [snd]; lia.
Qed.

(** Without such a cell the loop nest leaves [Ineg] cleared and
    [negcount] at zero. *)
Lemma flag_negative_healthy :
  (forall k j i, ~ neg k j i) ->
  flag_negative nghost order g U = (fun _ _ _ => 0%Z, 0%Z).
Proof.
  intros Hpos; unfold flag_negative.
  refine (nest3_invariant _ _ _ _ _ _ _
            (fun s : arr3 Z * Z => s = (fun _ _ _ => 0%Z, 0%Z)) _ _ eq_refl).
  intros k j i s Hk Hj Hi Hs; unfold flag_negative_cell.
  destruct (Rle_dec (Gas.d (U k j i)) 0) as [Hd|Hd]; [|exact Hs].
  exfalso; apply (Hpos k j i); unfold negative_cell; auto.
Qed.

Ltac hit_cases H :=
  destruct H as (f & Hin & Hbit); simpl in Hin;
  repeat (destruct Hin as [Hin|Hin];
          [inversion Hin; subst; clear Hin; try discriminate Hbit|]);
  try contradiction.

(** The hydro flag of direction x1 at [(k,j,i)] tells that the cell
    [(k,j,i)] or the cell [(k,j,i-1)] has non-positive density; likewise
    for x2 and x3. *)
Lemma flag_negative_hydro_x1 (k j i : Z) :
  Z.testbit (F1 k j i) 0 = true -> neg k j i \/ neg k j (i - 1)%Z.
Proof.
  intros H; apply flag_negative_only in H.
  destruct H as (k0 & j0 & i0 & Hneg & Hhit).
  hit_cases Hhit; auto.
  right; now replace (i0 + 1 - 1)%Z with i0 by lia.
Qed.

Lemma flag_negative_hydro_x2 (k j i : Z) :
  Z.testbit (F1 k j i) 1 = true -> neg k j i \/ neg k (j - 1)%Z i.
Proof.
  intros H; apply flag_negative_only in H.
  destruct H as (k0 & j0 & i0 & Hneg & Hhit).
  hit_cases Hhit; auto.
  right; now replace (j0 + 1 - 1)%Z with j0 by lia.
Qed.

Lemma flag_negative_hydro_x3 (k j i : Z) :
  Z.testbit (F1 k j i) 2 = true -> neg k j i \/ neg (k - 1)%Z j i.
Proof.
  intros H; apply flag_negative_only in H.
  destruct H as (k0 & j0 & i0 & Hneg & Hhit).
  hit_cases Hhit; auto.
  right; now replace (k0 + 1 - 1)%Z with k0 by lia.
Qed.

(** A cell of non-positive density carries all six flags. *)
Lemma flag_negative_all (k j i n : Z) :
  neg k j i -> (0 <= n <= 5)%Z -> Z.testbit (F1 k j i) n = true.
Proof.
  intros Hneg Hn.
  apply (flag_negative_sets k j i); [exact Hneg|].
  exists (Z.lor correct_hydro_all correct_mhd_all); split; [left; reflexivity|].
  assert (n = 0 \/ n = 1 \/ n = 2 \/ n = 3 \/ n = 4 \/ n = 5)%Z
    as [->|[->|[->|[->|[->| ->]]]]] by lia; reflexivity.
Qed.

(** A hydro flag is never set without the MHD flag of the same
    direction. *)
Lemma flag_negative_pair (k j i n : Z) :
  (0 <= n <= 2)%Z ->
  Z.testbit (F1 k j i) n = true -> Z.testbit (F1 k j i) (n + 3) = true.
Proof.
  intros Hn H; apply flag_negative_only in H.
  destruct H as (k0 & j0 & i0 & Hneg & Hhit).
  apply (flag_negative_sets k0 j0 i0); [exact Hneg|].
  assert (n = 0 \/ n = 1 \/ n = 2)%Z as [->|[->| ->]] by lia;
    hit_cases Hhit;
    (eexists; split; [simpl; eauto 6 | reflexivity]).
Qed.

End FlagNegative.

(** ** The flags after the MHD loop nest *)

Section FlagMhd.

Variable nghost : Z.
Variable order : Order.
Variable g : Grid.

Lemma flag_mhd_from_x1_bits (k j i k0 j0 i0 f n : Z) :
  In (k0, j0, i0, f) (flag_mhd_from_x1 k j i) -> (0 <= n <= 2)%Z ->
  Z.testbit f n = false.
Proof.
  intros Hin Hn.
  assert (n = 0 \/ n = 1 \/ n = 2)%Z as [->|[->| ->]] by lia;
    simpl in Hin;
    repeat (destruct Hin as [Hin|Hin]; [inversion Hin; reflexivity|]);
    contradiction.
Qed.

Lemma flag_mhd_from_x2_bits (k j i k0 j0 i0 f n : Z) :
  In (k0, j0, i0, f) (flag_mhd_from_x2 k j i) -> (0 <= n <= 2)%Z ->
  Z.testbit f n = false.
Proof.
  intros Hin Hn.
  assert (n = 0 \/ n = 1 \/ n = 2)%Z as [->|[->| ->]] by lia;
    simpl in Hin;
    repeat (destruct Hin as [Hin|Hin]; [inversion Hin; reflexivity|]);
    contradiction.
Qed.

Lemma flag_mhd_from_x3_bits (k j i k0 j0 i0 f n : Z) :
  In (k0, j0, i0, f) (flag_mhd_from_x3 k j i) -> (0 <= n <= 2)%Z ->
  Z.testbit f n = false.
Proof.
  intros Hin Hn.
  assert (n = 0 \/ n = 1 \/ n = 2)%Z as [->|[->| ->]] by lia;
    simpl in Hin;
    repeat (destruct Hin as [Hin|Hin]; [inversion Hin; reflexivity|]);
    contradiction.
Qed.

(** One iteration leaves the hydro flags of every cell alone. *)
Lemma flag_mhd_cell_hydro (k j i : Z) (a : arr3 Z) (k' j' i' n : Z) :
  (0 <= n <= 2)%Z ->
  Z.testbit (flag_mhd_cell k j i a k' j' i') n = Z.testbit (a k' j' i') n.
Proof.
  intros Hn; unfold flag_mhd_cell; cbv zeta.
  repeat match goal with
         | |- context [if ?c then _ else _] => destruct c
         end;
    rewrite ?arr3_or_list_keeps; try reflexivity;
    intros k0 j0 i0 f Hin;
    first [ now apply (flag_mhd_from_x1_bits k j i k0 j0 i0)
          | now apply (flag_mhd_from_x2_bits k j i k0 j0 i0)
          | now apply (flag_mhd_from_x3_bits k j i k0 j0 i0) ].
Qed.

(** One iteration takes no flag away. *)
Lemma flag_mhd_cell_mono (k j i : Z) (a : arr3 Z) (k' j' i' n : Z) :
  Z.testbit (a k' j' i') n = true ->
  Z.testbit (flag_mhd_cell k j i a k' j' i') n = true.
Proof.
  intros H; unfold flag_mhd_cell; cbv zeta.
  repeat match goal with
         | |- context [if ?c then _ else _] => destruct c
         end;
    repeat apply arr3_or_list_mono; exact H.
Qed.

Lemma flag_mhd_cell_sets (k j i : Z) (a : arr3 Z) (k' j' i' n : Z) :
  flag_mhd_hits a k j i k' j' i' n ->
  Z.testbit (flag_mhd_cell k j i a k' j' i') n = true.
Proof.
  intros H; unfold flag_mhd_cell; cbv zeta.
  set (a1 := if flag_set a k j i correct_hydro_x1
             then arr3_or_list a (flag_mhd_from_x1 k j i) else a).
  set (a2 := if flag_set a1 k j i correct_hydro_x2
             then arr3_or_list a1 (flag_mhd_from_x2 k j i) else a1).
  assert (E1 : forall n, (0 <= n <= 2)%Z ->
            Z.testbit (a1 k j i) n = Z.testbit (a k j i) n).
  { intros m Hm; unfold a1.
    destruct (flag_set a k j i correct_hydro_x1); [|reflexivity].
    apply arr3_or_list_keeps; intros k0 j0 i0 f Hin.
    now apply (flag_mhd_from_x1_bits k j i k0 j0 i0). }
  assert (E2 : forall n, (0 <= n <= 2)%Z ->
            Z.testbit (a2 k j i) n = Z.testbit (a k j i) n).
  { intros m Hm; unfold a2.
    destruct (flag_set a1 k j i correct_hydro_x2); [|now apply E1].
    rewrite arr3_or_list_keeps; [now apply E1|].
    intros k0 j0 i0 f Hin.
    now apply (flag_mhd_from_x2_bits k j i k0 j0 i0). }
  assert (M2 : Z.testbit (a1 k' j' i') n = true ->
               Z.testbit (a2 k' j' i') n = true).
  { intros H1; unfold a2.
    destruct (flag_set a1 k j i correct_hydro_x2); [|exact H1].
    now apply arr3_or_list_mono. }
  assert (M3 : Z.testbit (a2 k' j' i') n = true ->
               Z.testbit ((if flag_set a2 k j i correct_hydro_x3
                           then arr3_or_list a2 (flag_mhd_from_x3 k j i)
                           else a2) k' j' i') n = true).
  { intros H2.
    destruct (flag_set a2 k j i correct_hydro_x3); [|exact H2].
    now apply arr3_or_list_mono. }
  destruct H as [[Hb Hh]|[[Hb Hh]|[Hb Hh]]].
  - apply M3, M2; unfold a1.
    rewrite flag_set_hydro_x1, Hb.
    apply testbit_arr3_or_list; auto.
  - apply M3; unfold a2.
    rewrite flag_set_hydro_x2, E1, Hb by lia.
    apply testbit_arr3_or_list; auto.
  - rewrite flag_set_hydro_x3, E2, Hb by lia.
    apply testbit_arr3_or_list; auto.
Qed.

Local Abbreviation ib := (ib nghost order g).
Local Abbreviation it := (it nghost order g).
Local Abbreviation jb := (jb nghost order g).
Local Abbreviation jt := (jt nghost order g).
Local Abbreviation kb := (kb nghost order g).
Local Abbreviation kt := (kt nghost order g).

(** The loop nest leaves the hydro flags as they are ... *)
Lemma flag_mhd_hydro (a : arr3 Z) (k' j' i' n : Z) :
  (0 <= n <= 2)%Z ->
  Z.testbit (flag_mhd nghost order g a k' j' i') n = Z.testbit (a k' j' i') n.
Proof.
  intros Hn; unfold flag_mhd.
  refine (nest3_invariant _ _ _ _ _ _ _
            (fun s : arr3 Z =>
               Z.testbit (s k' j' i') n = Z.testbit (a k' j' i') n) _ _ eq_refl).
  intros k j i s _ _ _ Hs.
  now rewrite flag_mhd_cell_hydro.
Qed.

(** ... takes no flag away ... *)
Lemma flag_mhd_mono (a : arr3 Z) (k' j' i' n : Z) :
  Z.testbit (a k' j' i') n = true ->
  Z.testbit (flag_mhd nghost order g a k' j' i') n = true.
Proof.
  intros H; unfold flag_mhd.
  refine (nest3_invariant _ _ _ _ _ _ _
            (fun s : arr3 Z => Z.testbit (s k' j' i') n = true) _ _ H).
  intros k j i s _ _ _ Hs.
  now apply flag_mhd_cell_mono.
Qed.

(** ... and keeps every store of every interface it visits. *)
Lemma flag_mhd_sets (a : arr3 Z) (k j i k' j' i' n : Z) :
  (kb + 1 <= k <= kt)%Z -> (jb + 1 <= j <= jt)%Z -> (ib + 1 <= i <= it)%Z ->
  flag_mhd_hits a k j i k' j' i' n ->
  Z.testbit (flag_mhd nghost order g a k' j' i') n = true.
Proof.
  intros Hk Hj Hi Hhit; unfold flag_mhd.
  refine (nest3_establish _ _ _ _ _ _ _
            (fun s : arr3 Z => forall k j i n, (0 <= n <= 2)%Z ->
               Z.testbit (s k j i) n = Z.testbit (a k j i) n)
            (fun s : arr3 Z => Z.testbit (s k' j' i') n = true)
            k j i _ _ _ _ Hk Hj Hi _).
  - intros k0 j0 i0 s _ _ _ Hs k1 j1 i1 m Hm.
    rewrite flag_mhd_cell_hydro by exact Hm; now apply Hs.
  - intros s Hs; apply flag_mhd_cell_sets.
    unfold flag_mhd_hits in *.
    rewrite !Hs by lia; exact Hhit.
  - intros k0 j0 i0 s _ _ _ _ Hs; now apply flag_mhd_cell_mono.
  - reflexivity.
Qed.

End FlagMhd.

(** ** Closure of the flags around an edge *)

Lemma or_hits_intro (l : list (Z * Z * Z * Z)) (k' j' i' n k0 j0 i0 f : Z) :
  In (k0, j0, i0, f) l -> k0 = k' -> j0 = j' -> i0 = i' ->
  Z.testbit f n = true -> or_hits l k' j' i' n.
Proof. intros Hin -> -> -> Hb; exists f; auto. Qed.

Ltac solve_hit :=
  first
    [ solve [eapply or_hits_intro;
             [left; reflexivity | lia | lia | lia | reflexivity]]
    | solve [eapply or_hits_intro;
             [do 1 right; left; reflexivity | lia | lia | lia | reflexivity]]
    | solve [eapply or_hits_intro;
             [do 2 right; left; reflexivity | lia | lia | lia | reflexivity]]
    | solve [eapply or_hits_intro;
             [do 3 right; left; reflexivity | lia | lia | lia | reflexivity]]
    | solve [eapply or_hits_intro;
             [do 4 right; left; reflexivity | lia | lia | lia | reflexivity]]
    | solve [eapply or_hits_intro;
             [do 5 right; left; reflexivity | lia | lia | lia | reflexivity]]
    | solve [eapply or_hits_intro;
             [do 6 right; left; reflexivity | lia | lia | lia | reflexivity]]
    | solve [eapply or_hits_intro;
             [do 7 right; left; reflexivity | lia | lia | lia | reflexivity]] ].

Section FlagClosure.

Variable nghost : Z.
Variable order : Order.
Variable g : Grid.
Variable U : arr3 Gas.

Local Abbreviation neg := (negative_cell nghost order g U).
Local Abbreviation F1 := (fst (flag_negative nghost order g U)).
Local Abbreviation F2 := (mhd_flags nghost order g U).

Lemma mhd_flags_hydro (k j i n : Z) :
  (0 <= n <= 2)%Z -> Z.testbit (F2 k j i) n = Z.testbit (F1 k j i) n.
Proof. intros Hn; unfold mhd_flags; now apply flag_mhd_hydro. Qed.

(** All flags of a cell of non-positive density. *)
Lemma mhd_flags_of_negative (a b c k j i n : Z) :
  neg a b c -> a = k -> b = j -> c = i -> (0 <= n <= 5)%Z ->
  Z.testbit (F2 k j i) n = true.
Proof.
  intros Hneg <- <- <- Hn.
  unfold mhd_flags; apply flag_mhd_mono; now apply flag_negative_all.
Qed.

(** The stores of the three blocks at a cell of non-positive density. *)
Lemma mhd_flags_around_negative (a b c k j i n : Z) :
  neg a b c ->
  or_hits (flag_mhd_from_x1 a b c) k j i n
  \/ or_hits (flag_mhd_from_x2 a b c) k j i n
  \/ or_hits (flag_mhd_from_x3 a b c) k j i n ->
  Z.testbit (F2 k j i) n = true.
Proof.
  intros Hneg Hhit.
  pose proof (flag_negative_all nghost order g U a b c 0 Hneg ltac:(lia)) as H0.
  pose proof (flag_negative_all nghost order g U a b c 1 Hneg ltac:(lia)) as H1.
  pose proof (flag_negative_all nghost order g U a b c 2 Hneg ltac:(lia)) as H2.
  destruct Hneg as (Hk & Hj & Hi & _).
  unfold mhd_flags; apply (flag_mhd_sets nghost order g _ a b c); try lia.
  unfold flag_mhd_hits; tauto.
Qed.

Ltac from_negative Hneg :=
  first
    [ solve [apply (mhd_flags_of_negative _ _ _ _ _ _ _ Hneg); lia]
    | solve [apply (mhd_flags_around_negative _ _ _ _ _ _ _ Hneg);
             left; solve_hit]
    | solve [apply (mhd_flags_around_negative _ _ _ _ _ _ _ Hneg);
             right; left; solve_hit]
    | solve [apply (mhd_flags_around_negative _ _ _ _ _ _ _ Hneg);
             right; right; solve_hit] ].

(** The stores of the block of a flagged interface. *)
Lemma mhd_flags_around_flagged (a b c k j i n : Z) :
  (kb nghost order g + 1 <= a <= kt nghost order g)%Z ->
  (jb nghost order g + 1 <= b <= jt nghost order g)%Z ->
  (ib nghost order g + 1 <= c <= it nghost order g)%Z ->
  flag_mhd_hits F1 a b c k j i n ->
  Z.testbit (F2 k j i) n = true.
Proof.
  intros Hk Hj Hi Hhit; unfold mhd_flags.
  now apply (flag_mhd_sets nghost order g _ a b c).
Qed.

Ltac from_flagged Hneg H :=
  let Hk := fresh "Hk" in
  let Hj := fresh "Hj" in
  let Hi := fresh "Hi" in
  pose proof Hneg as (Hk & Hj & Hi & _);
  match type of H with
  | Z.testbit (_ ?a ?b ?c) _ = true =>
      apply (mhd_flags_around_flagged a b c); [lia | lia | lia |];
      unfold flag_mhd_hits;
      first [ solve [left; split; [exact H | solve_hit]]
            | solve [right; left; split; [exact H | solve_hit]]
            | solve [right; right; split; [exact H | solve_hit]] ]
  end.

Ltac close_flag Hneg H := first [from_negative Hneg | from_flagged Hneg H].

(** If one of the four fluxes that enter the corner EMF of an edge
    belongs to an interface flagged for the hydro correction, then all
    four face fields around that edge are flagged for the MHD
    correction.  For [emf1[k][j][i]]: the x2-fluxes at [(k,j,i)] and
    [(k-1,j,i)], the x3-fluxes at [(k,j,i)] and [(k,j-1,i)]; [B2i] at
    [(k,j,i)] and [(k-1,j,i)], [B3i] at [(k,j,i)] and [(k,j-1,i)]. *)
Lemma closure_emf1 (k j i : Z) :
  Z.testbit (F2 k j i) 1 = true \/ Z.testbit (F2 (k - 1)%Z j i) 1 = true
  \/ Z.testbit (F2 k j i) 2 = true \/ Z.testbit (F2 k (j - 1)%Z i) 2 = true ->
  Z.testbit (F2 k j i) 4 = true /\ Z.testbit (F2 (k - 1)%Z j i) 4 = true
  /\ Z.testbit (F2 k j i) 5 = true /\ Z.testbit (F2 k (j - 1)%Z i) 5 = true.
Proof.
  intros [H|[H|[H|H]]]; rewrite mhd_flags_hydro in H by lia; pose proof H as H'.
  - apply flag_negative_hydro_x2 in H'; destruct H' as [Hneg|Hneg];
      repeat split; close_flag Hneg H.
  - apply flag_negative_hydro_x2 in H'; destruct H' as [Hneg|Hneg];
      repeat split; close_flag Hneg H.
  - apply flag_negative_hydro_x3 in H'; destruct H' as [Hneg|Hneg];
      repeat split; close_flag Hneg H.
  - apply flag_negative_hydro_x3 in H'; destruct H' as [Hneg|Hneg];
      repeat split; close_flag Hneg H.
Qed.

(** For [emf2[k][j][i]]: the x1-fluxes at [(k,j,i)] and [(k-1,j,i)], the
    x3-fluxes at [(k,j,i)] and [(k,j,i-1)]; [B1i] at [(k,j,i)] and
    [(k-1,j,i)], [B3i] at [(k,j,i)] and [(k,j,i-1)]. *)
Lemma closure_emf2 (k j i : Z) :
  Z.testbit (F2 k j i) 0 = true \/ Z.testbit (F2 (k - 1)%Z j i) 0 = true
  \/ Z.testbit (F2 k j i) 2 = true \/ Z.testbit (F2 k j (i - 1)%Z) 2 = true ->
  Z.testbit (F2 k j i) 3 = true /\ Z.testbit (F2 (k - 1)%Z j i) 3 = true
  /\ Z.testbit (F2 k j i) 5 = true /\ Z.testbit (F2 k j (i - 1)%Z) 5 = true.
Proof.
  intros [H|[H|[H|H]]]; rewrite mhd_flags_hydro in H by lia; pose proof H as H'.
  - apply flag_negative_hydro_x1 in H'; destruct H' as [Hneg|Hneg];
      repeat split; close_flag Hneg H.
  - apply flag_negative_hydro_x1 in H'; destruct H' as [Hneg|Hneg];
      repeat split; close_flag Hneg H.
  - apply flag_negative_hydro_x3 in H'; destruct H' as [Hneg|Hneg];
      repeat split; close_flag Hneg H.
  - apply flag_negative_hydro_x3 in H'; destruct H' as [Hneg|Hneg];
      repeat split; close_flag Hneg H.
Qed.

(** For [emf3[k][j][i]]: the x1-fluxes at [(k,j,i)] and [(k,j-1,i)], the
    x2-fluxes at [(k,j,i)] and [(k,j,i-1)]; [B1i] at [(k,j,i)] and
    [(k,j-1,i)], [B2i] at [(k,j,i)] and [(k,j,i-1)]. *)
Lemma closure_emf3 (k j i : Z) :
  Z.testbit (F2 k j i) 0 = true \/ Z.testbit (F2 k (j - 1)%Z i) 0 = true
  \/ Z.testbit (F2 k j i) 1 = true \/ Z.testbit (F2 k j (i - 1)%Z) 1 = true ->
  Z.testbit (F2 k j i) 3 = true /\ Z.testbit (F2 k (j - 1)%Z i) 3 = true
  /\ Z.testbit (F2 k j i) 4 = true /\ Z.testbit (F2 k j (i - 1)%Z) 4 = true.
Proof.
  intros [H|[H|[H|H]]]; rewrite mhd_flags_hydro in H by lia; pose proof H as H'.
  - apply flag_negative_hydro_x1 in H'; destruct H' as [Hneg|Hneg];
      repeat split; close_flag Hneg H.
  - apply flag_negative_hydro_x1 in H'; destruct H' as [Hneg|Hneg];
      repeat split; close_flag Hneg H.
  - apply flag_negative_hydro_x2 in H'; destruct H' as [Hneg|Hneg];
      repeat split; close_flag Hneg H.
  - apply flag_negative_hydro_x2 in H'; destruct H' as [Hneg|Hneg];
      repeat split; close_flag Hneg H.
Qed.

End FlagClosure.

(** ** The first-order fluxes *)

Lemma index_neq_dec (k j i k' j' i' : Z) :
  (k = k' /\ j = j' /\ i = i') \/ (k <> k' \/ j <> j' \/ i <> i').
Proof. lia. Qed.

Section FluxFacts.

Variable nghost : Z.
Variable order : Order.
Variable ISOTHERMAL : bool.
Variable GET_FLUXES : R -> Cons1D -> Cons1D -> Cons1D -> Cons1D.
Variable g : Grid.
Variable Ineg : arr3 Z.
Variable Uhalf : arr3 Gas.
Variable Bface : Faces.t.

Local Abbreviation fof :=
  (first_order_fluxes nghost order ISOTHERMAL GET_FLUXES g Ineg Uhalf Bface).
Local Abbreviation fof_cell :=
  (first_order_fluxes_cell ISOTHERMAL GET_FLUXES Ineg Uhalf Bface).

(** The flux of an interface that is not flagged is not recomputed. *)
Lemma first_order_fluxes_x1_keep (w : FaceWork.t) (k j i : Z) :
  flag_set Ineg k j i correct_hydro_x1 = false ->
  FaceWork.x1Flux (fof w) k j i = FaceWork.x1Flux w k j i.
Proof.
  intros Hf; unfold first_order_fluxes.
  refine (nest3_invariant _ _ _ _ _ _ _
            (fun s => FaceWork.x1Flux s k j i = FaceWork.x1Flux w k j i)
            _ _ eq_refl).
  intros k0 j0 i0 s _ _ _ Hs; rewrite <- Hs.
  unfold first_order_fluxes_cell; cbv zeta.
  destruct (flag_set Ineg k0 j0 i0 correct_hydro_x1) eqn:E1,
           (flag_set Ineg k0 j0 i0 correct_hydro_x2),
           (flag_set Ineg k0 j0 i0 correct_hydro_x3);
    cbn [FaceWork.x1Flux]; try reflexivity;
    (destruct (index_neq_dec k0 j0 i0 k j i) as [(-> & -> & ->)|Hne];
     [congruence | now apply arr3_set_neq]).
Qed.

Lemma first_order_fluxes_x2_keep (w : FaceWork.t) (k j i : Z) :
  flag_set Ineg k j i correct_hydro_x2 = false ->
  FaceWork.x2Flux (fof w) k j i = FaceWork.x2Flux w k j i.
Proof.
  intros Hf; unfold first_order_fluxes.
  refine (nest3_invariant _ _ _ _ _ _ _
            (fun s => FaceWork.x2Flux s k j i = FaceWork.x2Flux w k j i)
            _ _ eq_refl).
  intros k0 j0 i0 s _ _ _ Hs; rewrite <- Hs.
  unfold first_order_fluxes_cell; cbv zeta.
  destruct (flag_set Ineg k0 j0 i0 correct_hydro_x1),
           (flag_set Ineg k0 j0 i0 correct_hydro_x2) eqn:E2,
           (flag_set Ineg k0 j0 i0 correct_hydro_x3);
    cbn [FaceWork.x2Flux]; try reflexivity;
    (destruct (index_neq_dec k0 j0 i0 k j i) as [(-> & -> & ->)|Hne];
     [congruence | now apply arr3_set_neq]).
Qed.

Lemma first_order_fluxes_x3_keep (w : FaceWork.t) (k j i : Z) :
  flag_set Ineg k j i correct_hydro_x3 = false ->
  FaceWork.x3Flux (fof w) k j i = FaceWork.x3Flux w k j i.
Proof.
  intros Hf; unfold first_order_fluxes.
  refine (nest3_invariant _ _ _ _ _ _ _
            (fun s => FaceWork.x3Flux s k j i = FaceWork.x3Flux w k j i)
            _ _ eq_refl).
  intros k0 j0 i0 s _ _ _ Hs; rewrite <- Hs.
  unfold first_order_fluxes_cell; cbv zeta.
  destruct (flag_set Ineg k0 j0 i0 correct_hydro_x1),
           (flag_set Ineg k0 j0 i0 correct_hydro_x2),
           (flag_set Ineg k0 j0 i0 correct_hydro_x3) eqn:E3;
    cbn [FaceWork.x3Flux]; try reflexivity;
    (destruct (index_neq_dec k0 j0 i0 k j i) as [(-> & -> & ->)|Hne];
     [congruence | now apply arr3_set_neq]).
Qed.

End FluxFacts.

(** ** The corner EMFs again *)

Section CornerExt.

Variables x1Flux x2Flux x3Flux x1Flux' x2Flux' x3Flux' : arr3 Cons1D.
Variables emf1_cc emf2_cc emf3_cc : arr3 R.
Variables k j i : Z.

(** A corner EMF reads four fluxes only. *)
Lemma emf1_corner_ext :
  x2Flux' k j i = x2Flux k j i -> x2Flux' (k - 1)%Z j i = x2Flux (k - 1)%Z j i ->
  x3Flux' k j i = x3Flux k j i -> x3Flux' k (j - 1)%Z i = x3Flux k (j - 1)%Z i ->
  emf1_corner x2Flux' x3Flux' emf1_cc k j i
  = emf1_corner x2Flux x3Flux emf1_cc k j i.
Proof.
  intros H1 H2 H3 H4.
  unfold emf1_corner, de1_l2, de1_r2, de1_l3, de1_r3.
  now rewrite H1, H2, H3, H4.
Qed.

Lemma emf2_corner_ext :
  x1Flux' k j i = x1Flux k j i -> x1Flux' (k - 1)%Z j i = x1Flux (k - 1)%Z j i ->
  x3Flux' k j i = x3Flux k j i -> x3Flux' k j (i - 1)%Z = x3Flux k j (i - 1)%Z ->
  emf2_corner x1Flux' x3Flux' emf2_cc k j i
  = emf2_corner x1Flux x3Flux emf2_cc k j i.
Proof.
  intros H1 H2 H3 H4.
  unfold emf2_corner, de2_l1, de2_r1, de2_l3, de2_r3.
  now rewrite H1, H2, H3, H4.
Qed.

Lemma emf3_corner_ext :
  x1Flux' k j i = x1Flux k j i -> x1Flux' k (j - 1)%Z i = x1Flux k (j - 1)%Z i ->
  x2Flux' k j i = x2Flux k j i -> x2Flux' k j (i - 1)%Z = x2Flux k j (i - 1)%Z ->
  emf3_corner x1Flux' x2Flux' emf3_cc k j i
  = emf3_corner x1Flux x2Flux emf3_cc k j i.
Proof.
  intros H1 H2 H3 H4.
  unfold emf3_corner, de3_l1, de3_r1, de3_l2, de3_r2.
  now rewrite H1, H2, H3, H4.
Qed.

End CornerExt.

Section RecalcFacts.

Variable nghost : Z.
Variable order : Order.
Variable g : Grid.
Variable Ineg : arr3 Z.
Variables x1Flux x2Flux x3Flux : arr3 Cons1D.
Variable cc : EmfCC.t.

Local Abbreviation ib := (ib nghost order g).
Local Abbreviation it := (it nghost order g).
Local Abbreviation jb := (jb nghost order g).
Local Abbreviation jt := (jt nghost order g).
Local Abbreviation kb := (kb nghost order g).
Local Abbreviation kt := (kt nghost order g).

(** A corner EMF keeps its value or takes the recomputed one, the latter
    inside the loop window only. *)
Lemma recalc_emf1_cases (emf1 : arr3 R) (k j i : Z) :
  recalc_emf1 nghost order g Ineg x2Flux x3Flux cc emf1 k j i = emf1 k j i
  \/ ((kb + 2 <= k <= kt)%Z /\ (jb + 2 <= j <= jt)%Z
      /\ (ib + 2 <= i <= it - 1)%Z
      /\ recalc_emf1 nghost order g Ineg x2Flux x3Flux cc emf1 k j i
         = emf1_corner x2Flux x3Flux (EmfCC.emf1_cc cc) k j i).
Proof.
  unfold recalc_emf1.
  refine (nest3_invariant _ _ _ _ _ _ _
            (fun s : arr3 R => s k j i = emf1 k j i
               \/ ((kb + 2 <= k <= kt)%Z /\ (jb + 2 <= j <= jt)%Z
                   /\ (ib + 2 <= i <= it - 1)%Z
                   /\ s k j i
                      = emf1_corner x2Flux x3Flux (EmfCC.emf1_cc cc) k j i))
            _ _ (or_introl eq_refl)).
  intros k0 j0 i0 s Hk Hj Hi Hs.
  match goal with |- context [if ?c then _ else _] => destruct c end;
    [|exact Hs].
  destruct (index_neq_dec k0 j0 i0 k j i) as [(-> & -> & ->)|Hne].
  - right; rewrite arr3_set_eq; auto.
  - now rewrite arr3_set_neq.
Qed.

Lemma recalc_emf2_cases (emf2 : arr3 R) (k j i : Z) :
  recalc_emf2 nghost order g Ineg x1Flux x3Flux cc emf2 k j i = emf2 k j i
  \/ ((kb + 2 <= k <= kt)%Z /\ (jb + 2 <= j <= jt - 1)%Z
      /\ (ib + 2 <= i <= it)%Z
      /\ recalc_emf2 nghost order g Ineg x1Flux x3Flux cc emf2 k j i
         = emf2_corner x1Flux x3Flux (EmfCC.emf2_cc cc) k j i).
Proof.
  unfold recalc_emf2.
  refine (nest3_invariant _ _ _ _ _ _ _
            (fun s : arr3 R => s k j i = emf2 k j i
               \/ ((kb + 2 <= k <= kt)%Z /\ (jb + 2 <= j <= jt - 1)%Z
                   /\ (ib + 2 <= i <= it)%Z
                   /\ s k j i
                      = emf2_corner x1Flux x3Flux (EmfCC.emf2_cc cc) k j i))
            _ _ (or_introl eq_refl)).
  intros k0 j0 i0 s Hk Hj Hi Hs.
  match goal with |- context [if ?c then _ else _] => destruct c end;
    [|exact Hs].
  destruct (index_neq_dec k0 j0 i0 k j i) as [(-> & -> & ->)|Hne].
  - right; rewrite arr3_set_eq; auto.
  - now rewrite arr3_set_neq.
Qed.

Lemma recalc_emf3_cases (emf3 : arr3 R) (k j i : Z) :
  recalc_emf3 nghost order g Ineg x1Flux x2Flux cc emf3 k j i = emf3 k j i
  \/ ((kb + 2 <= k <= kt - 1)%Z /\ (jb + 2 <= j <= jt)%Z
      /\ (ib + 2 <= i <= it)%Z
      /\ recalc_emf3 nghost order g Ineg x1Flux x2Flux cc emf3 k j i
         = emf3_corner x1Flux x2Flux (EmfCC.emf3_cc cc) k j i).
Proof.
  unfold recalc_emf3.
  refine (nest3_invariant _ _ _ _ _ _ _
            (fun s : arr3 R => s k j i = emf3 k j i
               \/ ((kb + 2 <= k <= kt - 1)%Z /\ (jb + 2 <= j <= jt)%Z
                   /\ (ib + 2 <= i <= it)%Z
                   /\ s k j i
                      = emf3_corner x1Flux x2Flux (EmfCC.emf3_cc cc) k j i))
            _ _ (or_introl eq_refl)).
  intros k0 j0 i0 s Hk Hj Hi Hs.
  match goal with |- context [if ?c then _ else _] => destruct c end;
    [|exact Hs].
  destruct (index_neq_dec k0 j0 i0 k j i) as [(-> & -> & ->)|Hne].
  - right; rewrite arr3_set_eq; auto.
  - now rewrite arr3_set_neq.
Qed.

End RecalcFacts.

(** ** The interface fields *)

Section MhdFacts.

Variable nghost : Z.
Variable order : Order.
Variable g : Grid.
Variable Ineg : arr3 Z.
Variables emf1 emf2 emf3 : arr3 R.

Local Abbreviation ib := (ib nghost order g).
Local Abbreviation it := (it nghost order g).
Local Abbreviation jb := (jb nghost order g).
Local Abbreviation jt := (jt nghost order g).
Local Abbreviation kb := (kb nghost order g).
Local Abbreviation kt := (kt nghost order g).

Local Abbreviation undo := (undo_mhd nghost order g Ineg emf1 emf2 emf3).
Local Abbreviation redo := (redo_mhd nghost order g Ineg emf1 emf2 emf3).
Local Abbreviation undo_cell := (undo_mhd_cell g Ineg emf1 emf2 emf3).
Local Abbreviation redo_cell := (redo_mhd_cell g Ineg emf1 emf2 emf3).

Ltac mhd_cell_cases :=
  unfold undo_mhd_cell, redo_mhd_cell; cbv zeta;
  repeat match goal with
         | |- context [if ?c then _ else _] => destruct c
         end;
  cbn [B1i B2i B3i dx1 dx2 dx3 sub_B1i sub_B2i sub_B3i add_B1i add_B2i add_B3i
       with_B1i with_B2i with_B3i].

Lemma undo_mhd_cell_geometry (k j i : Z) (s : Grid) :
  (dx1 (undo_cell k j i s), dx2 (undo_cell k j i s), dx3 (undo_cell k j i s))
  = (dx1 s, dx2 s, dx3 s).
Proof. mhd_cell_cases; reflexivity. Qed.

Lemma redo_mhd_cell_geometry (k j i : Z) (s : Grid) :
  (dx1 (redo_cell k j i s), dx2 (redo_cell k j i s), dx3 (redo_cell k j i s))
  = (dx1 s, dx2 s, dx3 s).
Proof. mhd_cell_cases; reflexivity. Qed.

Lemma undo_mhd_geometry (s : Grid) :
  (dx1 (undo s), dx2 (undo s), dx3 (undo s)) = (dx1 s, dx2 s, dx3 s).
Proof.
  unfold undo_mhd.
  refine (nest3_invariant _ _ _ _ _ _ _
            (fun s' => (dx1 s', dx2 s', dx3 s') = (dx1 s, dx2 s, dx3 s))
            _ _ eq_refl).
  intros k j i s' _ _ _ Hs; now rewrite undo_mhd_cell_geometry.
Qed.

Lemma redo_mhd_geometry (s : Grid) :
  (dx1 (redo s), dx2 (redo s), dx3 (redo s)) = (dx1 s, dx2 s, dx3 s).
Proof.
  unfold redo_mhd.
  refine (nest3_invariant _ _ _ _ _ _ _
            (fun s' => (dx1 s', dx2 s', dx3 s') = (dx1 s, dx2 s, dx3 s))
            _ _ eq_refl).
  intros k j i s' _ _ _ Hs; now rewrite redo_mhd_cell_geometry.
Qed.

Variables k' j' i' : Z.
Hypothesis Hk : (kb + 2 <= k' <= kt - 1)%Z.
Hypothesis Hj : (jb + 2 <= j' <= jt - 1)%Z.
Hypothesis Hi : (ib + 2 <= i' <= it - 1)%Z.

Ltac other_cell Hne :=
  mhd_cell_cases; unfold arr3_sub, arr3_add;
  rewrite ?arr3_set_neq by exact Hne; reflexivity.

Ltac this_cell :=
  mhd_cell_cases; unfold arr3_sub, arr3_add;
  rewrite ?arr3_set_eq; reflexivity.

(** An interface field of the loop window loses the Step-11 increment
    if it is flagged, and is left alone if not. *)
Lemma undo_mhd_B1i (s : Grid) :
  B1i (undo s) k' j' i'
  = if flag_set Ineg k' j' i' correct_mhd_x1
    then B1i s k' j' i' - ct_B1i g emf2 emf3 k' j' i'
    else B1i s k' j' i'.
Proof.
  unfold undo_mhd.
  apply (nest3_apply (fun k j i s => undo_cell k j i s)
           (fun s => B1i s k' j' i') k' j' i' _ _ _ _ _ _)
    with (F := fun b => if flag_set Ineg k' j' i' correct_mhd_x1
                        then b - ct_B1i g emf2 emf3 k' j' i' else b);
    auto.
  - intros k j i s0 Hne; other_cell Hne.
  - intros s0; this_cell.
Qed.

Lemma undo_mhd_B2i (s : Grid) :
  B2i (undo s) k' j' i'
  = if flag_set Ineg k' j' i' correct_mhd_x2
    then B2i s k' j' i' - ct_B2i g emf1 emf3 k' j' i'
    else B2i s k' j' i'.
Proof.
  unfold undo_mhd.
  apply (nest3_apply (fun k j i s => undo_cell k j i s)
           (fun s => B2i s k' j' i') k' j' i' _ _ _ _ _ _)
    with (F := fun b => if flag_set Ineg k' j' i' correct_mhd_x2
                        then b - ct_B2i g emf1 emf3 k' j' i' else b);
    auto.
  - intros k j i s0 Hne; other_cell Hne.
  - intros s0; this_cell.
Qed.

Lemma undo_mhd_B3i (s : Grid) :
  B3i (undo s) k' j' i'
  = if flag_set Ineg k' j' i' correct_mhd_x3
    then B3i s k' j' i' - ct_B3i g emf1 emf2 k' j' i'
    else B3i s k' j' i'.
Proof.
  unfold undo_mhd.
  apply (nest3_apply (fun k j i s => undo_cell k j i s)
           (fun s => B3i s k' j' i') k' j' i' _ _ _ _ _ _)
    with (F := fun b => if flag_set Ineg k' j' i' correct_mhd_x3
                        then b - ct_B3i g emf1 emf2 k' j' i' else b);
    auto.
  - intros k j i s0 Hne; other_cell Hne.
  - intros s0; this_cell.
Qed.

Lemma redo_mhd_B1i (s : Grid) :
  B1i (redo s) k' j' i'
  = if flag_set Ineg k' j' i' correct_mhd_x1
    then B1i s k' j' i' + ct_B1i g emf2 emf3 k' j' i'
    else B1i s k' j' i'.
Proof.
  unfold redo_mhd.
  apply (nest3_apply (fun k j i s => redo_cell k j i s)
           (fun s => B1i s k' j' i') k' j' i' _ _ _ _ _ _)
    with (F := fun b => if flag_set Ineg k' j' i' correct_mhd_x1
                        then b + ct_B1i g emf2 emf3 k' j' i' else b);
    auto.
  - intros k j i s0 Hne; other_cell Hne.
  - intros s0; this_cell.
Qed.

Lemma redo_mhd_B2i (s : Grid) :
  B2i (redo s) k' j' i'
  = if flag_set Ineg k' j' i' correct_mhd_x2
    then B2i s k' j' i' + ct_B2i g emf1 emf3 k' j' i'
    else B2i s k' j' i'.
Proof.
  unfold redo_mhd.
  apply (nest3_apply (fun k j i s => redo_cell k j i s)
           (fun s => B2i s k' j' i') k' j' i' _ _ _ _ _ _)
    with (F := fun b => if flag_set Ineg k' j' i' correct_mhd_x2
                        then b + ct_B2i g emf1 emf3 k' j' i' else b);
    auto.
  - intros k j i s0 Hne; other_cell Hne.
  - intros s0; this_cell.
Qed.

Lemma redo_mhd_B3i (s : Grid) :
  B3i (redo s) k' j' i'
  = if flag_set Ineg k' j' i' correct_mhd_x3
    then B3i s k' j' i' + ct_B3i g emf1 emf2 k' j' i'
    else B3i s k' j' i'.
Proof.
  unfold redo_mhd.
  apply (nest3_apply (fun k j i s => redo_cell k j i s)
           (fun s => B3i s k' j' i') k' j' i' _ _ _ _ _ _)
    with (F := fun b => if flag_set Ineg k' j' i' correct_mhd_x3
                        then b + ct_B3i g emf1 emf2 k' j' i' else b);
    auto.
  - intros k j i s0 Hne; other_cell Hne.
  - intros s0; this_cell.
Qed.

End MhdFacts.

(** ** The corrected interface fields *)

Section CorrectedField.

Variable nghost : Z.
Variable order : Order.
Variable ISOTHERMAL : bool.
Variable GET_FLUXES : R -> Cons1D -> Cons1D -> Cons1D -> Cons1D.
Variable Uhalf : arr3 Gas.
Variable Bface : Faces.t.
Variable cc : EmfCC.t.
Variable g : Grid.
Variable U : arr3 Gas.
Variable f : FaceWork.t.
Variables emf1 emf2 emf3 : arr3 R.

Local Abbreviation ib := (ib nghost order g).
Local Abbreviation it := (it nghost order g).
Local Abbreviation jb := (jb nghost order g).
Local Abbreviation jt := (jt nghost order g).
Local Abbreviation kb := (kb nghost order g).
Local Abbreviation kt := (kt nghost order g).

Local Abbreviation F2 := (mhd_flags nghost order g U).
Local Abbreviation f' :=
  (first_order_fluxes nghost order ISOTHERMAL GET_FLUXES g F2 Uhalf Bface f).
Local Abbreviation emf1' :=
  (recalc_emf1 nghost order g F2 (FaceWork.x2Flux f') (FaceWork.x3Flux f')
     cc emf1).
Local Abbreviation emf2' :=
  (recalc_emf2 nghost order g F2 (FaceWork.x1Flux f') (FaceWork.x3Flux f')
     cc emf2).
Local Abbreviation emf3' :=
  (recalc_emf3 nghost order g F2 (FaceWork.x1Flux f') (FaceWork.x2Flux f')
     cc emf3).
Local Abbreviation g' :=
  (redo_mhd nghost order g F2 emf1' emf2' emf3'
     (undo_mhd nghost order g F2 emf1 emf2 emf3 g)).

(** On entry the corner arrays hold the corner EMFs of the fluxes, as the
    three [integrate_emf*_corner] of Step 11 left them. *)
Hypothesis emf1_entry : forall k j i,
  (kb + 2 <= k <= kt)%Z -> (jb + 2 <= j <= jt)%Z -> (ib + 2 <= i <= it - 1)%Z ->
  emf1 k j i
  = emf1_corner (FaceWork.x2Flux f) (FaceWork.x3Flux f) (EmfCC.emf1_cc cc) k j i.
Hypothesis emf2_entry : forall k j i,
  (kb + 2 <= k <= kt)%Z -> (jb + 2 <= j <= jt - 1)%Z -> (ib + 2 <= i <= it)%Z ->
  emf2 k j i
  = emf2_corner (FaceWork.x1Flux f) (FaceWork.x3Flux f) (EmfCC.emf2_cc cc) k j i.
Hypothesis emf3_entry : forall k j i,
  (kb + 2 <= k <= kt - 1)%Z -> (jb + 2 <= j <= jt)%Z -> (ib + 2 <= i <= it)%Z ->
  emf3 k j i
  = emf3_corner (FaceWork.x1Flux f) (FaceWork.x2Flux f) (EmfCC.emf3_cc cc) k j i.

(** A corner EMF changes only where all four face fields around the edge
    are flagged. *)
Lemma emf1_kept_or_flagged (k j i : Z) :
  emf1' k j i = emf1 k j i
  \/ (Z.testbit (F2 k j i) 4 = true /\ Z.testbit (F2 (k - 1)%Z j i) 4 = true
      /\ Z.testbit (F2 k j i) 5 = true /\ Z.testbit (F2 k (j - 1)%Z i) 5 = true).
Proof.
  destruct (recalc_emf1_cases nghost order g F2 (FaceWork.x2Flux f')
              (FaceWork.x3Flux f') cc emf1 k j i) as [H|(Hk & Hj & Hi & H)];
    [left; exact H|].
  destruct (Z.testbit (F2 k j i) 1) eqn:A1;
    [right; apply closure_emf1; auto|].
  destruct (Z.testbit (F2 (k - 1)%Z j i) 1) eqn:A2;
    [right; apply closure_emf1; auto|].
  destruct (Z.testbit (F2 k j i) 2) eqn:A3;
    [right; apply closure_emf1; auto|].
  destruct (Z.testbit (F2 k (j - 1)%Z i) 2) eqn:A4;
    [right; apply closure_emf1; auto 6|].
  left; rewrite H, emf1_entry by assumption.
  apply emf1_corner_ext;
    first [ apply first_order_fluxes_x2_keep; rewrite flag_set_hydro_x2
          | apply first_order_fluxes_x3_keep; rewrite flag_set_hydro_x3 ];
    assumption.
Qed.

Lemma emf2_kept_or_flagged (k j i : Z) :
  emf2' k j i = emf2 k j i
  \/ (Z.testbit (F2 k j i) 3 = true /\ Z.testbit (F2 (k - 1)%Z j i) 3 = true
      /\ Z.testbit (F2 k j i) 5 = true /\ Z.testbit (F2 k j (i - 1)%Z) 5 = true).
Proof.
  destruct (recalc_emf2_cases nghost order g F2 (FaceWork.x1Flux f')
              (FaceWork.x3Flux f') cc emf2 k j i) as [H|(Hk & Hj & Hi & H)];
    [left; exact H|].
  destruct (Z.testbit (F2 k j i) 0) eqn:A1;
    [right; apply closure_emf2; auto|].
  destruct (Z.testbit (F2 (k - 1)%Z j i) 0) eqn:A2;
    [right; apply closure_emf2; auto|].
  destruct (Z.testbit (F2 k j i) 2) eqn:A3;
    [right; apply closure_emf2; auto|].
  destruct (Z.testbit (F2 k j (i - 1)%Z) 2) eqn:A4;
    [right; apply closure_emf2; auto 6|].
  left; rewrite H, emf2_entry by assumption.
  apply emf2_corner_ext;
    first [ apply first_order_fluxes_x1_keep; rewrite flag_set_hydro_x1
          | apply first_order_fluxes_x3_keep; rewrite flag_set_hydro_x3 ];
    assumption.
Qed.

Lemma emf3_kept_or_flagged (k j i : Z) :
  emf3' k j i = emf3 k j i
  \/ (Z.testbit (F2 k j i) 3 = true /\ Z.testbit (F2 k (j - 1)%Z i) 3 = true
      /\ Z.testbit (F2 k j i) 4 = true /\ Z.testbit (F2 k j (i - 1)%Z) 4 = true).
Proof.
  destruct (recalc_emf3_cases nghost order g F2 (FaceWork.x1Flux f')
              (FaceWork.x2Flux f') cc emf3 k j i) as [H|(Hk & Hj & Hi & H)];
    [left; exact H|].
  destruct (Z.testbit (F2 k j i) 0) eqn:A1;
    [right; apply closure_emf3; auto|].
  destruct (Z.testbit (F2 k (j - 1)%Z i) 0) eqn:A2;
    [right; apply closure_emf3; auto|].
  destruct (Z.testbit (F2 k j i) 1) eqn:A3;
    [right; apply closure_emf3; auto|].
  destruct (Z.testbit (F2 k j (i - 1)%Z) 1) eqn:A4;
    [right; apply closure_emf3; auto 6|].
  left; rewrite H, emf3_entry by assumption.
  apply emf3_corner_ext;
    first [ apply first_order_fluxes_x1_keep; rewrite flag_set_hydro_x1
          | apply first_order_fluxes_x2_keep; rewrite flag_set_hydro_x2 ];
    assumption.
Qed.

Section Face.

Variables k j i : Z.
Hypothesis Hk : (kb + 2 <= k <= kt - 1)%Z.
Hypothesis Hj : (jb + 2 <= j <= jt - 1)%Z.
Hypothesis Hi : (ib + 2 <= i <= it - 1)%Z.

(** Flagged or not, an interface field of the loop window ends up with
    the CT increment of the recomputed EMFs in place of the one of the
    EMFs on entry. *)
Lemma B1i_corrected :
  B1i g' k j i
  = B1i g k j i - ct_B1i g emf2 emf3 k j i + ct_B1i g emf2' emf3' k j i.
Proof.
  rewrite redo_mhd_B1i, undo_mhd_B1i by assumption.
  rewrite flag_set_mhd_x1.
  destruct (Z.testbit (F2 k j i) 3) eqn:E; [ring|].
  assert (Hct : ct_B1i g emf2' emf3' k j i = ct_B1i g emf2 emf3 k j i).
  { unfold ct_B1i.
    destruct (emf2_kept_or_flagged (k + 1) j i) as [->|(_ & H & _)];
      [|replace (k + 1 - 1)%Z with k in H by lia; congruence].
    destruct (emf2_kept_or_flagged k j i) as [->|(H & _)]; [|congruence].
    destruct (emf3_kept_or_flagged k (j + 1) i) as [->|(_ & H & _)];
      [|replace (j + 1 - 1)%Z with j in H by lia; congruence].
    destruct (emf3_kept_or_flagged k j i) as [->|(H & _)]; [|congruence].
    reflexivity. }
  rewrite Hct; ring.
Qed.

Lemma B2i_corrected :
  B2i g' k j i
  = B2i g k j i - ct_B2i g emf1 emf3 k j i + ct_B2i g emf1' emf3' k j i.
Proof.
  rewrite redo_mhd_B2i, undo_mhd_B2i by assumption.
  rewrite flag_set_mhd_x2.
  destruct (Z.testbit (F2 k j i) 4) eqn:E; [ring|].
  assert (Hct : ct_B2i g emf1' emf3' k j i = ct_B2i g emf1 emf3 k j i).
  { unfold ct_B2i.
    destruct (emf3_kept_or_flagged k j (i + 1)) as [->|(_ & _ & _ & H)];
      [|replace (i + 1 - 1)%Z with i in H by lia; congruence].
    destruct (emf3_kept_or_flagged k j i) as [->|(_ & _ & H & _)];
      [|congruence].
    destruct (emf1_kept_or_flagged (k + 1) j i) as [->|(_ & H & _)];
      [|replace (k + 1 - 1)%Z with k in H by lia; congruence].
    destruct (emf1_kept_or_flagged k j i) as [->|(H & _)]; [|congruence].
    reflexivity. }
  rewrite Hct; ring.
Qed.

Lemma B3i_corrected :
  B3i g' k j i
  = B3i g k j i - ct_B3i g emf1 emf2 k j i + ct_B3i g emf1' emf2' k j i.
Proof.
  rewrite redo_mhd_B3i, undo_mhd_B3i by assumption.
  rewrite flag_set_mhd_x3.
  destruct (Z.testbit (F2 k j i) 5) eqn:E; [ring|].
  assert (Hct : ct_B3i g emf1' emf2' k j i = ct_B3i g emf1 emf2 k j i).
  { unfold ct_B3i.
    destruct (emf1_kept_or_flagged k (j + 1) i) as [->|(_ & _ & _ & H)];
      [|replace (j + 1 - 1)%Z with j in H by lia; congruence].
    destruct (emf1_kept_or_flagged k j i) as [->|(_ & _ & H & _)];
      [|congruence].
    destruct (emf2_kept_or_flagged k j (i + 1)) as [->|(_ & _ & _ & H)];
      [|replace (i + 1 - 1)%Z with i in H by lia; congruence].
    destruct (emf2_kept_or_flagged k j i) as [->|(_ & _ & H & _)];
      [|congruence].
    reflexivity. }
  rewrite Hct; ring.
Qed.

End Face.

Lemma corrected_geometry :
  dx1 g' = dx1 g /\ dx2 g' = dx2 g /\ dx3 g' = dx3 g.
Proof.
  pose proof (redo_mhd_geometry nghost order g F2 emf1' emf2' emf3'
                (undo_mhd nghost order g F2 emf1 emf2 emf3 g)) as H1.
  pose proof (undo_mhd_geometry nghost order g F2 emf1 emf2 emf3 g) as H2.
  rewrite H2 in H1; inversion H1; auto.
Qed.

(** The divergence over a cell whose six faces lie in the loop window. *)
Lemma corrected_divB (k j i : Z) :
  (kb + 2 <= k <= kt - 2)%Z -> (jb + 2 <= j <= jt - 2)%Z ->
  (ib + 2 <= i <= it - 2)%Z ->
  divB g' k j i = divB g k j i.
Proof.
  intros Hk Hj Hi; unfold divB.
  destruct corrected_geometry as (-> & -> & ->).
  rewrite !B1i_corrected, !B2i_corrected, !B3i_corrected by lia.
  unfold ct_B1i, ct_B2i, ct_B3i, dtodx1, dtodx2, dtodx3, Rdiv.
  ring.
Qed.

End CorrectedField.

(** ** The corrected cells *)

Section HydroFacts.

Variable nghost : Z.
Variable order : Order.
Variable ISOTHERMAL : bool.
Variable g : Grid.
Variable Ineg : arr3 Z.
Variables F1 F2 F3 F1' F2' F3' : arr3 Cons1D.

Hypothesis keep1 : forall k j i,
  flag_set Ineg k j i correct_hydro_x1 = false -> F1' k j i = F1 k j i.
Hypothesis keep2 : forall k j i,
  flag_set Ineg k j i correct_hydro_x2 = false -> F2' k j i = F2 k j i.
Hypothesis keep3 : forall k j i,
  flag_set Ineg k j i correct_hydro_x3 = false -> F3' k j i = F3 k j i.

Local Abbreviation undo_cell := (undo_hydro_cell ISOTHERMAL g Ineg F1 F2 F3).
Local Abbreviation redo_cell := (redo_hydro_cell ISOTHERMAL g Ineg F1' F2' F3').

(** Undone with the fluxes on entry and redone with the recomputed ones,
    a cell has undergone the flux differences of Steps 13a to 13c with the
    change of the fluxes. *)
Lemma corrected_cell (k j i : Z) (u : Gas) :
  let u' := redo_cell k j i (undo_cell k j i u) in
  let c1 q := flux_change F1 F1' q k j i k j (i + 1)%Z in
  let c2 q := flux_change F2 F2' q k j i k (j + 1)%Z i in
  let c3 q := flux_change F3 F3' q k j i (k + 1)%Z j i in
  Gas.d u' = Gas.d u - dtodx1 g * c1 Cons1D.d - dtodx2 g * c2 Cons1D.d
             - dtodx3 g * c3 Cons1D.d
  /\ Gas.M1 u' = Gas.M1 u - dtodx1 g * c1 Cons1D.Mx - dtodx2 g * c2 Cons1D.Mz
                 - dtodx3 g * c3 Cons1D.My
  /\ Gas.M2 u' = Gas.M2 u - dtodx1 g * c1 Cons1D.My - dtodx2 g * c2 Cons1D.Mx
                 - dtodx3 g * c3 Cons1D.Mz
  /\ Gas.M3 u' = Gas.M3 u - dtodx1 g * c1 Cons1D.Mz - dtodx2 g * c2 Cons1D.My
                 - dtodx3 g * c3 Cons1D.Mx
  /\ Gas.E u' = (if ISOTHERMAL then Gas.E u
                 else Gas.E u - dtodx1 g * c1 Cons1D.E - dtodx2 g * c2 Cons1D.E
                      - dtodx3 g * c3 Cons1D.E)
  /\ Gas.s u' = Gas.s u.
Proof.
  cbv zeta; unfold flux_change, undo_hydro_cell, redo_hydro_cell.
  destruct (flag_set Ineg k j i correct_hydro_x1) eqn:A1;
    destruct (flag_set Ineg k j (i + 1)%Z correct_hydro_x1) eqn:A2;
    destruct (flag_set Ineg k j i correct_hydro_x2) eqn:A3;
    destruct (flag_set Ineg k (j + 1)%Z i correct_hydro_x2) eqn:A4;
    destruct (flag_set Ineg k j i correct_hydro_x3) eqn:A5;
    destruct (flag_set Ineg (k + 1)%Z j i correct_hydro_x3) eqn:A6;
    try rewrite (keep1 _ _ _ A1); try rewrite (keep1 _ _ _ A2);
    try rewrite (keep2 _ _ _ A3); try rewrite (keep2 _ _ _ A4);
    try rewrite (keep3 _ _ _ A5); try rewrite (keep3 _ _ _ A6);
    destruct ISOTHERMAL; cbn; repeat split; ring.
Qed.

Local Abbreviation ib := (ib nghost order g).
Local Abbreviation it := (it nghost order g).
Local Abbreviation jb := (jb nghost order g).
Local Abbreviation jt := (jt nghost order g).
Local Abbreviation kb := (kb nghost order g).
Local Abbreviation kt := (kt nghost order g).

Local Abbreviation undo := (undo_hydro nghost order ISOTHERMAL g Ineg F1 F2 F3).
Local Abbreviation redo :=
  (redo_hydro nghost order ISOTHERMAL g Ineg F1' F2' F3').

Lemma corrected_in (U : arr3 Gas) (k j i : Z) :
  (kb + 2 <= k <= kt - 2)%Z -> (jb + 2 <= j <= jt - 2)%Z ->
  (ib + 2 <= i <= it - 2)%Z ->
  redo (undo U) k j i = redo_cell k j i (undo_cell k j i (U k j i)).
Proof.
  intros Hk Hj Hi; unfold redo_hydro, undo_hydro.
  rewrite (cell_nest_in (fun k j i u => redo_cell k j i u)) by assumption.
  rewrite (cell_nest_in (fun k j i u => undo_cell k j i u)) by assumption.
  reflexivity.
Qed.

Lemma corrected_out (U : arr3 Gas) (k j i : Z) :
  ~ ((kb + 2 <= k <= kt - 2)%Z /\ (jb + 2 <= j <= jt - 2)%Z
     /\ (ib + 2 <= i <= it - 2)%Z) ->
  redo (undo U) k j i = U k j i.
Proof.
  intros Hout; unfold redo_hydro, undo_hydro.
  rewrite (cell_nest_out (fun k j i u => redo_cell k j i u)) by assumption.
  now rewrite (cell_nest_out (fun k j i u => undo_cell k j i u)).
Qed.

End HydroFacts.

(** ** The final check *)

Section CountNegative.

Variable g : Grid.
Variable U : arr3 Gas.



End CountNegative.

(** ** [first_order_correction] as a whole *)


(** X20.  Where no visited cell has a non-positive density,
    [first_order_correction] changes nothing: it returns with the grid,
    the cells, the fluxes and the corner EMFs as they were, and with
    [Ineg] cleared. *)
Theorem first_order_correction_inert
    (nghost : Z) (order : Order) (MHD ISOTHERMAL : bool)
    (GET_FLUXES : R -> Cons1D -> Cons1D -> Cons1D -> Cons1D)
    (Uhalf : arr3 Gas) (Bface : Faces.t) (cc : EmfCC.t) (w : Work.t) :
  let g := Work.grid w in
  (forall k j i,
     (kb nghost order g + 1 <= k <= kt nghost order g - 1)%Z ->
     (jb nghost order g + 1 <= j <= jt nghost order g - 1)%Z ->
     (ib nghost order g + 1 <= i <= it nghost order g - 1)%Z ->
     0 < Gas.d (Work.U w k j i)) ->
  first_order_correction nghost order MHD ISOTHERMAL GET_FLUXES Uhalf Bface cc w
  = Foc_return (Work.mk g (Work.U w) (fun _ _ _ => 0%Z) (Work.faces w)
                  (Work.emf1 w) (Work.emf2 w) (Work.emf3 w)).
Proof.
  intros g Hpos; unfold first_order_correction.
  rewrite flag_negative_healthy; [reflexivity|].
  intros k j i (Hk & Hj & Hi & Hd).
  specialize (Hpos k j i Hk Hj Hi); fold g in Hd; lra.
Qed.


Section Corrected.

Variable nghost : Z.
Variable order : Order.
Variable MHD ISOTHERMAL : bool.
Variable GET_FLUXES : R -> Cons1D -> Cons1D -> Cons1D -> Cons1D.
Variable Uhalf : arr3 Gas.
Variable Bface : Faces.t.
Variable cc : EmfCC.t.
Variable w : Work.t.

Local Abbreviation g := (Work.grid w).
Local Abbreviation w' :=
  (foc_state (first_order_correction nghost order MHD ISOTHERMAL GET_FLUXES
                Uhalf Bface cc w)).

Local Abbreviation ib := (ib nghost order g).
Local Abbreviation it := (it nghost order g).
Local Abbreviation jb := (jb nghost order g).
Local Abbreviation jt := (jt nghost order g).
Local Abbreviation kb := (kb nghost order g).
Local Abbreviation kt := (kt nghost order g).

(** What the function leaves in the cells and in the fluxes, in the form
    used below. *)
Lemma corrected_cells_shape :
  exists Ineg,
    (forall k j i, flag_set Ineg k j i correct_hydro_x1 = false ->
       FaceWork.x1Flux (Work.faces w') k j i
       = FaceWork.x1Flux (Work.faces w) k j i)
    /\ (forall k j i, flag_set Ineg k j i correct_hydro_x2 = false ->
       FaceWork.x2Flux (Work.faces w') k j i
       = FaceWork.x2Flux (Work.faces w) k j i)
    /\ (forall k j i, flag_set Ineg k j i correct_hydro_x3 = false ->
       FaceWork.x3Flux (Work.faces w') k j i
       = FaceWork.x3Flux (Work.faces w) k j i)
    /\ (forall k j i,
          Work.U w' k j i
          = redo_hydro nghost order ISOTHERMAL g Ineg
              (FaceWork.x1Flux (Work.faces w'))
              (FaceWork.x2Flux (Work.faces w'))
              (FaceWork.x3Flux (Work.faces w'))
              (undo_hydro nghost order ISOTHERMAL g Ineg
                 (FaceWork.x1Flux (Work.faces w))
                 (FaceWork.x2Flux (Work.faces w))
                 (FaceWork.x3Flux (Work.faces w)) (Work.U w)) k j i).
Proof.
  unfold first_order_correction.
  destruct (flag_negative nghost order g (Work.U w)) as [Ineg negcount] eqn:E.
  destruct (negcount >? 0)%Z eqn:N.
  - match goal with
    | |- context [if (count_negative g ?u >? 0)%Z then _ else _] =>
        destruct (count_negative g u >? 0)%Z
    end;
      cbn [foc_state Work.faces Work.U];
      exists (if MHD then flag_mhd nghost order g Ineg else Ineg);
      (split; [intros k j i Hf; now apply first_order_fluxes_x1_keep|]);
      (split; [intros k j i Hf; now apply first_order_fluxes_x2_keep|]);
      (split; [intros k j i Hf; now apply first_order_fluxes_x3_keep|]);
      reflexivity.
  - cbn [foc_state Work.faces Work.U].
    exists (fun _ _ _ => 0%Z).
    repeat split; try reflexivity.
    intros k j i.
    assert (Hdec : ((kb + 2 <= k <= kt - 2)%Z /\ (jb + 2 <= j <= jt - 2)%Z
                    /\ (ib + 2 <= i <= it - 2)%Z)
                   \/ ~ ((kb + 2 <= k <= kt - 2)%Z /\ (jb + 2 <= j <= jt - 2)%Z
                         /\ (ib + 2 <= i <= it - 2)%Z)) by lia.
    destruct Hdec as [(Hk & Hj & Hi)|Hout].
    + now rewrite corrected_in.
    + now rewrite corrected_out.
Qed.

(** The cells of the correction window in flux form. *)
Lemma corrected_flux_form (k j i : Z) :
  (kb + 2 <= k <= kt - 2)%Z -> (jb + 2 <= j <= jt - 2)%Z ->
  (ib + 2 <= i <= it - 2)%Z ->
  let u := Work.U w k j i in
  let u' := Work.U w' k j i in
  let c1 q := flux_change (FaceWork.x1Flux (Work.faces w))
                (FaceWork.x1Flux (Work.faces w')) q k j i k j (i + 1)%Z in
  let c2 q := flux_change (FaceWork.x2Flux (Work.faces w))
                (FaceWork.x2Flux (Work.faces w')) q k j i k (j + 1)%Z i in
  let c3 q := flux_change (FaceWork.x3Flux (Work.faces w))
                (FaceWork.x3Flux (Work.faces w')) q k j i (k + 1)%Z j i in
  Gas.d u' = Gas.d u - dtodx1 g * c1 Cons1D.d - dtodx2 g * c2 Cons1D.d
             - dtodx3 g * c3 Cons1D.d
  /\ Gas.M1 u' = Gas.M1 u - dtodx1 g * c1 Cons1D.Mx - dtodx2 g * c2 Cons1D.Mz
                 - dtodx3 g * c3 Cons1D.My
  /\ Gas.M2 u' = Gas.M2 u - dtodx1 g * c1 Cons1D.My - dtodx2 g * c2 Cons1D.Mx
                 - dtodx3 g * c3 Cons1D.Mz
  /\ Gas.M3 u' = Gas.M3 u - dtodx1 g * c1 Cons1D.Mz - dtodx2 g * c2 Cons1D.My
                 - dtodx3 g * c3 Cons1D.Mx
  /\ Gas.E u' = (if ISOTHERMAL then Gas.E u
                 else Gas.E u - dtodx1 g * c1 Cons1D.E - dtodx2 g * c2 Cons1D.E
                      - dtodx3 g * c3 Cons1D.E)
  /\ Gas.s u' = Gas.s u.
Proof.
  intros Hk Hj Hi.
  destruct corrected_cells_shape as (Ineg & K1 & K2 & K3 & HU).
  cbv zeta; rewrite HU, corrected_in by assumption.
  now apply corrected_cell.
Qed.

Lemma corrected_outside (k j i : Z) :
  ~ ((kb + 2 <= k <= kt - 2)%Z /\ (jb + 2 <= j <= jt - 2)%Z
     /\ (ib + 2 <= i <= it - 2)%Z) ->
  Work.U w' k j i = Work.U w k j i.
Proof.
  intros Hout.
  destruct corrected_cells_shape as (Ineg & K1 & K2 & K3 & HU).
  now rewrite HU, corrected_out.
Qed.

End Corrected.

(** X22.  The hydro part of [first_order_correction] in flux form: in
    every cell of the correction window ([kb+2..kt-2], [jb+2..jt-2],
    [ib+2..it-2]) the density, the three momenta and (unless
    [ISOTHERMAL]) the energy end up changed by the flux differences of
    Steps 13a to 13c taken with the change of the fluxes, recomputed
    minus on entry, so that the cell holds what Step 13 would have given
    with the fluxes the function leaves; the passive scalars are not
    corrected; a cell outside the window is left as it was. *)
Theorem first_order_correction_flux_form
    (nghost : Z) (order : Order) (MHD ISOTHERMAL : bool)
    (GET_FLUXES : R -> Cons1D -> Cons1D -> Cons1D -> Cons1D)
    (Uhalf : arr3 Gas) (Bface : Faces.t) (cc : EmfCC.t) (w : Work.t)
    (k j i : Z) :
  let g := Work.grid w in
  let w' := foc_state (first_order_correction nghost order MHD ISOTHERMAL
                         GET_FLUXES Uhalf Bface cc w) in
  let inside :=
    (kb nghost order g + 2 <= k <= kt nghost order g - 2)%Z
    /\ (jb nghost order g + 2 <= j <= jt nghost order g - 2)%Z
    /\ (ib nghost order g + 2 <= i <= it nghost order g - 2)%Z in
  let u := Work.U w k j i in
  let u' := Work.U w' k j i in
  let c1 q := flux_change (FaceWork.x1Flux (Work.faces w))
                (FaceWork.x1Flux (Work.faces w')) q k j i k j (i + 1)%Z in
  let c2 q := flux_change (FaceWork.x2Flux (Work.faces w))
                (FaceWork.x2Flux (Work.faces w')) q k j i k (j + 1)%Z i in
  let c3 q := flux_change (FaceWork.x3Flux (Work.faces w))
                (FaceWork.x3Flux (Work.faces w')) q k j i (k + 1)%Z j i in
  (inside ->
   Gas.d u' = Gas.d u - dtodx1 g * c1 Cons1D.d - dtodx2 g * c2 Cons1D.d
              - dtodx3 g * c3 Cons1D.d
   /\ Gas.M1 u' = Gas.M1 u - dtodx1 g * c1 Cons1D.Mx - dtodx2 g * c2 Cons1D.Mz
                  - dtodx3 g * c3 Cons1D.My
   /\ Gas.M2 u' = Gas.M2 u - dtodx1 g * c1 Cons1D.My - dtodx2 g * c2 Cons1D.Mx
                  - dtodx3 g * c3 Cons1D.Mz
   /\ Gas.M3 u' = Gas.M3 u - dtodx1 g * c1 Cons1D.Mz - dtodx2 g * c2 Cons1D.My
                  - dtodx3 g * c3 Cons1D.Mx
   /\ Gas.E u' = (if ISOTHERMAL then Gas.E u
                  else Gas.E u - dtodx1 g * c1 Cons1D.E - dtodx2 g * c2 Cons1D.E
                       - dtodx3 g * c3 Cons1D.E)
   /\ Gas.s u' = Gas.s u)
  /\ (~ inside -> u' = u).
Proof.
  cbv zeta; split.
  - intros (Hk & Hj & Hi).
    now apply (corrected_flux_form nghost order MHD ISOTHERMAL GET_FLUXES
                 Uhalf Bface cc w k j i).
  - intros Hout.
    now apply (corrected_outside nghost order MHD ISOTHERMAL GET_FLUXES
                 Uhalf Bface cc w k j i).
Qed.

(** X23.  [first_order_correction] conserves mass: the total density over
    the correction window changes by the change of the mass fluxes
    through the six sides of the window only; the changes of the fluxes
    through the interior faces, flagged or not, cancel. *)
Theorem first_order_correction_conserves_mass
    (nghost : Z) (order : Order) (MHD ISOTHERMAL : bool)
    (GET_FLUXES : R -> Cons1D -> Cons1D -> Cons1D -> Cons1D)
    (Uhalf : arr3 Gas) (Bface : Faces.t) (cc : EmfCC.t) (w : Work.t) :
  let g := Work.grid w in
  let w' := foc_state (first_order_correction nghost order MHD ISOTHERMAL
                         GET_FLUXES Uhalf Bface cc w) in
  let klo := (kb nghost order g + 2)%Z in
  let khi := (kt nghost order g - 2)%Z in
  let jlo := (jb nghost order g + 2)%Z in
  let jhi := (jt nghost order g - 2)%Z in
  let ilo := (ib nghost order g + 2)%Z in
  let ihi := (it nghost order g - 2)%Z in
  let dF1 k j i := Cons1D.d (FaceWork.x1Flux (Work.faces w') k j i)
                   - Cons1D.d (FaceWork.x1Flux (Work.faces w) k j i) in
  let dF2 k j i := Cons1D.d (FaceWork.x2Flux (Work.faces w') k j i)
                   - Cons1D.d (FaceWork.x2Flux (Work.faces w) k j i) in
  let dF3 k j i := Cons1D.d (FaceWork.x3Flux (Work.faces w') k j i)
                   - Cons1D.d (FaceWork.x3Flux (Work.faces w) k j i) in
  (klo <= khi + 1)%Z -> (jlo <= jhi + 1)%Z -> (ilo <= ihi + 1)%Z ->
  box_total klo khi jlo jhi ilo ihi (fun k j i => Gas.d (Work.U w' k j i))
  = box_total klo khi jlo jhi ilo ihi (fun k j i => Gas.d (Work.U w k j i))
    - dtodx1 g * box_side_x1 klo khi jlo jhi ilo ihi dF1
    - dtodx2 g * box_side_x2 klo khi jlo jhi ilo ihi dF2
    - dtodx3 g * box_side_x3 klo khi jlo jhi ilo ihi dF3.
Proof.
  intros g w' klo khi jlo jhi ilo ihi dF1 dF2 dF3 Hk Hj Hi.
  unfold box_total, box_side_x1, box_side_x2, box_side_x3.
  apply (flux_form_total klo khi jlo jhi ilo ihi
           (dtodx1 g) (dtodx2 g) (dtodx3 g)
           (fun k j i => Gas.d (Work.U w k j i))
           (fun k j i => Gas.d (Work.U w' k j i)) dF1 dF2 dF3);
    try assumption.
  intros k j i Hk' Hj' Hi'.
  destruct (corrected_flux_form nghost order MHD ISOTHERMAL GET_FLUXES
              Uhalf Bface cc w k j i Hk' Hj' Hi') as (Hd & _).
  cbv beta; subst w' dF1 dF2 dF3 g; cbv beta.
  rewrite Hd; unfold flux_change; ring.
Qed.

(** X24.  The MHD part of [first_order_correction] keeps the divergence
    of the interface field.  With [MHD] defined and the corner arrays
    holding, on entry, the corner EMFs of the fluxes on entry (as the
    three [integrate_emf*_corner] of Step 11 leave them), the discrete
    divergence over every cell of the correction window is after the
    function what it was before, whatever the Riemann solver returns:
    a corner EMF is recomputed with changed fluxes only where all four
    face fields around the edge are flagged and so take the new value. *)
Theorem first_order_correction_preserves_divB
    (nghost : Z) (order : Order) (ISOTHERMAL : bool)
    (GET_FLUXES : R -> Cons1D -> Cons1D -> Cons1D -> Cons1D)
    (Uhalf : arr3 Gas) (Bface : Faces.t) (cc : EmfCC.t) (w : Work.t)
    (k j i : Z) :
  let g := Work.grid w in
  let f := Work.faces w in
  let kb := kb nghost order g in
  let kt := kt nghost order g in
  let jb := jb nghost order g in
  let jt := jt nghost order g in
  let ib := ib nghost order g in
  let it := it nghost order g in
  (forall k j i,
     (kb + 2 <= k <= kt)%Z -> (jb + 2 <= j <= jt)%Z ->
     (ib + 2 <= i <= it - 1)%Z ->
     Work.emf1 w k j i
     = emf1_corner (FaceWork.x2Flux f) (FaceWork.x3Flux f)
         (EmfCC.emf1_cc cc) k j i) ->
  (forall k j i,
     (kb + 2 <= k <= kt)%Z -> (jb + 2 <= j <= jt - 1)%Z ->
     (ib + 2 <= i <= it)%Z ->
     Work.emf2 w k j i
     = emf2_corner (FaceWork.x1Flux f) (FaceWork.x3Flux f)
         (EmfCC.emf2_cc cc) k j i) ->
  (forall k j i,
     (kb + 2 <= k <= kt - 1)%Z -> (jb + 2 <= j <= jt)%Z ->
     (ib + 2 <= i <= it)%Z ->
     Work.emf3 w k j i
     = emf3_corner (FaceWork.x1Flux f) (FaceWork.x2Flux f)
         (EmfCC.emf3_cc cc) k j i) ->
  (kb + 2 <= k <= kt - 2)%Z -> (jb + 2 <= j <= jt - 2)%Z ->
  (ib + 2 <= i <= it - 2)%Z ->
  divB (Work.grid (foc_state (first_order_correction nghost order true
                                ISOTHERMAL GET_FLUXES Uhalf Bface cc w))) k j i
  = divB g k j i.
Proof.
  intros g f kb kt jb jt ib it H1 H2 H3 Hk Hj Hi.
  unfold first_order_correction; fold g.
  destruct (flag_negative nghost order g (Work.U w)) as [Ineg negcount] eqn:E.
  assert (HI : Ineg = fst (flag_negative nghost order g (Work.U w)))
    by (rewrite E; reflexivity).
  destruct (negcount >? 0)%Z; [|reflexivity].
  match goal with
  | |- context [if (count_negative g ?u >? 0)%Z then _ else _] =>
      destruct (count_negative g u >? 0)%Z
  end;
    cbn [foc_state Work.grid]; rewrite HI;
    apply (corrected_divB nghost order ISOTHERMAL GET_FLUXES Uhalf Bface cc g
             (Work.U w) f (Work.emf1 w) (Work.emf2 w) (Work.emf3 w)
             H1 H2 H3 k j i Hk Hj Hi).
Qed.

(** A block with [is = js = ks = 4], [ie = je = ke = 7], four ghost zones
    and second-order reconstruction; unit density everywhere. *)
Lemma first_order_correction_inert_witness :
  let g := mkGrid 4 7 4 7 4 7 1 1 2 4
             (fun k j i => IZR i) (fun k j i => IZR (k * j))
             (fun k j i => IZR (i - k)) in
  let U : arr3 Gas := fun k j i => Gas.mk 1 0 0 0 1 0 0 0 [] in
  let F : arr3 Cons1D :=
    fun k j i => Cons1D.mk (IZR i) 0 0 0 0 (IZR j) (IZR k) [] in
  let z : arr3 R := fun k j i => 0 in
  let w := Work.mk g U (fun k j i => 1%Z) (FaceWork.mk F F F F F F F F F)
             z z z in
  let GET : R -> Cons1D -> Cons1D -> Cons1D -> Cons1D :=
    fun Bx Ul Ur Fl => Ul in
  first_order_correction 4 SECOND_ORDER true false GET U
    (Faces.mk z z z) (EmfCC.mk z z z) w
  = Foc_return (Work.mk g U (fun _ _ _ => 0%Z) (FaceWork.mk F F F F F F F F F)
                  z z z).
Proof.
  intros g U F z w GET.
  assert (Hpos : forall k j i,
            (kb 4 SECOND_ORDER g + 1 <= k <= kt 4 SECOND_ORDER g - 1)%Z ->
            (jb 4 SECOND_ORDER g + 1 <= j <= jt 4 SECOND_ORDER g - 1)%Z ->
            (ib 4 SECOND_ORDER g + 1 <= i <= it 4 SECOND_ORDER g - 1)%Z ->
            0 < Gas.d (Work.U w k j i))
    by (intros k j i _ _ _; simpl; lra).
  exact (first_order_correction_inert 4 SECOND_ORDER true false GET U
           (Faces.mk z z z) (EmfCC.mk z z z) w Hpos).
Defined.


Lemma first_order_correction_flux_form_witness :
  let g := mkGrid 4 7 4 7 4 7 1 1 2 4
             (fun k j i => IZR i) (fun k j i => IZR (k * j))
             (fun k j i => IZR (i - k)) in
  let U : arr3 Gas :=
    fun k j i =>
      Gas.mk (if ((k =? 5) && (j =? 5) && (i =? 5))%Z then -1 else 1)
             0 0 0 1 0 0 0 [] in
  let F : arr3 Cons1D :=
    fun k j i => Cons1D.mk (IZR i) 0 0 0 0 (IZR j) (IZR k) [] in
  let z : arr3 R := fun k j i => 0 in
  let w := Work.mk g U (fun k j i => 0%Z) (FaceWork.mk F F F F F F F F F)
             z z z in
  let GET : R -> Cons1D -> Cons1D -> Cons1D -> Cons1D :=
    fun Bx Ul Ur Fl => Ul in
  let w' := foc_state (first_order_correction 4 SECOND_ORDER true false GET U
                         (Faces.mk z z z) (EmfCC.mk z z z) w) in
  Gas.s (Work.U w' 5%Z 5%Z 5%Z) = Gas.s (Work.U w 5%Z 5%Z 5%Z).
Proof.
  intros g U F z w GET w'.
  assert (Hin : (kb 4 SECOND_ORDER g + 2 <= 5 <= kt 4 SECOND_ORDER g - 2)%Z
                /\ (jb 4 SECOND_ORDER g + 2 <= 5 <= jt 4 SECOND_ORDER g - 2)%Z
                /\ (ib 4 SECOND_ORDER g + 2 <= 5 <= it 4 SECOND_ORDER g - 2)%Z)
    by (vm_compute; repeat split; discriminate).
  exact (proj2 (proj2 (proj2 (proj2 (proj2
           (proj1 (first_order_correction_flux_form 4 SECOND_ORDER true false
                     GET U (Faces.mk z z z) (EmfCC.mk z z z) w 5 5 5)
              Hin)))))).
Defined.

Lemma first_order_correction_conserves_mass_witness :
  let g := mkGrid 4 7 4 7 4 7 1 1 2 4
             (fun k j i => IZR i) (fun k j i => IZR (k * j))
             (fun k j i => IZR (i - k)) in
  let U : arr3 Gas :=
    fun k j i =>
      Gas.mk (if ((k =? 5) && (j =? 5) && (i =? 5))%Z then -1 else 1)
             0 0 0 1 0 0 0 [] in
  let F : arr3 Cons1D :=
    fun k j i => Cons1D.mk (IZR i) 0 0 0 0 (IZR j) (IZR k) [] in
  let z : arr3 R := fun k j i => 0 in
  let w := Work.mk g U (fun k j i => 0%Z) (FaceWork.mk F F F F F F F F F)
             z z z in
  let GET : R -> Cons1D -> Cons1D -> Cons1D -> Cons1D :=
    fun Bx Ul Ur Fl => Ul in
  let w' := foc_state (first_order_correction 4 SECOND_ORDER true false GET U
                         (Faces.mk z z z) (EmfCC.mk z z z) w) in
  let klo := (kb 4 SECOND_ORDER g + 2)%Z in
  let khi := (kt 4 SECOND_ORDER g - 2)%Z in
  let jlo := (jb 4 SECOND_ORDER g + 2)%Z in
  let jhi := (jt 4 SECOND_ORDER g - 2)%Z in
  let ilo := (ib 4 SECOND_ORDER g + 2)%Z in
  let ihi := (it 4 SECOND_ORDER g - 2)%Z in
  let dF1 k j i := Cons1D.d (FaceWork.x1Flux (Work.faces w') k j i)
                   - Cons1D.d (FaceWork.x1Flux (Work.faces w) k j i) in
  let dF2 k j i := Cons1D.d (FaceWork.x2Flux (Work.faces w') k j i)
                   - Cons1D.d (FaceWork.x2Flux (Work.faces w) k j i) in
  let dF3 k j i := Cons1D.d (FaceWork.x3Flux (Work.faces w') k j i)
                   - Cons1D.d (FaceWork.x3Flux (Work.faces w) k j i) in
  box_total klo khi jlo jhi ilo ihi (fun k j i => Gas.d (Work.U w' k j i))
  = box_total klo khi jlo jhi ilo ihi (fun k j i => Gas.d (Work.U w k j i))
    - dtodx1 g * box_side_x1 klo khi jlo jhi ilo ihi dF1
    - dtodx2 g * box_side_x2 klo khi jlo jhi ilo ihi dF2
    - dtodx3 g * box_side_x3 klo khi jlo jhi ilo ihi dF3.
Proof.
  intros g U F z w GET w' klo khi jlo jhi ilo ihi.
  assert (Hk : (klo <= khi + 1)%Z) by (vm_compute; discriminate).
  assert (Hj : (jlo <= jhi + 1)%Z) by (vm_compute; discriminate).
  assert (Hi : (ilo <= ihi + 1)%Z) by (vm_compute; discriminate).
  exact (first_order_correction_conserves_mass 4 SECOND_ORDER true false
           GET U (Faces.mk z z z) (EmfCC.mk z z z) w Hk Hj Hi).
Defined.

Lemma first_order_correction_preserves_divB_witness :
  let g := mkGrid 4 7 4 7 4 7 1 1 2 4
             (fun k j i => IZR i) (fun k j i => IZR (k * j))
             (fun k j i => IZR (i - k)) in
  let U : arr3 Gas :=
    fun k j i =>
      Gas.mk (if ((k =? 5) && (j =? 5) && (i =? 5))%Z then -1 else 1)
             0 0 0 1 0 0 0 [] in
  let F : arr3 Cons1D :=
    fun k j i => Cons1D.mk (IZR i) 0 0 0 0 (IZR j) (IZR k) [] in
  let z : arr3 R := fun k j i => 0 in
  let cc := EmfCC.mk z z z in
  let w := Work.mk g U (fun k j i => 0%Z) (FaceWork.mk F F F F F F F F F)
             (emf1_corner F F z) (emf2_corner F F z) (emf3_corner F F z) in
  let GET : R -> Cons1D -> Cons1D -> Cons1D -> Cons1D :=
    fun Bx Ul Ur Fl => Ul in
  divB (Work.grid (foc_state (first_order_correction 4 SECOND_ORDER true
                                false GET U (Faces.mk z z z) cc w))) 5 5 5
  = divB g 5 5 5.
Proof.
  intros g U F z cc w GET.
  assert (Hk : (kb 4 SECOND_ORDER g + 2 <= 5 <= kt 4 SECOND_ORDER g - 2)%Z)
    by (vm_compute; split; discriminate).
  assert (Hj : (jb 4 SECOND_ORDER g + 2 <= 5 <= jt 4 SECOND_ORDER g - 2)%Z)
    by (vm_compute; split; discriminate).
  assert (Hi : (ib 4 SECOND_ORDER g + 2 <= 5 <= it 4 SECOND_ORDER g - 2)%Z)
    by (vm_compute; split; discriminate).
  exact (first_order_correction_preserves_divB 4 SECOND_ORDER false GET U
           (Faces.mk z z z) cc w 5 5 5
           (fun k j i _ _ _ => eq_refl) (fun k j i _ _ _ => eq_refl)
           (fun k j i _ _ _ => eq_refl) Hk Hj Hi).
Defined.


(** ** The flags that [first_order_correction] leaves *)

Section LeftFlags.

Variable nghost : Z.
Variable order : Order.
Variable MHD ISOTHERMAL : bool.
Variable GET_FLUXES : R -> Cons1D -> Cons1D -> Cons1D -> Cons1D.
Variable Uhalf : arr3 Gas.
Variable Bface : Faces.t.
Variable cc : EmfCC.t.
Variable w : Work.t.

Local Abbreviation g := (Work.grid w).
Local Abbreviation F1 := (fst (flag_negative nghost order g (Work.U w))).
Local Abbreviation Ineg' :=
  (Work.Ineg (foc_state (first_order_correction nghost order MHD ISOTHERMAL
                           GET_FLUXES Uhalf Bface cc w))).

(** [Ineg] on exit is what the first loop nest left, or that run through
    the MHD flag loop. *)
Lemma left_flags_cases :
  (Ineg' = F1
   /\ (MHD = false \/ (snd (flag_negative nghost order g (Work.U w)) <= 0)%Z))
  \/ (MHD = true /\ Ineg' = mhd_flags nghost order g (Work.U w)).
Proof.
  unfold first_order_correction, mhd_flags.
  destruct (flag_negative nghost order g (Work.U w)) as [Ineg negcount] eqn:E.
  cbn [fst snd].
  destruct (Z.gtb_spec negcount 0) as [N|N]; [|left; split; [reflexivity|auto]].
  match goal with
  | |- context [if (count_negative g ?u >? 0)%Z then _ else _] =>
      destruct (count_negative g u >? 0)%Z
  end;
    cbn [foc_state Work.Ineg];
    (destruct MHD; [right; split; reflexivity | left; split; auto]).
Qed.

Lemma left_flags_hydro (k j i n : Z) :
  (0 <= n <= 2)%Z -> Z.testbit (Ineg' k j i) n = Z.testbit (F1 k j i) n.
Proof.
  intros Hn.
  destruct left_flags_cases as [[-> _]|[_ ->]]; [reflexivity|].
  now apply mhd_flags_hydro.
Qed.

End LeftFlags.

(** X25.  Which interfaces [first_order_correction] drops to first
    order: on exit the hydro flag of direction x1 is set in [Ineg[k][j][i]]
    exactly if one of the two cells that share that interface, [(k,j,i)]
    or [(k,j,i-1)], is visited by the first loop nest and has
    [d <= 0.0]; likewise for x2 with [(k,j-1,i)] and for x3 with
    [(k-1,j,i)]; the MHD flag loop does not alter these flags. *)
Theorem first_order_correction_hydro_flags
    (nghost : Z) (order : Order) (MHD ISOTHERMAL : bool)
    (GET_FLUXES : R -> Cons1D -> Cons1D -> Cons1D -> Cons1D)
    (Uhalf : arr3 Gas) (Bface : Faces.t) (cc : EmfCC.t) (w : Work.t)
    (k j i : Z) :
  let Ineg := Work.Ineg (foc_state (first_order_correction nghost order MHD
                                      ISOTHERMAL GET_FLUXES Uhalf Bface cc w)) in
  let neg := negative_cell nghost order (Work.grid w) (Work.U w) in
  (flag_set Ineg k j i correct_hydro_x1 = true
   <-> neg k j i \/ neg k j (i - 1)%Z)
  /\ (flag_set Ineg k j i correct_hydro_x2 = true
      <-> neg k j i \/ neg k (j - 1)%Z i)
  /\ (flag_set Ineg k j i correct_hydro_x3 = true
      <-> neg k j i \/ neg (k - 1)%Z j i).
Proof.
  intros Ineg neg; unfold Ineg.
  rewrite flag_set_hydro_x1, flag_set_hydro_x2, flag_set_hydro_x3.
  rewrite !(left_flags_hydro nghost order MHD ISOTHERMAL GET_FLUXES
              Uhalf Bface cc w) by lia.
  repeat split.
  - apply flag_negative_hydro_x1.
  - intros [H|H].
    + apply flag_negative_all; [exact H | lia].
    + apply (flag_negative_sets _ _ _ _ _ _ _ _ _ _ _ H); solve_hit.
  - apply flag_negative_hydro_x2.
  - intros [H|H].
    + apply flag_negative_all; [exact H | lia].
    + apply (flag_negative_sets _ _ _ _ _ _ _ _ _ _ _ H); solve_hit.
  - apply flag_negative_hydro_x3.
  - intros [H|H].
    + apply flag_negative_all; [exact H | lia].
    + apply (flag_negative_sets _ _ _ _ _ _ _ _ _ _ _ H); solve_hit.
Qed.

Lemma first_order_correction_hydro_flags_witness :
  let g := mkGrid 4 7 4 7 4 7 1 1 2 4
             (fun k j i => IZR i) (fun k j i => IZR (k * j))
             (fun k j i => IZR (i - k)) in
  let U : arr3 Gas :=
    fun k j i =>
      Gas.mk (if ((k =? 5) && (j =? 5) && (i =? 5))%Z then -1 else 1)
             0 0 0 1 0 0 0 [] in
  let F : arr3 Cons1D :=
    fun k j i => Cons1D.mk (IZR i) 0 0 0 0 (IZR j) (IZR k) [] in
  let z : arr3 R := fun k j i => 0 in
  let w := Work.mk g U (fun k j i => 0%Z) (FaceWork.mk F F F F F F F F F)
             z z z in
  let GET : R -> Cons1D -> Cons1D -> Cons1D -> Cons1D :=
    fun Bx Ul Ur Fl => Ul in
  flag_set (Work.Ineg (foc_state (first_order_correction 4 SECOND_ORDER true
                                    false GET U (Faces.mk z z z)
                                    (EmfCC.mk z z z) w)))
    5 5 6 correct_hydro_x1 = true.
Proof.
  intros g U F z w GET.
  assert (Hneg : negative_cell 4 SECOND_ORDER g U 5 5 (6 - 1)).
  { unfold negative_cell.
    repeat split; try (vm_compute; discriminate).
    simpl; lra. }
  exact (proj2 (proj1 (first_order_correction_hydro_flags 4 SECOND_ORDER true
                         false GET U (Faces.mk z z z) (EmfCC.mk z z z) w
                         5 5 6))
           (or_intror Hneg)).
Defined.

(** X26.  The MHD flags close around every edge.  With [MHD] defined, if
    on exit one of the four interfaces whose fluxes enter the corner EMF
    of an edge carries its hydro flag, then all four face fields around
    that edge carry their MHD flag, so that each of them is undone and
    redone with the recomputed EMF: for [emf1[k][j][i]] the x2-interfaces
    [(k,j,i)], [(k-1,j,i)] and the x3-interfaces [(k,j,i)], [(k,j-1,i)];
    for [emf2[k][j][i]] the x1-interfaces [(k,j,i)], [(k-1,j,i)] and the
    x3-interfaces [(k,j,i)], [(k,j,i-1)]; for [emf3[k][j][i]] the
    x1-interfaces [(k,j,i)], [(k,j-1,i)] and the x2-interfaces [(k,j,i)],
    [(k,j,i-1)]. *)
Theorem first_order_correction_mhd_flags_closed
    (nghost : Z) (order : Order) (ISOTHERMAL : bool)
    (GET_FLUXES : R -> Cons1D -> Cons1D -> Cons1D -> Cons1D)
    (Uhalf : arr3 Gas) (Bface : Faces.t) (cc : EmfCC.t) (w : Work.t)
    (k j i : Z) :
  let Ineg := Work.Ineg (foc_state (first_order_correction nghost order true
                                      ISOTHERMAL GET_FLUXES Uhalf Bface cc w)) in
  let hydro a b c f := flag_set Ineg a b c f = true in
  let mhd a b c f := flag_set Ineg a b c f = true in
  (hydro k j i correct_hydro_x2 \/ hydro (k - 1)%Z j i correct_hydro_x2
   \/ hydro k j i correct_hydro_x3 \/ hydro k (j - 1)%Z i correct_hydro_x3 ->
   mhd k j i correct_mhd_x2 /\ mhd (k - 1)%Z j i correct_mhd_x2
   /\ mhd k j i correct_mhd_x3 /\ mhd k (j - 1)%Z i correct_mhd_x3)
  /\ (hydro k j i correct_hydro_x1 \/ hydro (k - 1)%Z j i correct_hydro_x1
      \/ hydro k j i correct_hydro_x3 \/ hydro k j (i - 1)%Z correct_hydro_x3 ->
      mhd k j i correct_mhd_x1 /\ mhd (k - 1)%Z j i correct_mhd_x1
      /\ mhd k j i correct_mhd_x3 /\ mhd k j (i - 1)%Z correct_mhd_x3)
  /\ (hydro k j i correct_hydro_x1 \/ hydro k (j - 1)%Z i correct_hydro_x1
      \/ hydro k j i correct_hydro_x2 \/ hydro k j (i - 1)%Z correct_hydro_x2 ->
      mhd k j i correct_mhd_x1 /\ mhd k (j - 1)%Z i correct_mhd_x1
      /\ mhd k j i correct_mhd_x2 /\ mhd k j (i - 1)%Z correct_mhd_x2).
Proof.
  intros Ineg hydro mhd; unfold hydro, mhd, Ineg; clear Ineg hydro mhd.
  rewrite !flag_set_hydro_x1, !flag_set_hydro_x2, !flag_set_hydro_x3,
    !flag_set_mhd_x1, !flag_set_mhd_x2, !flag_set_mhd_x3.
  destruct (left_flags_cases nghost order true ISOTHERMAL GET_FLUXES
              Uhalf Bface cc w) as [[HI [HM|HN]]|[_ HI]]; [discriminate| |].
  - (* no correction ran: no flag is set *)
    rewrite HI.
    assert (Hzero : forall a b c n,
              Z.testbit (fst (flag_negative nghost order (Work.grid w)
                                (Work.U w)) a b c) n = true -> False).
    { intros a b c n Hb.
      apply flag_negative_only in Hb.
      destruct Hb as (k0 & j0 & i0 & Hneg & _).
      pose proof (flag_negative_count _ _ _ _ _ _ _ Hneg) as Hcount.
      lia. }
    split; [|split]; intros H; exfalso;
      destruct H as [H|[H|[H|H]]]; exact (Hzero _ _ _ _ H).
  - rewrite HI.
    split; [apply closure_emf1 | split; [apply closure_emf2 | apply closure_emf3]].
Qed.

Lemma first_order_correction_mhd_flags_closed_witness :
  let g := mkGrid 4 7 4 7 4 7 1 1 2 4
             (fun k j i => IZR i) (fun k j i => IZR (k * j))
             (fun k j i => IZR (i - k)) in
  let U : arr3 Gas :=
    fun k j i =>
      Gas.mk (if ((k =? 5) && (j =? 5) && (i =? 5))%Z then -1 else 1)
             0 0 0 1 0 0 0 [] in
  let F : arr3 Cons1D :=
    fun k j i => Cons1D.mk (IZR i) 0 0 0 0 (IZR j) (IZR k) [] in
  let z : arr3 R := fun k j i => 0 in
  let w := Work.mk g U (fun k j i => 0%Z) (FaceWork.mk F F F F F F F F F)
             z z z in
  let GET : R -> Cons1D -> Cons1D -> Cons1D -> Cons1D :=
    fun Bx Ul Ur Fl => Ul in
  let Ineg := Work.Ineg (foc_state (first_order_correction 4 SECOND_ORDER true
                                      false GET U (Faces.mk z z z)
                                      (EmfCC.mk z z z) w)) in
  flag_set Ineg 5 5 5 correct_mhd_x2 = true
  /\ flag_set Ineg (5 - 1) 5 5 correct_mhd_x2 = true
  /\ flag_set Ineg 5 5 5 correct_mhd_x3 = true
  /\ flag_set Ineg 5 (5 - 1) 5 correct_mhd_x3 = true.
Proof.
  intros g U F z w GET Ineg.
  assert (Hneg : negative_cell 4 SECOND_ORDER g U 5 5 5).
  { unfold negative_cell.
    repeat split; try (vm_compute; discriminate).
    simpl; lra. }
  assert (Hh : flag_set Ineg 5 5 5 correct_hydro_x2 = true).
  { subst Ineg.
    rewrite flag_set_hydro_x2, left_flags_hydro by lia.
    apply flag_negative_all; [exact Hneg | lia]. }
  exact (proj1 (first_order_correction_mhd_flags_closed 4 SECOND_ORDER false
                  GET U (Faces.mk z z z) (EmfCC.mk z z z) w 5 5 5)
           (or_introl Hh)).
Defined.
